(** * pascal_object_classification_tf: 06_pascal_caffenet_mixup.py

    A shallow embedding of the training script: the CaffeNet configuration,
    the [mixup] batch interpolation, the evaluator [test], the learning-rate
    schedule and the epoch loop of [main], and the average-precision scoring
    it consumes.

    Arrays are nested lists indexed by their rank.  Numbers are kept abstract
    behind the class [Num], so that every structural statement holds for any
    arithmetic (IEEE floats included); statements that need the laws of exact
    arithmetic are made at the instance of the real numbers, and the runnable
    examples use the rationals. *)

From Stdlib Require Import String.
From Stdlib Require Import List Arith ZArith QArith Qreduction Reals Lia Lra.
From Stdlib Require Import Permutation Bool.
Import ListNotations.
Close Scope R_scope.
Close Scope Q_scope.

Set Implicit Arguments.

(** ** Numbers *)

(** What the script needs from a numeric dtype. *)
Class Num (T : Type) := {
  nzero : T;
  nunit : T;
  nadd : T -> T -> T;
  nsub : T -> T -> T;
  nmul : T -> T -> T;
  ndiv : T -> T -> T;
  of_Z : Z -> T;
  is_zero : T -> bool
}.

(** Exact rationals kept in lowest terms: the executable instance. *)
#[export] Instance QNum : Num Q := {
  nzero := 0%Q;
  nunit := 1%Q;
  nadd x y := Qred (x + y)%Q;
  nsub x y := Qred (x - y)%Q;
  nmul x y := Qred (x * y)%Q;
  ndiv x y := Qred (x / y)%Q;
  of_Z z := inject_Z z;
  is_zero x := Qeq_bool x 0%Q
}.

(** The real numbers: the idealised instance. *)
#[export] Instance RNum : Num R := {
  nzero := 0%R;
  nunit := 1%R;
  nadd := Rplus;
  nsub := Rminus;
  nmul := Rmult;
  ndiv := Rdiv;
  of_Z := IZR;
  is_zero x := if Req_dec_T x 0%R then true else false
}.

(** ** Options and lists *)

Fixpoint sequence {A : Type} (l : list (option A)) : option (list A) :=
  match l with
  | [] => Some []
  | None :: _ => None
  | Some x :: l' =>
      match sequence l' with
      | Some xs => Some (x :: xs)
      | None => None
      end
  end.

Definition traverse {A B : Type} (f : A -> option B) (l : list A)
  : option (list B) :=
  sequence (map f l).

(** ** Tensors *)

(** A tensor of rank [r]: [r] levels of lists around the entries. *)
Fixpoint tensor (T : Type) (r : nat) : Type :=
  match r with
  | O => T
  | S r' => list (tensor T r')
  end.

(** [has_shape r s t]: [t] is rectangular with dimensions [s]. *)
Fixpoint has_shape {T : Type} (r : nat) (s : list nat) : tensor T r -> Prop :=
  match r return tensor T r -> Prop with
  | O => fun _ => s = []
  | S r' => fun t =>
      match s with
      | [] => False
      | n :: s' => length t = n /\ Forall (has_shape r' s') t
      end
  end.

(** Entrywise application of a unary operation. *)
Fixpoint tmap {A B : Type} (r : nat) (f : A -> B) : tensor A r -> tensor B r :=
  match r return tensor A r -> tensor B r with
  | O => fun x => f x
  | S r' => fun t => map (tmap r' f) t
  end.

(** Entrywise application of a binary operation to two tensors of one
    shape (used to state results; the code's operators are [bcast2]). *)
Fixpoint tmap2 {A B C : Type} (r : nat) (f : A -> B -> C)
  : tensor A r -> tensor B r -> tensor C r :=
  match r return tensor A r -> tensor B r -> tensor C r with
  | O => fun x y => f x y
  | S r' => fun a b => map (fun p => tmap2 r' f (fst p) (snd p)) (combine a b)
  end.

(** A binary operator of numpy / TensorFlow on two arrays of one rank, with
    broadcasting: along every axis the two lengths are equal or one of them
    is 1; anything else is a shape error. *)
Fixpoint bcast2 {A B C : Type} (f : A -> B -> C) (r : nat)
  : tensor A r -> tensor B r -> option (tensor C r) :=
  match r return tensor A r -> tensor B r -> option (tensor C r) with
  | O => fun x y => Some (f x y)
  | S r' => fun a b =>
      if length a =? length b
      then traverse (fun p => bcast2 f r' (fst p) (snd p)) (combine a b)
      else match a, b with
           | [x], _ => traverse (fun y => bcast2 f r' x y) b
           | _, [y] => traverse (fun x => bcast2 f r' x y) a
           | _, _ => None
           end
  end.

(** The entry [w] as a tensor of rank [r] with all dimensions 1. *)
Fixpoint single {T : Type} (r : nat) (w : T) : tensor T r :=
  match r return tensor T r with
  | O => w
  | S r' => [single r' w]
  end.

(** [weights.reshape(batch_size, 1, ..., 1)] on a vector: an error unless
    the vector has [batch_size] entries. *)
Definition reshape_col {T : Type} (r : nat) (batch_size : nat) (w : list T)
  : option (tensor T (S r)) :=
  if length w =? batch_size then Some (map (single r) w) else None.

(** [tf.gather(params, indices)] along the leading axis; an index out of
    range is an error (the CPU kernel's behaviour). *)
Definition tf_gather {A : Type} (params : list A) (indices : list nat)
  : option (list A) :=
  traverse (nth_error params) indices.

(** ** The random source *)

(** [np.random] as an explicit generator state [G]: a draw returns its
    sample and the next state.  [random_beta a b n] is
    [np.random.beta(a, b, n)], [random_permutation n] is
    [np.random.permutation(n)]. *)
Class RandomSource (T G : Type) := {
  random_beta : T -> T -> nat -> G -> list T * G;
  random_permutation : nat -> G -> list nat * G;
  random_beta_length :
    forall a b n g, length (fst (random_beta a b n g)) = n;
  random_permutation_perm :
    forall n g, Permutation (fst (random_permutation n g)) (seq 0 n)
}.

(** State and error: a computation reads the generator, may fail, and
    returns the next generator. *)
Definition Rand (G A : Type) : Type := G -> option (A * G).

Definition ret {G A : Type} (x : A) : Rand G A := fun g => Some (x, g).

Definition bind {G A B : Type} (m : Rand G A) (k : A -> Rand G B)
  : Rand G B :=
  fun g => match m g with
           | Some (x, g') => k x g'
           | None => None
           end.

Definition draw {G A : Type} (sampler : G -> A * G) : Rand G A :=
  fun g => Some (sampler g).

Definition lift {G A : Type} (o : option A) : Rand G A :=
  fun g => match o with
           | Some x => Some (x, g)
           | None => None
           end.

Declare Scope rand_scope.
Delimit Scope rand_scope with rand.
Notation "x <- m ;; k" := (bind m (fun x => k))
  (at level 61, m at next level, right associativity) : rand_scope.

(** ** mixup *)

Section Mixup.
Context {T G : Type} {NT : Num T} {RS : RandomSource T G}.

Local Open Scope rand_scope.

(** [mixup(images, labels, l_weights, alpha, batch_size)], statement by
    statement: the two draws from [np.random], the three reshapes of the
    coefficients, the three gathers (the one of the weights is computed and
    dropped, as the mixing of the weights is commented out) and the two
    convex combinations.  [1 - image_weight] is [tmap (nsub nunit)]. *)
Definition mixup (images : tensor T 4) (labels l_weights : tensor T 2)
    (alpha : T) (batch_size : nat)
  : Rand G (tensor T 4 * tensor T 2 * tensor T 2) :=
  weights <- draw (random_beta alpha alpha batch_size) ;;
  image_weight <- lift (reshape_col 3 batch_size weights) ;;
  label_weight <- lift (reshape_col 1 batch_size weights) ;;
  l_w_weight <- lift (reshape_col 1 batch_size weights) ;;
  ordering <- draw (random_permutation batch_size) ;;
  images_new <- lift (tf_gather images ordering) ;;
  let images_old := images in
  labels_new <- lift (tf_gather labels ordering) ;;
  let labels_old := labels in
  l_weights_new <- lift (tf_gather l_weights ordering) ;;
  let l_weights_old := l_weights in
  im_l <- lift (bcast2 nmul 4 image_weight images_old) ;;
  im_r <- lift (bcast2 nmul 4 (tmap 4 (nsub nunit) image_weight) images_new) ;;
  images' <- lift (bcast2 nadd 4 im_l im_r) ;;
  lb_l <- lift (bcast2 nmul 2 label_weight labels_old) ;;
  lb_r <- lift (bcast2 nmul 2 (tmap 2 (nsub nunit) label_weight) labels_new) ;;
  labels' <- lift (bcast2 nadd 2 lb_l lb_r) ;;
  ret (images', labels', l_weights).

End Mixup.

(** ** The evaluator *)

(** The elementwise kernels of TensorFlow the evaluator calls:
    [tf.nn.sigmoid], [tf.nn.sigmoid_cross_entropy_with_logits] (labels
    first, logits second), [tf.round] and [tf.cast(., tf.int32)]. *)
Class Elementary (T : Type) := {
  sigmoid : T -> T;
  sigmoid_cross_entropy_with_logits : T -> T -> T;
  tf_round : T -> T;
  cast_int32 : T -> Z
}.

(** [tf.round] rounds to the nearest integer, halves to the even one. *)
Definition round_half_even (x : R) : Z :=
  let f := Zfloor x in
  let d := (x - IZR f)%R in
  if Rlt_dec d (1 / 2) then f
  else if Rlt_dec (1 / 2) d then (f + 1)%Z
  else if Z.even f then f else (f + 1)%Z.

(** The kernels over the reals; the cross-entropy is TensorFlow's
    documented [max(x, 0) - x * z + log(1 + exp(-abs(x)))], the cast
    truncates towards zero. *)
#[export] Instance RElementary : Elementary R := {
  sigmoid x := (1 / (1 + exp (- x)))%R;
  sigmoid_cross_entropy_with_logits z x :=
    (Rmax x 0 - x * z + ln (1 + exp (- Rabs x)))%R;
  tf_round x := IZR (round_half_even x);
  cast_int32 x := if Rle_dec 0 x then Zfloor x else Zceil x
}.

(** The entries of a tensor in row-major order. *)
Fixpoint flatten {A : Type} (r : nat) : tensor A r -> list A :=
  match r return tensor A r -> list A with
  | O => fun x => [x]
  | S r' => fun t => flat_map (flatten r') t
  end.

(** An elementwise operator that requires equal shapes. *)
Fixpoint tzip {A B C : Type} (f : A -> B -> C) (r : nat)
  : tensor A r -> tensor B r -> option (tensor C r) :=
  match r return tensor A r -> tensor B r -> option (tensor C r) with
  | O => fun x y => Some (f x y)
  | S r' => fun a b =>
      if length a =? length b
      then traverse (fun p => tzip f r' (fst p) (snd p)) (combine a b)
      else None
  end.

(** [weights_broadcast_ops.broadcast_weights(weights, like)]: along every
    axis the weights have the length of [like] or length 1. *)
Fixpoint broadcast_weights {A B : Type} (r : nat)
  : tensor A r -> tensor B r -> option (tensor A r) :=
  match r return tensor A r -> tensor B r -> option (tensor A r) with
  | O => fun w _ => Some w
  | S r' => fun w l =>
      if length w =? length l
      then traverse (fun p => broadcast_weights r' (fst p) (snd p))
                    (combine w l)
      else match w with
           | [x] => traverse (fun y => broadcast_weights r' x y) l
           | _ => None
           end
  end.

Section Evaluator.
Context {T : Type} {NT : Num T} {ET : Elementary T}.

(** [tf.reduce_sum] over all axes; a scalar is its own sum. *)
Definition reduce_sum (r : nat) : tensor T r -> T :=
  match r return tensor T r -> T with
  | O => fun x => x
  | S r' => fun t => fold_left nadd (flatten (S r') t) nzero
  end.

(** [tf.size], as a number. *)
Definition tf_size (r : nat) (t : tensor T r) : T :=
  of_Z (Z.of_nat (length (flatten r t))).

(** [tf.losses.sigmoid_cross_entropy(labels, logits, weights)] with its
    default reduction [SUM_BY_NONZERO_WEIGHTS]: the weighted sum of the
    entrywise cross-entropies over the number of entries whose weight is
    not zero, and 0 when there is none.  Labels and weights arrive already
    cast to the dtype of the logits. *)
Definition sigmoid_cross_entropy (labels logits weights : tensor T 2)
  : option T :=
  match tzip sigmoid_cross_entropy_with_logits 2 labels logits with
  | None => None
  | Some losses =>
      match broadcast_weights 2 weights losses with
      | None => None
      | Some w =>
          let weighted_losses := tmap2 2 nmul losses w in
          let loss := reduce_sum 2 weighted_losses in
          let present :=
            tmap 2 (fun x => if is_zero x then nzero else nunit) w in
          let num_present := reduce_sum 2 present in
          Some (if is_zero num_present then nzero
                else ndiv loss num_present)
      end
  end.

(** [tfe.metrics.Mean]: two accumulators. *)
Record Mean : Type := { numer : T; denom : T }.

Definition Mean_init : Mean := {| numer := nzero; denom := nzero |}.

(** [Mean.__call__(values)]: adds the number of values to the denominator
    and their sum to the numerator. *)
Definition Mean_call (r : nat) (m : Mean) (values : tensor T r) : Mean :=
  {| numer := nadd (numer m) (reduce_sum r values);
     denom := nadd (denom m) (tf_size r values) |}.

(** [Mean.result()]: the quotient of the two accumulators, whatever the
    dtype makes of a zero denominator. *)
Definition Mean_result (m : Mean) : T := ndiv (numer m) (denom m).

(** [tfe.metrics.Accuracy.__call__(labels, predictions)]: the shapes must
    agree; the matches, as 1 and 0, go to the underlying mean. *)
Definition Accuracy_call (m : Mean) (labels predictions : tensor Z 2)
  : option Mean :=
  match tzip (fun a b => if Z.eqb a b then nunit else nzero) 2
             labels predictions with
  | None => None
  | Some matches => Some (Mean_call 2 m matches)
  end.

(** One batch of a dataset: images, integer labels, integer weights. *)
Definition batch : Type := (tensor T 4 * tensor Z 2 * tensor Z 2)%type.

(** The body of the loop of [test] on one batch. *)
Definition test_batch (model : tensor T 4 -> bool -> tensor T 2)
    (acc : Mean * Mean) (b : batch) : option (Mean * Mean) :=
  let '(images, labels, weights) := b in
  let '(test_loss, test_accuracy) := acc in
  let logits := model images false in
  match sigmoid_cross_entropy (tmap 2 of_Z labels) logits
                              (tmap 2 of_Z weights) with
  | None => None
  | Some loss_value =>
      let prediction := tmap 2 tf_round (tmap 2 sigmoid logits) in
      let prediction := tmap 2 cast_int32 prediction in
      match Accuracy_call test_accuracy prediction labels with
      | None => None
      | Some test_accuracy' =>
          Some (Mean_call 0 test_loss loss_value, test_accuracy')
      end
  end.

Fixpoint test_loop (model : tensor T 4 -> bool -> tensor T 2)
    (acc : Mean * Mean) (dataset : list batch) : option (Mean * Mean) :=
  match dataset with
  | [] => Some acc
  | b :: rest =>
      match test_batch model acc b with
      | None => None
      | Some acc' => test_loop model acc' rest
      end
  end.

(** [test(model, dataset)]. *)
Definition test (model : tensor T 4 -> bool -> tensor T 2)
    (dataset : list batch) : option (T * T) :=
  match test_loop model (Mean_init, Mean_init) dataset with
  | None => None
  | Some (test_loss, test_accuracy) =>
      Some (Mean_result test_loss, Mean_result test_accuracy)
  end.

End Evaluator.

(** ** The network *)

Definition CLASS_NAMES : list string :=
  ["aeroplane"; "bicycle"; "bird"; "boat"; "bottle"; "bus"; "car";
   "cat"; "chair"; "cow"; "diningtable"; "dog"; "horse"; "motorbike";
   "person"; "pottedplant"; "sheep"; "sofa"; "train"; "tvmonitor"]%string.

Inductive Padding : Type := valid | same.

Inductive Activation : Type := relu | linear.

Record Conv2D : Type := {
  filters : nat;
  kernel_size : nat * nat;
  strides : nat;
  padding : Padding;
  activation : Activation
}.

Record MaxPool2D : Type := { pool_size : nat * nat; pool_strides : nat }.

Record Dense : Type := { units : nat; dense_activation : Activation }.

Record Dropout : Type := { rate : Q }.

(** The attributes [CaffeNet.__init__] sets. *)
Record CaffeNet : Type := {
  name : string;
  num_classes : nat;
  conv1 : Conv2D; pool1 : MaxPool2D;
  conv2 : Conv2D; pool2 : MaxPool2D;
  conv3 : Conv2D; conv4 : Conv2D; conv5 : Conv2D; pool3 : MaxPool2D;
  dense1 : Dense; dropout1 : Dropout;
  dense2 : Dense; dropout2 : Dropout;
  dense3 : Dense
}.

(** [CaffeNet(num_classes=...)]; [None] is the call that leaves the
    keyword out and gets the default of the signature. *)
Definition CaffeNet_init (num_classes_arg : option nat) : CaffeNet :=
  let num_classes :=
    match num_classes_arg with Some n => n | None => 10 end in
  {| name := "CaffeNet";
     num_classes := num_classes;
     conv1 := {| filters := 96; kernel_size := (11, 11); strides := 4;
                 padding := valid; activation := relu |};
     pool1 := {| pool_size := (3, 3); pool_strides := 2 |};
     conv2 := {| filters := 256; kernel_size := (5, 5); strides := 1;
                 padding := same; activation := relu |};
     pool2 := {| pool_size := (3, 3); pool_strides := 2 |};
     conv3 := {| filters := 384; kernel_size := (3, 3); strides := 1;
                 padding := same; activation := relu |};
     conv4 := {| filters := 384; kernel_size := (3, 3); strides := 1;
                 padding := same; activation := relu |};
     conv5 := {| filters := 256; kernel_size := (3, 3); strides := 1;
                 padding := same; activation := relu |};
     pool3 := {| pool_size := (3, 3); pool_strides := 2 |};
     dense1 := {| units := 4096; dense_activation := relu |};
     dropout1 := {| rate := (1 # 2)%Q |};
     dense2 := {| units := 4096; dense_activation := relu |};
     dropout2 := {| rate := (1 # 2)%Q |};
     dense3 := {| units := num_classes; dense_activation := linear |} |}.

(** [CaffeNet.compute_output_shape(input_shape)]; a dimension is [None]
    when unknown, and [shape[0]] of an empty shape is an error. *)
Definition compute_output_shape (self : CaffeNet)
    (input_shape : list (option nat)) : option (list (option nat)) :=
  match input_shape with
  | [] => None
  | shape0 :: _ => Some [shape0; Some (num_classes self)]
  end.

(** The model [main] builds. *)
Definition main_model : CaffeNet := CaffeNet_init (Some (length CLASS_NAMES)).

(** ** The learning-rate schedule and the optimizer *)

Section Optimizer.
Context {T : Type} {NT : Num T}.

Fixpoint npow (x : T) (n : nat) : T :=
  match n with
  | O => nunit
  | S n' => nmul x (npow x n')
  end.

(** [tf.train.exponential_decay(learning_rate, global_step, decay_steps,
    decay_rate, staircase=True)] under eager execution: a function that
    reads the step counter each time it is called and returns
    [learning_rate * decay_rate ^ floor(global_step / decay_steps)].  The
    argument of the result is the value of the counter at the call. *)
Definition exponential_decay (learning_rate : T) (decay_steps : nat)
    (decay_rate : T) : nat -> T :=
  fun global_step =>
    nmul learning_rate (npow decay_rate (global_step / decay_steps)).

(** [tf.train.MomentumOptimizer]: the learning rate it was given, the
    momentum and one accumulator slot per variable. *)
Record MomentumOptimizer : Type := {
  learning_rate : T;
  momentum : T;
  accumulators : list T
}.

(** The momentum update of the variables paired with a gradient by
    [zip(grads, variables)]; what the zip leaves out is untouched. *)
Fixpoint apply_dense (lr mom : T) (grads vars accs : list T)
  : list T * list T :=
  match grads, vars, accs with
  | g :: grads', v :: vars', a :: accs' =>
      let a' := nadd (nmul mom a) g in
      let v' := nsub v (nmul lr a') in
      let '(vs, acs) := apply_dense lr mom grads' vars' accs' in
      (v' :: vs, a' :: acs)
  | _, _, _ => (vars, accs)
  end.

End Optimizer.

(** ** The training loop of [main] *)

Inductive SummaryTag : Type := Training_Loss | LR | Test_mAP.

Section Training.
Context {T G : Type} {NT : Num T} {RS : RandomSource T G}.

Local Open Scope rand_scope.

(** The command-line arguments the loop reads. *)
Record Args : Type := {
  batch_size : Z;
  epochs : Z;
  lr : T;
  seed : Z;
  log_interval : Z;
  eval_interval : Z
}.

(** What [root.save] writes: the objects the [tf.train.Checkpoint] was
    built from, under the number of the save. *)
Record Checkpoint : Type := {
  ckpt_number : nat;
  ckpt_model : list T;
  ckpt_optimizer : MomentumOptimizer (T := T)
}.

(** The mutable objects of [main]: the global step, the trainable
    variables of the model, the optimizer, the checkpoint files written
    (latest first), the summaries (latest first) and [train_log]. *)
Record TrainState : Type := {
  global_step : nat;
  variables : list T;
  optimizer : MomentumOptimizer (T := T);
  save_counter : nat;
  checkpoints : list Checkpoint;
  summaries : list (SummaryTag * nat * T);
  train_log : list (nat * T)
}.

(** The collaborators from [util] and the input pipeline: [cal_grad]
    returns the loss and the gradients at the current variables,
    [eval_dataset_map] the per-class and mean average precision of the
    model on the test set, [train_dataset ep] the batches that the pass
    over the shuffled training set yields in epoch [ep]. *)
Variable cal_grad :
  list T -> tensor T 4 -> tensor T 2 -> tensor T 2 -> T * list T.
Variable eval_dataset_map : list T -> list T * T.
Variable train_dataset : nat -> list (batch (T := T)).

(** [a % b] with a numpy integer on the left, as [global_step.numpy()]
    is: the sign of [b], and 0, with a warning and no error, for
    [b = 0]. *)
Definition np_mod (a b : Z) : Z :=
  if (b =? 0)%Z then 0%Z else (a mod b)%Z.

Definition decayed_lr (args : Args) : nat -> T :=
  exponential_decay (lr args) 5000 (ndiv (of_Z 1) (of_Z 2)).

(** The state [main] enters the loop with: the step counter at 0, the
    optimizer built from [decayed_lr()], called there and then. *)
Definition main_init (args : Args) (variables0 : list T) : TrainState :=
  let global_step := 0 in
  {| global_step := global_step;
     variables := variables0;
     optimizer := {| learning_rate := decayed_lr args global_step;
                     momentum := ndiv (of_Z 9) (of_Z 10);
                     accumulators := map (fun _ => nzero) variables0 |};
     save_counter := 0;
     checkpoints := [];
     summaries := [];
     train_log := [] |}.

(** [optimizer.apply_gradients(zip(grads, variables), global_step)]. *)
Definition apply_gradients (st : TrainState) (grads : list T) : TrainState :=
  let opt := optimizer st in
  let '(vars, accs) :=
    apply_dense (learning_rate opt) (momentum opt) grads
                (variables st) (accumulators opt) in
  {| global_step := S (global_step st);
     variables := vars;
     optimizer := {| learning_rate := learning_rate opt;
                     momentum := momentum opt;
                     accumulators := accs |};
     save_counter := save_counter st;
     checkpoints := checkpoints st;
     summaries := summaries st;
     train_log := train_log st |}.

Definition add_summaries (st : TrainState)
    (new : list (SummaryTag * nat * T)) : TrainState :=
  {| global_step := global_step st;
     variables := variables st;
     optimizer := optimizer st;
     save_counter := save_counter st;
     checkpoints := checkpoints st;
     summaries := new ++ summaries st;
     train_log := train_log st |}.

Definition add_train_log (st : TrainState) (entry : nat * T) : TrainState :=
  {| global_step := global_step st;
     variables := variables st;
     optimizer := optimizer st;
     save_counter := save_counter st;
     checkpoints := checkpoints st;
     summaries := summaries st;
     train_log := entry :: train_log st |}.

(** [root.save(ckpt_prefix)]. *)
Definition Checkpoint_save (st : TrainState) : TrainState :=
  let n := S (save_counter st) in
  {| global_step := global_step st;
     variables := variables st;
     optimizer := optimizer st;
     save_counter := n;
     checkpoints := {| ckpt_number := n;
                       ckpt_model := variables st;
                       ckpt_optimizer := optimizer st |} :: checkpoints st;
     summaries := summaries st;
     train_log := train_log st |}.

(** The body of the inner loop on one batch. *)
Definition train_batch (args : Args) (acc : Mean (T := T) * TrainState)
    (b : batch (T := T)) : Rand G (Mean (T := T) * TrainState) :=
  let '(images, labels, weights) := b in
  let '(epoch_loss_avg, st) := acc in
  let alpha := ndiv (of_Z 1) (of_Z 5) in
  let batch_size := length images in
  let labels := tmap 2 of_Z labels in
  let weights := tmap 2 of_Z weights in
  mixed <- mixup images labels weights alpha batch_size ;;
  let '(images, labels, weights) := mixed in
  let '(loss_value, grads) := cal_grad (variables st) images labels weights in
  let st := apply_gradients st grads in
  let epoch_loss_avg := Mean_call 0 epoch_loss_avg loss_value in
  let step := global_step st in
  let m_log := np_mod (Z.of_nat step) (log_interval args) in
  let st :=
    if (m_log =? 0)%Z
    then add_summaries
           (add_train_log st (step, Mean_result epoch_loss_avg))
           [(LR, step, decayed_lr args step);
            (Training_Loss, step, loss_value)]
    else st in
  let m_eval := np_mod (Z.of_nat step) (eval_interval args) in
  let st :=
    if (m_eval =? 0)%Z
    then add_summaries st
           [(Test_mAP, step, snd (eval_dataset_map (variables st)))]
    else st in
  ret (epoch_loss_avg, st).

Fixpoint train_batches (args : Args) (acc : Mean (T := T) * TrainState)
    (batches : list (batch (T := T))) : Rand G (Mean (T := T) * TrainState) :=
  match batches with
  | [] => ret acc
  | b :: rest =>
      acc' <- train_batch args acc b ;;
      train_batches args acc' rest
  end.

(** One iteration of [for ep in range(args.epochs)]. *)
Definition train_epoch (args : Args) (st : TrainState) (ep : nat)
  : Rand G TrainState :=
  let epoch_loss_avg := Mean_init in
  acc <- train_batches args (epoch_loss_avg, st) (train_dataset ep) ;;
  let st := snd acc in
  ret (if ep mod 2 =? 0 then Checkpoint_save st else st).

Fixpoint run_epochs (args : Args) (st : TrainState) (eps : list nat)
  : Rand G TrainState :=
  match eps with
  | [] => ret st
  | ep :: rest =>
      st' <- train_epoch args st ep ;;
      run_epochs args st' rest
  end.

(** The epoch loop of [main], from the state [main] builds. *)
Definition main_loop (args : Args) (variables0 : list T) : Rand G TrainState :=
  run_epochs args (main_init args variables0) (seq 0 (Z.to_nat (epochs args))).

End Training.

(** ** Average precision *)

Module AP.

(** One example of one class: its score and its ground-truth label. *)
Definition example : Type := (Q * Z)%type.

(** Modelled from the spec: the positives of [util.compute_ap], which is
    not among the sources; labels are binary and 1 marks a positive. *)
Definition is_positive (e : example) : bool := (snd e =? 1)%Z.

(** Modelled from the spec: the ranking of [util.compute_ap], which is not
    among the sources.  Examples are ranked by score, highest first; the
    sort is stable, so that tied examples keep their order. *)
Fixpoint rank_insert (x : example) (l : list example) : list example :=
  match l with
  | [] => [x]
  | y :: l' =>
      if Qle_bool (fst y) (fst x) then x :: y :: l'
      else y :: rank_insert x l'
  end.

Definition rank (l : list example) : list example :=
  fold_right rank_insert [] l.

(** Modelled from the spec: the threshold sweep of [util.compute_ap], which
    is not among the sources.  The decision threshold goes through the
    distinct score values of the ranked examples; after each group of equal
    scores the sweep records the true and false positives so far. *)
Fixpoint pr_sweep (ranked : list example) (tp fp : nat) : list (nat * nat) :=
  match ranked with
  | [] => []
  | e :: rest =>
      let tp' := if is_positive e then S tp else tp in
      let fp' := if is_positive e then fp else S fp in
      match rest with
      | [] => [(tp', fp')]
      | e' :: _ =>
          if Qeq_bool (fst e) (fst e') then pr_sweep rest tp' fp'
          else (tp', fp') :: pr_sweep rest tp' fp'
      end
  end.

Definition QofN (n : nat) : Q := inject_Z (Z.of_nat n).

(** Modelled from the spec: precision and recall at a threshold, for
    [util.compute_ap], which is not among the sources. *)
Definition precision (tp fp : nat) : Q := (QofN tp / QofN (tp + fp))%Q.

Definition recall (positives tp : nat) : Q := (QofN tp / QofN positives)%Q.

(** Modelled from the spec: the area under the precision-recall curve of
    [util.compute_ap], which is not among the sources: the sum over the
    thresholds of the gain in recall times the precision there. *)
Fixpoint pr_area (positives prev_tp : nat) (points : list (nat * nat)) : Q :=
  match points with
  | [] => 0%Q
  | (tp, fp) :: rest =>
      ((recall positives tp - recall positives prev_tp) * precision tp fp
       + pr_area positives tp rest)%Q
  end.

(** Modelled from the spec: the average precision of one class, as
    [util.compute_ap], which is not among the sources, computes it.  A class
    without a positive gets 0. *)
Definition average_precision (l : list example) : Q :=
  let positives := List.length (filter is_positive l) in
  pr_area positives 0 (pr_sweep (rank l) 0 0).

Definition column {A : Type} (d : A) (cid : nat) (m : list (list A))
  : list A :=
  map (fun row => nth cid row d) m.

(** Modelled from the spec: the weight filter of [util.compute_ap], which
    is not among the sources: the examples of class [cid], restricted to
    those whose weight for the class is not zero. *)
Definition class_examples (cid : nat) (gt : list (list Z))
    (pred : list (list Q)) (valid : list (list Z)) : list example :=
  map (fun t => (snd (fst t), fst (fst t)))
      (filter (fun t => negb (snd t =? 0)%Z)
              (combine (combine (column 0%Z cid gt) (column 0%Q cid pred))
                       (column 0%Z cid valid))).

(** Modelled from the spec: [util.compute_ap(gt, pred, valid,
    average=None)], which is not among the sources: the per-class average
    precisions. *)
Definition compute_ap (gt : list (list Z)) (pred : list (list Q))
    (valid : list (list Z)) : list Q :=
  let nclasses := List.length (hd [] gt) in
  map (fun cid => average_precision (class_examples cid gt pred valid))
      (seq 0 nclasses).

(** [np.mean] of the per-class values. *)
Definition mean (l : list Q) : Q :=
  (fold_right Qplus 0 l / QofN (List.length l))%Q.

(** The sanity baseline of [main]:
    [util.compute_ap(test_labels, test_labels, test_weights)]. *)
Definition gt_AP (test_labels test_weights : list (list Z)) : list Q :=
  compute_ap test_labels (map (map inject_Z) test_labels) test_weights.

End AP.

(** ** Notions used in the statements *)

Section Statements.
Context {T : Type} {NT : Num T}.

(** [l * x + (1 - l) * y], entry by entry: the convex combination of two
    examples with coefficient [l]. *)
Definition mix (r : nat) (l : T) (x y : tensor T r) : tensor T r :=
  tmap2 r nadd (tmap r (nmul l) x) (tmap r (nmul (nsub nunit l)) y).

(** Row [i] of the result is [mix lam_i a_i b_i]. *)
Definition interpolate (r : nat) (lam : list T) (a b : tensor T (S r))
  : tensor T (S r) :=
  map (fun p => mix r (fst p) (fst (snd p)) (snd (snd p)))
      (combine lam (combine a b)).

End Statements.

Arguments mix {T NT} r l x y.
Arguments interpolate {T NT} r lam a b.

(** ** A scripted random source *)

(** A generator that replays a script of draws: the next Beta sample and
    the next permutation are read off two queues.  An entry that is not a
    sample of the size asked for (or not a permutation) is replaced by a
    constant sample (by the identity). *)
Record Script (T : Type) : Type := {
  beta_draws : list (list T);
  perm_draws : list (list nat)
}.

Definition is_permutation (l : list nat) (n : nat) : bool :=
  (length l =? n) && forallb (fun i => existsb (Nat.eqb i) l) (seq 0 n).

Definition scripted_beta {T : Type} {NT : Num T} (a b : T) (n : nat)
    (g : Script T) : list T * Script T :=
  match beta_draws g with
  | [] => (repeat (ndiv (of_Z 1) (of_Z 2)) n, g)
  | d :: rest =>
      (if length d =? n then d else repeat (ndiv (of_Z 1) (of_Z 2)) n,
       {| beta_draws := rest; perm_draws := perm_draws g |})
  end.

Definition scripted_permutation {T : Type} (n : nat) (g : Script T)
  : list nat * Script T :=
  match perm_draws g with
  | [] => (seq 0 n, g)
  | d :: rest =>
      (if is_permutation d n then d else seq 0 n,
       {| beta_draws := beta_draws g; perm_draws := rest |})
  end.

#[export] Instance ScriptedSource {T : Type} {NT : Num T}
  : RandomSource T (Script T).
Proof.
  refine {| random_beta := scripted_beta;
            random_permutation := scripted_permutation |}.
  - intros a b n g. unfold scripted_beta.
    destruct (beta_draws g) as [|d rest]; simpl.
    + apply repeat_length.
    + destruct (length d =? n) eqn:E.
      * now apply Nat.eqb_eq.
      * apply repeat_length.
  - intros n g. unfold scripted_permutation.
    destruct (perm_draws g) as [|d rest]; simpl; [reflexivity|].
    destruct (is_permutation d n) eqn:E; [|reflexivity].
    unfold is_permutation in E. apply andb_true_iff in E as [El Ei].
    apply Nat.eqb_eq in El. rewrite forallb_forall in Ei.
    symmetry. apply NoDup_Permutation_bis.
    + apply seq_NoDup.
    + rewrite length_seq. lia.
    + intros i Hi. apply Ei in Hi. apply existsb_exists in Hi.
      destruct Hi as [j [Hj Eq]]. apply Nat.eqb_eq in Eq. now subst.
Defined.

(** ** The mixed batch as the data model words it *)

Section TwoPermutations.
Context {T G : Type} {NT : Num T} {RS : RandomSource T G}.

Local Open Scope rand_scope.

(** The reading of the data model: "interpolating two independently-drawn
    permutations of a batch with a per-example scalar drawn from a Beta
    distribution".  Both operands are gathered along a permutation of their
    own. *)
Definition mixup_two_permutations (images : tensor T 4)
    (labels l_weights : tensor T 2) (alpha : T) (batch_size : nat)
  : Rand G (tensor T 4 * tensor T 2 * tensor T 2) :=
  weights <- draw (random_beta alpha alpha batch_size) ;;
  ordering1 <- draw (random_permutation batch_size) ;;
  ordering2 <- draw (random_permutation batch_size) ;;
  images1 <- lift (tf_gather images ordering1) ;;
  images2 <- lift (tf_gather images ordering2) ;;
  labels1 <- lift (tf_gather labels ordering1) ;;
  labels2 <- lift (tf_gather labels ordering2) ;;
  ret (interpolate 3 weights images1 images2,
       interpolate 1 weights labels1 labels2,
       l_weights).

End TwoPermutations.

(** ** What the evaluator accumulates *)

Section EvaluatorStatements.
Context {T : Type} {NT : Num T} {ET : Elementary T}.

(** The logits of a batch under [test]: the forward pass with
    [training=False]. *)
Definition batch_logits (model : tensor T 4 -> bool -> tensor T 2)
    (b : batch (T := T)) : tensor T 2 :=
  model (fst (fst b)) false.

(** The loss [test] computes for a batch. *)
Definition batch_loss (model : tensor T 4 -> bool -> tensor T 2)
    (b : batch (T := T)) : option T :=
  sigmoid_cross_entropy (tmap 2 of_Z (snd (fst b))) (batch_logits model b)
                        (tmap 2 of_Z (snd b)).

(** The predictions [test] compares with the labels. *)
Definition batch_prediction (model : tensor T 4 -> bool -> tensor T 2)
    (b : batch (T := T)) : tensor Z 2 :=
  tmap 2 cast_int32 (tmap 2 tf_round (tmap 2 sigmoid (batch_logits model b))).

(** The number of label entries of a batch, and the number of them the
    prediction agrees with. *)
Definition batch_entries (b : batch (T := T)) : nat :=
  length (flatten 2 (snd (fst b))).

Definition batch_matches (model : tensor T 4 -> bool -> tensor T 2)
    (b : batch (T := T)) : nat :=
  length (filter (fun p => Z.eqb (fst p) (snd p))
                 (combine (flatten 2 (batch_prediction model b))
                          (flatten 2 (snd (fst b))))).

(** A batch the evaluator can score: labels, weights and logits of one
    shape, with [C] classes. *)
Definition evaluable (model : tensor T 4 -> bool -> tensor T 2) (C : nat)
    (b : batch (T := T)) : Prop :=
  exists N,
    has_shape 2 [N; C] (snd (fst b)) /\
    has_shape 2 [N; C] (snd b) /\
    has_shape 2 [N; C] (batch_logits model b).

(** The loss of the whole dataset taken as one batch: the labels, the
    logits and the weights of the batches, stacked. *)
Definition pooled_loss (model : tensor T 4 -> bool -> tensor T 2)
    (dataset : list (batch (T := T))) : option T :=
  sigmoid_cross_entropy
    (tmap 2 of_Z (concat (map (fun b => snd (fst b)) dataset)))
    (concat (map (batch_logits model) dataset))
    (tmap 2 of_Z (concat (map (fun b => snd b) dataset))).

(** The dataset with every example in a batch of its own. *)
Definition unbatch (dataset : list (batch (T := T)))
  : list (batch (T := T)) :=
  flat_map (fun b =>
              map (fun e => ([fst (fst e)], [snd (fst e)], [snd e]))
                  (combine (combine (fst (fst b)) (snd (fst b))) (snd b)))
           dataset.

End EvaluatorStatements.

(** The sum of a list of reals. *)
Definition Rsum (l : list R) : R := fold_right Rplus 0%R l.

(** The entries of a batch that enter its loss: the cross-entropy of each
    label entry and its logit, with the weight of the entry. *)
Definition loss_terms (labels : tensor Z 2) (logits : tensor R 2)
    (weights : tensor Z 2) : list (R * Z) :=
  map (fun e => (sigmoid_cross_entropy_with_logits
                   (IZR (fst (fst e))) (snd (fst e)), snd e))
      (combine (combine (flatten 2 labels) (flatten 2 logits))
               (flatten 2 weights)).

Definition weighted_sum (terms : list (R * Z)) : R :=
  Rsum (map (fun t => (fst t * IZR (snd t))%R) terms).

Definition num_present (terms : list (R * Z)) : nat :=
  length (filter (fun t => negb (snd t =? 0)%Z) terms).

(** The weighted sum over the number of entries with a weight that is not
    zero; 0 when there is none. *)
Definition weighted_mean (terms : list (R * Z)) : R :=
  if num_present terms =? 0 then 0%R
  else (weighted_sum terms / INR (num_present terms))%R.

Definition batch_terms (model : tensor R 4 -> bool -> tensor R 2)
    (b : batch (T := R)) : list (R * Z) :=
  loss_terms (snd (fst b)) (batch_logits model b) (snd b).

(** A batch as the input pipeline delivers it: rectangular images and
    labels, and as many rows of labels and of weights as there are
    images. *)
Definition well_formed_batch {T : Type} (b : batch (T := T)) : Prop :=
  let '(images, labels, weights) := b in
  exists dims C,
    has_shape 4 (length images :: dims) images /\
    has_shape 2 [length images; C] labels /\
    length weights = length images.

(** What the batch updates leave alone and what they advance: after [n]
    updates the step counter is [n] further, and the learning rate of the
    optimizer and the checkpoints are as before. *)
Definition same_frame {T : Type} (st st' : TrainState (T := T)) (n : nat)
  : Prop :=
  global_step st' = n + global_step st /\
  learning_rate (optimizer st') = learning_rate (optimizer st) /\
  checkpoints st' = checkpoints st /\
  save_counter st' = save_counter st.

(** ** Sample batches *)

Module Sample.

(** The scenario of the specification: four examples, two classes, weights
    all ones, permutation [2,0,3,1] and coefficients 0.9, 0.1, 0.5, 0.7. *)
Definition images : tensor Q 4 :=
  [ [[[1; 2; 3]]]; [[[4; 5; 6]]]; [[[7; 8; 9]]]; [[[10; 11; 12]]] ]%Q.

Definition labels : tensor Q 2 := [[1; 0]; [0; 1]; [1; 1]; [0; 0]]%Q.

Definition weights : tensor Q 2 := [[1; 1]; [1; 1]; [1; 1]; [1; 1]]%Q.

Definition alpha : Q := (1 # 5)%Q.

Definition script : Script Q :=
  {| beta_draws := [[9 # 10; 1 # 10; 1 # 2; 7 # 10]%Q];
     perm_draws := [[2; 0; 3; 1]] |}.

(** Two examples and a script with two permutations in store. *)
Definition images2 : tensor Q 4 := [ [[[1]]]; [[[2]]] ]%Q.

Definition labels2 : tensor Q 2 := [[1]; [0]]%Q.

Definition weights2 : tensor Q 2 := [[1]; [1]]%Q.

Definition script2 : Script Q :=
  {| beta_draws := [[9 # 10; 9 # 10]%Q];
     perm_draws := [[1; 0]; [0; 1]] |}.

(** A batch over the reals and a script that draws the identity. *)
Definition imagesR : tensor R 4 :=
  [ [[[1; 2; 3]]]; [[[4; 5; 6]]] ]%R.

Definition labelsR : tensor R 2 := [[1; 0]; [0; 1]]%R.

Definition weightsR : tensor R 2 := [[1; 1]; [1; 0]]%R.

Definition scriptR : Script R :=
  {| beta_draws := [[3 / 10; 4 / 5]%R]; perm_draws := [[0; 1]] |}.

(** A training set of one-pixel images: 250 batches of one example in
    every epoch, the defaults of the command line, and collaborators that
    return a unit loss and unit gradients. *)
Definition tiny_batch : batch (T := Q) :=
  ([ [[[1%Q]]] ], [[1%Z]], [[1%Z]]).

Definition args : Args (T := Q) :=
  {| batch_size := 20; epochs := 60; lr := (1 # 1000)%Q; seed := 1;
     log_interval := 50; eval_interval := 250 |}.

Definition cal_grad (vars : list Q) (images : tensor Q 4)
    (labels weights : tensor Q 2) : Q * list Q :=
  (1%Q, map (fun _ => 1%Q) vars).

Definition eval_dataset_map (vars : list Q) : list Q * Q := ([], 0%Q).

Definition train_dataset (ep : nat) : list (batch (T := Q)) :=
  repeat tiny_batch 250.

Definition no_script : Script Q := {| beta_draws := []; perm_draws := [] |}.

(** A network that reads the logits of an example off its first pixel,
    one class per channel. *)
Definition pixel_model (images : tensor R 4) (training : bool) : tensor R 2 :=
  map (fun img : tensor R 3 => hd [] (hd [] img)) images.

(** Two batches of two examples and two classes.  One entry of the first
    batch has weight 0. *)
Definition masked_dataset : list (batch (T := R)) :=
  [ ([ [[[0; 0]]]; [[[1; 0]]] ]%R, [[0; 0]; [1; 0]]%Z, [[1; 1]; [1; 0]]%Z);
    ([ [[[0; 0]]]; [[[0; 0]]] ]%R, [[0; 0]; [0; 0]]%Z, [[1; 1]; [1; 1]]%Z) ].

(** Three examples of one class in batches of two: the last batch is the
    smaller one.  All weights are 1. *)
Definition ragged_dataset : list (batch (T := R)) :=
  [ ([ [[[0]]]; [[[0]]] ]%R, [[0]; [0]]%Z, [[1]; [1]]%Z);
    ([ [[[1]]] ]%R, [[1]]%Z, [[1]]%Z) ].

(** Four examples of one class in batches of two, all weights 1. *)
Definition even_dataset : list (batch (T := R)) :=
  [ ([ [[[0]]]; [[[1]]] ]%R, [[0]; [1]]%Z, [[1]; [1]]%Z);
    ([ [[[1]]]; [[[1]]] ]%R, [[1]; [0]]%Z, [[1]; [1]]%Z) ].

(** Three test examples of two classes; the second example is masked out
    for class 0. *)
Definition test_labels : list (list Z) := [[1; 0]; [0; 1]; [1; 0]]%Z.

Definition test_weights : list (list Z) := [[1; 1]; [0; 1]; [1; 1]]%Z.

End Sample.

(** ** Entrywise predicates *)

(** [tensor_Forall r P t]: every entry of [t] satisfies [P]. *)
Fixpoint tensor_Forall {A : Type} (r : nat) (P : A -> Prop)
  : tensor A r -> Prop :=
  match r return tensor A r -> Prop with
  | O => fun x => P x
  | S r' => fun t => Forall (tensor_Forall r' P) t
  end.

(** ** Further sample data *)

Module Sample2.

(** Coefficients that select the batch itself, and coefficients that
    select the permuted batch, with the permutation [1, 0]. *)
Definition script_ones : Script R :=
  {| beta_draws := [[1; 1]%R]; perm_draws := [[1; 0]] |}.

Definition script_zeros : Script R :=
  {| beta_draws := [[0; 0]%R]; perm_draws := [[1; 0]] |}.

(** Coefficients inside the unit interval, with the permutation [1, 0]. *)
Definition script_swap : Script R :=
  {| beta_draws := [[3 / 10; 4 / 5]%R]; perm_draws := [[1; 0]] |}.

(** One batch whose labels are 1 exactly where the logit is positive. *)
Definition perfect_dataset : list (batch (T := R)) :=
  [ ([ [[[0]]]; [[[1]]] ]%R, [[0]; [1]]%Z, [[1]; [1]]%Z) ].

End Sample2.

(** ** Well-formed summaries *)

(** A summary entry as the loop writes it: "Training Loss" and "LR" at the
    steps the logging interval divides, "LR" with the value of the schedule
    at that step, and "Test mAP" at the steps the evaluation interval
    divides. *)
Definition summary_ok {T : Type} {NT : Num T} (args : Args (T := T))
    (e : SummaryTag * nat * T) : Prop :=
  let '(tag, step, value) := e in
  match tag with
  | Training_Loss => (Z.of_nat step mod log_interval args = 0)%Z
  | LR => (Z.of_nat step mod log_interval args = 0)%Z /\
          value = decayed_lr args step
  | Test_mAP => (Z.of_nat step mod eval_interval args = 0)%Z
  end.

(** ** The input pipeline *)

From Stdlib Require Import Qround.
Close Scope Q_scope.

(** [tf.slice(input, begin, size)] along one axis: [size] is [None] for
    -1, "to the end"; a window that leaves the axis is an error. *)
Definition tf_slice {A : Type} (begin : nat) (size : option nat)
    (l : list A) : option (list A) :=
  match size with
  | None => if begin <=? length l then Some (skipn begin l) else None
  | Some n =>
      if begin + n <=? length l then Some (firstn n (skipn begin l))
      else None
  end.

(** [tf.slice] of an image, height by width by channels. *)
Definition slice3 {A : Type} (value : tensor A 3) (begin : nat * nat * nat)
    (size : option nat * option nat * option nat) : option (tensor A 3) :=
  let '(b_h, b_w, b_c) := begin in
  let '(s_h, s_w, s_c) := size in
  match tf_slice b_h s_h value with
  | None => None
  | Some rows =>
      traverse (fun row =>
                  match tf_slice b_w s_w row with
                  | None => None
                  | Some pixels => traverse (tf_slice b_c s_c) pixels
                  end)
               rows
  end.

(** [tf.shape] of an image held as nested lists: the lengths along the
    first row and its first pixel (0 where there is none). *)
Definition shape3 {A : Type} (value : tensor A 3) : nat * nat * nat :=
  (length value, length (hd [] value), length (hd [] (hd [] value))).

(** [tf.image.central_crop(image, central_fraction)]: the fraction must
    lie in (0, 1]; the fraction 1 returns the image; otherwise the margin
    [int((h - h * fraction) / 2)] is cut on either side of the height and
    of the width.  The fraction is a rational; the fraction of the script,
    0.875, is one that doubles hold exactly. *)
Definition central_crop {A : Type} (image : tensor A 3)
    (central_fraction : Q) : option (tensor A 3) :=
  if Qle_bool central_fraction 0 || negb (Qle_bool central_fraction 1)
  then None
  else if Qeq_bool central_fraction 1 then Some image
  else
    let '(img_h, img_w, _) := shape3 image in
    let margin (n : nat) : nat :=
      Z.to_nat (Qfloor ((inject_Z (Z.of_nat n)
                         - inject_Z (Z.of_nat n) * central_fraction) / 2)) in
    let bbox_h_start := margin img_h in
    let bbox_w_start := margin img_w in
    let bbox_h_size := img_h - bbox_h_start * 2 in
    let bbox_w_size := img_w - bbox_w_start * 2 in
    slice3 image (bbox_h_start, bbox_w_start, 0)
           (Some bbox_h_size, Some bbox_w_size, None).

(** [center_crop_test_data(x, y, z)]. *)
Definition center_crop_test_data {A B C : Type} (x : tensor A 3) (y : B)
    (z : C) : option (tensor A 3 * B * C) :=
  match central_crop x (7 # 8)%Q with
  | None => None
  | Some x' => Some (x', y, z)
  end.

(** The random operations of TensorFlow the augmentation draws from:
    [tf.random_uniform] of an [int32] below [int32.max], and the test
    [tf.random_uniform([], 0, 1.0) < 0.5]. *)
Class TFRandom (G : Type) := {
  random_uniform_int : G -> nat * G;
  random_uniform_less_half : G -> bool * G
}.

Section Augmentation.
Context {A G : Type} {TR : TFRandom G}.

Local Open Scope rand_scope.

(** [tf.image.random_crop(value, size)]: the value must be at least as
    large as the size along every axis; the offset along an axis is a
    uniform integer modulo the number of positions. *)
Definition random_crop (value : tensor A 3) (size : nat * nat * nat)
  : Rand G (tensor A 3) :=
  let '(h, w, c) := shape3 value in
  let '(s_h, s_w, s_c) := size in
  if (s_h <=? h) && (s_w <=? w) && (s_c <=? c)
  then
    u_h <- draw random_uniform_int ;;
    u_w <- draw random_uniform_int ;;
    u_c <- draw random_uniform_int ;;
    let offset := (u_h mod (h - s_h + 1), u_w mod (w - s_w + 1),
                   u_c mod (c - s_c + 1)) in
    lift (slice3 value offset (Some s_h, Some s_w, Some s_c))
  else lift None.

(** [tf.image.random_flip_left_right(image)]: the image reversed along
    its width when the draw says so. *)
Definition random_flip_left_right (image : tensor A 3)
  : Rand G (tensor A 3) :=
  mirror_cond <- draw random_uniform_less_half ;;
  ret (if mirror_cond then map (@rev (tensor A 1)) image else image).

(** [augment_train_data(x, y, z)]. *)
Definition augment_train_data {B C : Type} (x : tensor A 3) (y : B) (z : C)
  : Rand G (tensor A 3 * B * C) :=
  x <- random_crop x (224, 224, 3) ;;
  x <- random_flip_left_right x ;;
  ret (x, y, z).

End Augmentation.

(** [Dataset.batch(batch_size)] on the elements of a dataset: the elements
    are taken in order into the current batch, a full batch is emitted, and
    what is left at the end is emitted as a smaller batch.  [cur] is the
    current batch, latest element first. *)
Fixpoint batch_elements {A : Type} (size : nat) (cur : list A) (l : list A)
  : list (list A) :=
  match l with
  | [] => match cur with
          | [] => []
          | _ => [rev cur]
          end
  | x :: l' =>
      if length (x :: cur) =? size
      then rev (x :: cur) :: batch_elements size [] l'
      else batch_elements size (x :: cur) l'
  end.

(** A batch size that is not positive is an error. *)
Definition dataset_batch {A : Type} (batch_size : Z) (l : list A)
  : option (list (list A)) :=
  if (batch_size <=? 0)%Z then None
  else Some (batch_elements (Z.to_nat batch_size) [] l).

(** The pixel of an image at row [i] and column [j]. *)
Definition pixel {A : Type} (image : tensor A 3) (i j : nat)
  : option (tensor A 1) :=
  match nth_error image i with
  | Some row => nth_error row j
  | None => None
  end.

(** The window of [s_h] rows and [s_w] columns of an image that starts at
    row [o_h] and column [o_w], with [f] applied to every pixel. *)
Definition window {A : Type} (f : tensor A 1 -> tensor A 1)
    (image : tensor A 3) (o_h o_w s_h s_w : nat) : tensor A 3 :=
  map (fun row => map f (firstn s_w (skipn o_w row)))
      (firstn s_h (skipn o_h image)).

(** ** The shapes through the network *)

(** The length of an axis after a convolution or a pooling window of
    length [k] and stride [stride].  With padding "valid" the length is
    given where the window fits; an axis shorter than the window is left
    out ([None]), no property is stated of it. *)
Definition window_output_length (input k stride : nat) (p : Padding)
  : option nat :=
  match p with
  | valid => if input <? k then None else Some ((input - k) / stride + 1)
  | same => Some ((input + stride - 1) / stride)
  end.

(** The output shapes of the layers, on a shape (batch, height, width,
    channels) or (batch, features). *)
Definition Conv2D_shape (l : Conv2D) (s : list nat) : option (list nat) :=
  match s with
  | [n; h; w; _] =>
      match window_output_length h (fst (kernel_size l)) (strides l)
                                 (padding l),
            window_output_length w (snd (kernel_size l)) (strides l)
                                 (padding l) with
      | Some h', Some w' => Some [n; h'; w'; filters l]
      | _, _ => None
      end
  | _ => None
  end.

Definition MaxPool2D_shape (l : MaxPool2D) (s : list nat)
  : option (list nat) :=
  match s with
  | [n; h; w; c] =>
      match window_output_length h (fst (pool_size l)) (pool_strides l) valid,
            window_output_length w (snd (pool_size l)) (pool_strides l) valid
      with
      | Some h', Some w' => Some [n; h'; w'; c]
      | _, _ => None
      end
  | _ => None
  end.

Definition Flatten_shape (s : list nat) : option (list nat) :=
  match s with
  | n :: rest => Some [n; fold_right Nat.mul 1 rest]
  | [] => None
  end.

Definition Dense_shape (l : Dense) (s : list nat) : option (list nat) :=
  match s with
  | [n; _] => Some [n; units l]
  | _ => None
  end.

Definition and_then {A B : Type} (o : option A) (f : A -> option B)
  : option B :=
  match o with
  | Some x => f x
  | None => None
  end.

(** The shapes [CaffeNet.call] goes through, layer by layer in the order
    of [call]: the shape that enters [flat] and the shape of the logits.
    Dropout keeps the shape. *)
Definition call_shapes (self : CaffeNet) (inputs : list nat)
  : option (list nat * list nat) :=
  and_then (Conv2D_shape (conv1 self) inputs) (fun x =>
  and_then (MaxPool2D_shape (pool1 self) x) (fun x =>
  and_then (Conv2D_shape (conv2 self) x) (fun x =>
  and_then (MaxPool2D_shape (pool2 self) x) (fun x =>
  and_then (Conv2D_shape (conv3 self) x) (fun x =>
  and_then (Conv2D_shape (conv4 self) x) (fun x =>
  and_then (Conv2D_shape (conv5 self) x) (fun x =>
  and_then (MaxPool2D_shape (pool3 self) x) (fun x =>
  and_then (Flatten_shape x) (fun flat_x =>
  and_then (Dense_shape (dense1 self) flat_x) (fun out =>
  and_then (Dense_shape (dense2 self) out) (fun out =>
  and_then (Dense_shape (dense3 self) out) (fun out =>
  Some (x, out))))))))))))).

(** ** A scripted source for the augmentation *)

(** The draws of the augmentation, replayed from two queues (0 and "no
    flip" when a queue is empty). *)
Record TFScript : Type := {
  int_draws : list nat;
  flip_draws : list bool
}.

#[export] Instance ScriptedTFRandom : TFRandom TFScript := {
  random_uniform_int g :=
    match int_draws g with
    | [] => (0, g)
    | n :: rest => (n, {| int_draws := rest; flip_draws := flip_draws g |})
    end;
  random_uniform_less_half g :=
    match flip_draws g with
    | [] => (false, g)
    | b :: rest => (b, {| int_draws := int_draws g; flip_draws := rest |})
    end
}.

(** * Properties *)

Unset Implicit Arguments.

(** ** Lists and options *)

Lemma sequence_Some_Forall2 {A : Type} (l : list (option A)) (l' : list A) :
  sequence l = Some l' <-> Forall2 (fun o y => o = Some y) l l'.
Proof.
  revert l'. induction l as [|o l IH]; intros l'; simpl.
  - split.
    + intros H. injection H as <-. constructor.
    + intros H. inversion H. reflexivity.
  - destruct o as [x|].
    + destruct (sequence l) as [xs|] eqn:E.
      * split.
        -- intros H. injection H as <-. constructor; [reflexivity|].
           now apply IH.
        -- intros H. inversion H as [|? y ? ys Hy Hys]; subst.
           injection Hy as <-. apply IH in Hys. now injection Hys as <-.
      * split; [discriminate|].
        intros H. inversion H as [|? y ? ys Hy Hys]; subst.
        apply IH in Hys. discriminate.
    + split; [discriminate|]. intros H. inversion H; discriminate.
Qed.

Lemma traverse_Some_Forall2 {A B : Type} (f : A -> option B) l l' :
  traverse f l = Some l' <-> Forall2 (fun x y => f x = Some y) l l'.
Proof.
  unfold traverse. rewrite sequence_Some_Forall2.
  split; intros H.
  - remember (map f l) as fl eqn:E. revert l E.
    induction H; intros [|a l0] E; simpl in E; try discriminate.
    + constructor.
    + injection E as -> ->. constructor; auto.
  - induction H; simpl; constructor; auto.
Qed.

Lemma traverse_map_Some {A B : Type} (f : A -> option B) (h : A -> B) l :
  (forall x, In x l -> f x = Some (h x)) ->
  traverse f l = Some (map h l).
Proof.
  intros H. apply traverse_Some_Forall2.
  induction l as [|a l IH]; simpl; constructor.
  - apply H. now left.
  - apply IH. intros x Hx. apply H. now right.
Qed.

Lemma combine_same_map {A B C : Type} (f : A -> B) (h : A -> C) l :
  combine (map f l) (map h l) = map (fun x => (f x, h x)) l.
Proof. induction l; simpl; congruence. Qed.

Lemma map_nth_seq {A : Type} (d : A) (l : list A) :
  map (fun j => nth j l d) (seq 0 (length l)) = l.
Proof.
  induction l as [|a l IH]; simpl; [reflexivity|].
  f_equal. rewrite <- seq_shift, map_map. exact IH.
Qed.

(** ** Gathering along a permutation *)

Lemma tf_gather_nth {A : Type} (d : A) (l : list A) (ord : list nat) :
  Forall (fun j => j < length l) ord ->
  tf_gather l ord = Some (map (fun j => nth j l d) ord).
Proof.
  intros H. unfold tf_gather. apply traverse_map_Some.
  intros j Hj. rewrite Forall_forall in H.
  apply nth_error_nth'. now apply H.
Qed.

Lemma permutation_in_range (ord : list nat) (n : nat) :
  Permutation ord (seq 0 n) -> Forall (fun j => j < n) ord.
Proof.
  intros HP. apply Forall_forall. intros j Hj.
  apply (Permutation_in _ HP) in Hj. apply in_seq in Hj. lia.
Qed.

(** Gathering a list along a permutation of its indices succeeds and
    returns a rearrangement of the list. *)
Lemma tf_gather_permutation {A : Type} (l : list A) (ord : list nat) :
  Permutation ord (seq 0 (length l)) ->
  exists l', tf_gather l ord = Some l' /\
             Permutation l' l /\
             length l' = length l /\
             Forall2 (fun j x => nth_error l j = Some x) ord l'.
Proof.
  intros HP.
  destruct l as [|d l0] eqn:El.
  - simpl in HP. apply Permutation_sym, Permutation_nil in HP. subst ord.
    exists []. repeat split; constructor.
  - rewrite <- El in *. clear El l0.
    pose proof (permutation_in_range _ _ HP) as Hr.
    exists (map (fun j => nth j l d) ord).
    split; [now apply tf_gather_nth|].
    split.
    + eapply Permutation_trans; [apply Permutation_map; exact HP|].
      now rewrite map_nth_seq.
    + split.
      * rewrite length_map. rewrite (Permutation_length HP). apply length_seq.
      * clear HP. induction Hr; simpl; constructor; auto.
        now apply nth_error_nth'.
Qed.

(** ** Shapes and broadcasting *)

Lemma has_shape_tmap {A B : Type} (f : A -> B) r :
  forall s (t : tensor A r), has_shape r s t -> has_shape r s (tmap r f t).
Proof.
  induction r as [|r IH]; intros s t H; simpl in *; [exact H|].
  destruct s as [|n s]; [contradiction|].
  destruct H as [Hl Hf]. split; [now rewrite length_map|].
  apply Forall_map. eapply Forall_impl; [|exact Hf]. intros a. apply IH.
Qed.

Lemma has_shape_tmap2 {A B C : Type} (f : A -> B -> C) r :
  forall s (a : tensor A r) (b : tensor B r),
    has_shape r s a -> has_shape r s b -> has_shape r s (tmap2 r f a b).
Proof.
  induction r as [|r IH]; intros s a b Ha Hb; simpl in *; [exact Ha|].
  destruct s as [|n s]; [contradiction|].
  destruct Ha as [Hla Hfa], Hb as [Hlb Hfb]. split.
  - rewrite length_map, length_combine, Hla, Hlb. apply Nat.min_id.
  - apply Forall_map. apply Forall_forall. intros [x y] Hp. simpl.
    rewrite Forall_forall in Hfa, Hfb.
    apply IH; [apply Hfa | apply Hfb].
    + eapply in_combine_l; eauto.
    + eapply in_combine_r; eauto.
Qed.

(** On two tensors of one shape the broadcasting operator is the
    entrywise one. *)
Lemma bcast2_same_shape {A B C : Type} (f : A -> B -> C) r :
  forall s (a : tensor A r) (b : tensor B r),
    has_shape r s a -> has_shape r s b ->
    bcast2 f r a b = Some (tmap2 r f a b).
Proof.
  induction r as [|r IH]; intros s a b Ha Hb; simpl in *; [reflexivity|].
  destruct s as [|n s]; [contradiction|].
  destruct Ha as [Hla Hfa], Hb as [Hlb Hfb].
  rewrite Hla, Hlb, Nat.eqb_refl.
  apply traverse_map_Some. intros [x y] Hp. simpl.
  rewrite Forall_forall in Hfa, Hfb.
  apply (IH s); [apply Hfa | apply Hfb].
  - eapply in_combine_l; eauto.
  - eapply in_combine_r; eauto.
Qed.

Lemma tmap_single {A B : Type} (f : A -> B) r (w : A) :
  tmap r f (single r w) = single r (f w).
Proof. induction r as [|r IH]; simpl; [reflexivity|]. now rewrite IH. Qed.

(** A tensor whose dimensions are all 1 broadcasts over any tensor. *)
Lemma bcast2_single {A B C : Type} (f : A -> B -> C) r (w : A) :
  forall t : tensor B r, bcast2 f r (single r w) t = Some (tmap r (f w) t).
Proof.
  induction r as [|r IH]; intros t; simpl; [reflexivity|].
  assert (E : traverse (fun y => bcast2 f r (single r w) y) t
              = Some (map (tmap r (f w)) t))
    by (apply traverse_map_Some; intros; apply IH).
  destruct (length t) as [|[|n]] eqn:El; simpl; try exact E.
  destruct t as [|y [|z t]]; simpl in El; try discriminate.
  simpl. unfold traverse. simpl. now rewrite IH.
Qed.

(** A column of coefficients, reshaped to [(N, 1, ..., 1)], scales the rows
    of a tensor with [N] rows. *)
Lemma bcast2_rows {A B C : Type} (f : A -> B -> C) r (lam : list A) :
  forall t : tensor B (S r),
    length lam = length t ->
    bcast2 f (S r) (map (single r) lam) t
    = Some (map (fun p => tmap r (f (fst p)) (snd p)) (combine lam t)).
Proof.
  intros t Hl. simpl. rewrite length_map, Hl, Nat.eqb_refl.
  clear Hl. apply traverse_Some_Forall2.
  revert t. induction lam as [|w lam IH]; intros [|y t]; simpl;
    constructor; auto.
  simpl. apply bcast2_single.
Qed.

(** ** mixup *)

Section MixupProperties.
Context {T G : Type} {NT : Num T} {RS : RandomSource T G}.

Lemma has_shape_scaled_rows (f : T -> T -> T) r n s (lam : list T)
    (t : tensor T (S r)) :
  length lam = n -> has_shape (S r) (n :: s) t ->
  has_shape (S r) (n :: s)
    (map (fun p => tmap r (f (fst p)) (snd p)) (combine lam t)).
Proof.
  intros Hl [Ht Hf]. split.
  - rewrite length_map, length_combine, Hl, Ht. apply Nat.min_id.
  - apply Forall_map, Forall_forall. intros [w x] Hp. simpl.
    apply has_shape_tmap. rewrite Forall_forall in Hf. apply Hf.
    eapply in_combine_r; eauto.
Qed.

Lemma interpolate_rows r (lam : list T) :
  forall a b : tensor T (S r),
    map (fun p => tmap2 r nadd (fst p) (snd p))
        (combine
           (map (fun p => tmap r (nmul (fst p)) (snd p)) (combine lam a))
           (map (fun p => tmap r (nmul (fst p)) (snd p))
                (combine (map (nsub nunit) lam) b)))
    = interpolate r lam a b.
Proof.
  unfold interpolate.
  induction lam as [|w lam IH]; intros [|x a] [|y b]; simpl; try reflexivity.
  f_equal. apply IH.
Qed.

Lemma nth_error_interpolate r (lam : list T) :
  forall (a b : tensor T (S r)) i l x y,
    nth_error lam i = Some l -> nth_error a i = Some x ->
    nth_error b i = Some y ->
    nth_error (interpolate r lam a b) i = Some (mix r l x y).
Proof.
  unfold interpolate.
  induction lam as [|w lam IH]; intros [|x0 a] [|y0 b] [|i] l x y Hl Hx Hy;
    simpl in *; try discriminate.
  - now injection Hl as <-; injection Hx as <-; injection Hy as <-.
  - now apply IH.
Qed.

Lemma length_interpolate r (lam : list T) (a b : tensor T (S r)) n :
  length lam = n -> length a = n -> length b = n ->
  length (interpolate r lam a b) = n.
Proof.
  intros Hl Ha Hb. unfold interpolate.
  rewrite length_map, !length_combine, Hl, Ha, Hb, !Nat.min_id.
  reflexivity.
Qed.

Lemma has_shape_interpolate r n s (lam : list T) (a b : tensor T (S r)) :
  length lam = n -> has_shape (S r) (n :: s) a ->
  has_shape (S r) (n :: s) b ->
  has_shape (S r) (n :: s) (interpolate r lam a b).
Proof.
  intros Hl [Ha Hfa] [Hb Hfb]. split.
  - now apply length_interpolate.
  - unfold interpolate. apply Forall_map, Forall_forall.
    intros [w [x y]] Hp. simpl. unfold mix.
    rewrite Forall_forall in Hfa, Hfb.
    pose proof (in_combine_r _ _ _ _ Hp) as Hxy.
    apply has_shape_tmap2; apply has_shape_tmap.
    + apply Hfa. eapply in_combine_l; eauto.
    + apply Hfb. eapply in_combine_r; eauto.
Qed.

(** The mixing of one array of the batch: scaling the rows by the
    coefficients, scaling the gathered rows by their complements and adding
    the two succeeds and yields [interpolate]. *)
Lemma mix_array r n s (lam : list T) (a a_new : tensor T (S r)) :
  length lam = n ->
  has_shape (S r) (n :: s) a -> has_shape (S r) (n :: s) a_new ->
  exists l_ r_,
    bcast2 nmul (S r) (map (single r) lam) a = Some l_ /\
    bcast2 nmul (S r) (tmap (S r) (nsub nunit) (map (single r) lam)) a_new
      = Some r_ /\
    bcast2 nadd (S r) l_ r_ = Some (interpolate r lam a a_new).
Proof.
  intros Hl Ha Hn.
  pose proof Ha as [Hla _]. pose proof Hn as [Hln _].
  eexists. eexists. split; [|split].
  - apply bcast2_rows. now rewrite Hl, Hla.
  - change (tmap (S r) (nsub nunit) (map (single r) lam))
      with (map (tmap r (nsub nunit)) (map (single r) lam)).
    rewrite map_map.
    rewrite (map_ext _ (fun w => single r (nsub nunit w)))
      by (intros; apply tmap_single).
    rewrite <- (map_map (nsub nunit) (single r)).
    apply bcast2_rows. now rewrite length_map, Hl, Hln.
  - rewrite (bcast2_same_shape nadd (S r) (n :: s)).
    + f_equal. apply interpolate_rows.
    + now apply has_shape_scaled_rows.
    + apply has_shape_scaled_rows; [now rewrite length_map|exact Hn].
Qed.

Lemma has_shape_gathered {A : Type} r n s (a a_new : tensor A (S r)) :
  has_shape (S r) (n :: s) a -> Permutation a_new a ->
  has_shape (S r) (n :: s) a_new.
Proof.
  intros [Hl Hf] HP. split.
  - now rewrite (Permutation_length HP).
  - eapply Permutation_Forall; [symmetry; exact HP | exact Hf].
Qed.

(** What a run of [mixup] on a well-shaped batch returns, in terms of the
    two draws it makes. *)
Lemma mixup_run (images : tensor T 4) (labels l_weights : tensor T 2)
    (alpha : T) (g : G) (dims : list nat) (C : nat) :
  let N := length images in
  let draw1 := random_beta alpha alpha N g in
  let draw2 := random_permutation N (snd draw1) in
  has_shape 4 (N :: dims) images ->
  has_shape 2 [N; C] labels ->
  length l_weights = N ->
  exists images_new labels_new,
    tf_gather images (fst draw2) = Some images_new /\
    tf_gather labels (fst draw2) = Some labels_new /\
    mixup images labels l_weights alpha N g
    = Some (interpolate 3 (fst draw1) images images_new,
            interpolate 1 (fst draw1) labels labels_new,
            l_weights, snd draw2).
Proof.
  intros N draw1 draw2 Him Hlb Hw.
  pose proof (random_beta_length alpha alpha N g) as Hlam.
  pose proof (random_permutation_perm N (snd draw1)) as Hpi.
  fold draw1 in Hlam. fold draw2 in Hpi.
  pose proof Hlb as [HlN _].
  destruct (tf_gather_permutation images (fst draw2) Hpi)
    as (images_new & Egi & Pi & _ & _).
  destruct (tf_gather_permutation labels (fst draw2))
    as (labels_new & Egl & Pl & _ & _); [now rewrite HlN|].
  destruct (tf_gather_permutation l_weights (fst draw2))
    as (l_weights_new & Egw & _); [now rewrite Hw|].
  destruct (mix_array 3 N dims (fst draw1) images images_new Hlam Him)
    as (il & ir & Eil & Eir & Ei); [now apply has_shape_gathered with images|].
  destruct (mix_array 1 N [C] (fst draw1) labels labels_new Hlam Hlb)
    as (ll & lr_ & Ell & Elr & El); [now apply has_shape_gathered with labels|].
  exists images_new, labels_new. split; [exact Egi|]. split; [exact Egl|].
  unfold mixup, bind, draw, lift, ret, reshape_col.
  fold draw1. destruct draw1 as [lam g1] eqn:E1. simpl in *.
  rewrite Hlam, Nat.eqb_refl.
  fold draw2. destruct draw2 as [pi g2] eqn:E2. simpl in *.
  rewrite Egi, Egl, Egw. unfold N.
  rewrite Eil. 
  change (map (map (map (map (nsub nunit)))) (map (single 3) lam))
    with (tmap 4 (nsub nunit) (map (single 3) lam)).
  rewrite Eir, Ei, Ell.
  change (map (map (nsub nunit)) (map (single 1) lam))
    with (tmap 2 (nsub nunit) (map (single 1) lam)).
  now rewrite Elr, El.
Qed.

End MixupProperties.

Section MixupTheorems.
Context {T G : Type} {NT : Num T} {RS : RandomSource T G}.

(** C1.  On a batch of [N] examples [mixup] draws [N] coefficients with
    [np.random.beta(alpha, alpha, N)] and then one permutation with
    [np.random.permutation(N)], and example [i] of the result is
    [lam_i * image_i + (1 - lam_i) * image_(pi i)] with label
    [lam_i * label_i + (1 - lam_i) * label_(pi i)]: the same coefficient and
    the same permutation for the image and for the label. *)
Theorem mixup_interpolates_each_example
    (images : tensor T 4) (labels l_weights : tensor T 2)
    (alpha : T) (g : G) (dims : list nat) (C : nat) :
  let N := length images in
  let lam := fst (random_beta alpha alpha N g) in
  let pi := fst (random_permutation N (snd (random_beta alpha alpha N g))) in
  has_shape 4 (N :: dims) images ->
  has_shape 2 [N; C] labels ->
  length l_weights = N ->
  exists images' labels' weights' g',
    mixup images labels l_weights alpha N g
    = Some (images', labels', weights', g') /\
    length lam = N /\ Permutation pi (seq 0 N) /\
    length images' = N /\ length labels' = N /\
    forall i l j x x_pi y y_pi,
      nth_error lam i = Some l -> nth_error pi i = Some j ->
      nth_error images i = Some x -> nth_error images j = Some x_pi ->
      nth_error labels i = Some y -> nth_error labels j = Some y_pi ->
      nth_error images' i = Some (mix 3 l x x_pi) /\
      nth_error labels' i = Some (mix 1 l y y_pi).
Proof.
  intros N lam pi Him Hlb Hw.
  pose proof (random_beta_length alpha alpha N g) as Hlam.
  pose proof (random_permutation_perm N
                (snd (random_beta alpha alpha N g))) as Hpi.
  fold lam in Hlam. fold pi in Hpi.
  pose proof Him as [HiN _]. pose proof Hlb as [HlN _].
  destruct (mixup_run images labels l_weights alpha g dims C Him Hlb Hw)
    as (images_new & labels_new & Egi & Egl & Run).
  fold N lam pi in Egi, Egl, Run.
  destruct (tf_gather_permutation images pi Hpi)
    as (i2 & Egi' & _ & Hli & Fi).
  destruct (tf_gather_permutation labels pi)
    as (l2 & Egl' & _ & Hll & Fl); [now rewrite HlN|].
  rewrite Egi in Egi'. injection Egi' as <-.
  rewrite Egl in Egl'. injection Egl' as <-.
  do 4 eexists. split; [exact Run|].
  split; [exact Hlam|]. split; [exact Hpi|].
  split; [apply (length_interpolate 3); auto; congruence|].
  split; [apply (length_interpolate 1); auto; congruence|].
  intros i l j x x_pi y y_pi El Ej Ex Exp Ey Eyp. split.
  - apply (nth_error_interpolate 3); auto.
    clear - Fi Ej Exp. revert i Ej.
    induction Fi as [|j0 x0 ord l' H0 _ IH]; intros [|i] Ej;
      simpl in *; try discriminate.
    + injection Ej as ->. congruence.
    + now apply IH.
  - apply (nth_error_interpolate 1); auto.
    clear - Fl Ej Eyp. revert i Ej.
    induction Fl as [|j0 x0 ord l' H0 _ IH]; intros [|i] Ej;
      simpl in *; try discriminate.
    + injection Ej as ->. congruence.
    + now apply IH.
Qed.

(** C2.  The images and the labels [mixup] returns have the shape of the
    images and the labels it was given, and the weights it returns are the
    weights it was given, whatever [alpha], the coefficients and the
    permutation drawn. *)
Theorem mixup_preserves_shapes_and_weights
    (images : tensor T 4) (labels l_weights : tensor T 2)
    (alpha : T) (g : G) (dims : list nat) (C : nat) :
  let N := length images in
  has_shape 4 (N :: dims) images ->
  has_shape 2 [N; C] labels ->
  length l_weights = N ->
  exists images' labels' weights' g',
    mixup images labels l_weights alpha N g
    = Some (images', labels', weights', g') /\
    has_shape 4 (N :: dims) images' /\
    has_shape 2 [N; C] labels' /\
    weights' = l_weights.
Proof.
  intros N Him Hlb Hw.
  pose proof (random_beta_length alpha alpha N g) as Hlam.
  pose proof (random_permutation_perm N
                (snd (random_beta alpha alpha N g))) as Hpi.
  pose proof Hlb as [HlN _].
  destruct (mixup_run images labels l_weights alpha g dims C Him Hlb Hw)
    as (images_new & labels_new & Egi & Egl & Run).
  destruct (tf_gather_permutation images _ Hpi) as (i2 & Egi' & Pi & _).
  destruct (tf_gather_permutation labels
              (fst (random_permutation N (snd (random_beta alpha alpha N g)))))
    as (l2 & Egl' & Pl & _); [now rewrite HlN|].
  fold N in Egi, Egl, Egi'.
  rewrite Egi in Egi'. injection Egi' as <-.
  rewrite Egl in Egl'. injection Egl' as <-.
  do 4 eexists. split; [exact Run|].
  split; [|split; [|reflexivity]].
  - apply (has_shape_interpolate 3); auto.
    now apply has_shape_gathered with images.
  - apply (has_shape_interpolate 1); auto.
    now apply has_shape_gathered with labels.
Qed.

(** C5, as the code has it.  The mixed batch interpolates the batch in the
    order it was given with one rearrangement of it: [mixup] draws the
    per-example coefficients and a single permutation, images and labels are
    gathered along that one permutation, and the first operand of the convex
    combination is the batch itself. *)
Theorem mixup_interpolates_batch_with_one_permutation
    (images : tensor T 4) (labels l_weights : tensor T 2)
    (alpha : T) (g : G) (dims : list nat) (C : nat) :
  let N := length images in
  let draw1 := random_beta alpha alpha N g in
  let draw2 := random_permutation N (snd draw1) in
  has_shape 4 (N :: dims) images ->
  has_shape 2 [N; C] labels ->
  length l_weights = N ->
  exists images_new labels_new,
    tf_gather images (fst draw2) = Some images_new /\
    tf_gather labels (fst draw2) = Some labels_new /\
    Permutation images_new images /\
    Permutation labels_new labels /\
    mixup images labels l_weights alpha N g
    = Some (interpolate 3 (fst draw1) images images_new,
            interpolate 1 (fst draw1) labels labels_new,
            l_weights, snd draw2).
Proof.
  intros N draw1 draw2 Him Hlb Hw.
  pose proof (random_permutation_perm N (snd draw1)) as Hpi.
  fold draw2 in Hpi.
  pose proof Hlb as [HlN _].
  destruct (mixup_run images labels l_weights alpha g dims C Him Hlb Hw)
    as (images_new & labels_new & Egi & Egl & Run).
  fold N draw1 draw2 in Egi, Egl, Run.
  destruct (tf_gather_permutation images (fst draw2) Hpi)
    as (i2 & Egi' & Pi & _).
  destruct (tf_gather_permutation labels (fst draw2))
    as (l2 & Egl' & Pl & _); [now rewrite HlN|].
  rewrite Egi in Egi'. injection Egi' as <-.
  rewrite Egl in Egl'. injection Egl' as <-.
  exists images_new, labels_new. auto.
Qed.

End MixupTheorems.

Lemma mixup_interpolates_each_example_witness :
  exists images' labels' weights' g',
    mixup Sample.images Sample.labels Sample.weights Sample.alpha 4
          Sample.script
    = Some (images', labels', weights', g') /\
    length (fst (random_beta Sample.alpha Sample.alpha 4 Sample.script)) = 4 /\
    Permutation
      (fst (random_permutation 4
              (snd (random_beta Sample.alpha Sample.alpha 4 Sample.script))))
      (seq 0 4) /\
    length images' = 4 /\ length labels' = 4 /\
    forall i l j x x_pi y y_pi,
      nth_error (fst (random_beta Sample.alpha Sample.alpha 4 Sample.script)) i
      = Some l ->
      nth_error
        (fst (random_permutation 4
                (snd (random_beta Sample.alpha Sample.alpha 4 Sample.script))))
        i = Some j ->
      nth_error Sample.images i = Some x ->
      nth_error Sample.images j = Some x_pi ->
      nth_error Sample.labels i = Some y ->
      nth_error Sample.labels j = Some y_pi ->
      nth_error images' i = Some (mix 3 l x x_pi) /\
      nth_error labels' i = Some (mix 1 l y y_pi).
Proof.
  refine (mixup_interpolates_each_example
            Sample.images Sample.labels Sample.weights Sample.alpha
            Sample.script [1; 1; 3] 2 _ _ _).
  - cbn. repeat first [reflexivity | split | constructor].
  - cbn. repeat first [reflexivity | split | constructor].
  - reflexivity.
Defined.

Lemma mixup_preserves_shapes_and_weights_witness :
  exists images' labels' weights' g',
    mixup Sample.images Sample.labels Sample.weights Sample.alpha 4
          Sample.script
    = Some (images', labels', weights', g') /\
    has_shape 4 [4; 1; 1; 3] images' /\
    has_shape 2 [4; 2] labels' /\
    weights' = Sample.weights.
Proof.
  refine (mixup_preserves_shapes_and_weights
            Sample.images Sample.labels Sample.weights Sample.alpha
            Sample.script [1; 1; 3] 2 _ _ _).
  - cbn. repeat first [reflexivity | split | constructor].
  - cbn. repeat first [reflexivity | split | constructor].
  - reflexivity.
Defined.

Lemma mixup_interpolates_batch_with_one_permutation_witness :
  exists images_new labels_new,
    tf_gather Sample.images [2; 0; 3; 1] = Some images_new /\
    tf_gather Sample.labels [2; 0; 3; 1] = Some labels_new /\
    Permutation images_new Sample.images /\
    Permutation labels_new Sample.labels /\
    mixup Sample.images Sample.labels Sample.weights Sample.alpha 4
          Sample.script
    = Some (interpolate 3 [9 # 10; 1 # 10; 1 # 2; 7 # 10]%Q
                        Sample.images images_new,
            interpolate 1 [9 # 10; 1 # 10; 1 # 2; 7 # 10]%Q
                        Sample.labels labels_new,
            Sample.weights,
            {| beta_draws := []; perm_draws := [] |}).
Proof.
  refine (mixup_interpolates_batch_with_one_permutation
            Sample.images Sample.labels Sample.weights Sample.alpha
            Sample.script [1; 1; 3] 2 _ _ _).
  - cbn. repeat first [reflexivity | split | constructor].
  - cbn. repeat first [reflexivity | split | constructor].
  - reflexivity.
Defined.

(** The scenario of the specification, run: example 0 gets the label
    [0.9 * [1, 0] + 0.1 * [1, 1] = [1, 0.1]]. *)
Example mixup_scenario :
  mixup Sample.images Sample.labels Sample.weights Sample.alpha 4
        Sample.script
  = Some ([ [[[8 # 5; 13 # 5; 18 # 5]]]; [[[13 # 10; 23 # 10; 33 # 10]]];
            [[[17 # 2; 19 # 2; 21 # 2]]]; [[[41 # 5; 46 # 5; 51 # 5]]] ]%Q,
          [[1; 1 # 10]; [9 # 10; 1 # 10]; [1 # 2; 1 # 2]; [0; 3 # 10]]%Q,
          Sample.weights,
          {| beta_draws := []; perm_draws := [] |}).
Proof. reflexivity. Qed.

(** C5, as the data model words it, fails: with the coefficients 0.9 and
    the permutations [1,0] and [0,1] next in the generator, [mixup] mixes
    the batch, unpermuted, with its rearrangement along [1,0] and leaves
    the second permutation undrawn, where two permuted operands would give
    another batch. *)
Lemma mixup_is_not_two_permutations :
  mixup Sample.images2 Sample.labels2 Sample.weights2 Sample.alpha 2
        Sample.script2
  = Some ([ [[[11 # 10]]]; [[[19 # 10]]] ]%Q, [[9 # 10]; [1 # 10]]%Q,
          Sample.weights2,
          {| beta_draws := []; perm_draws := [[0; 1]] |}) /\
  mixup_two_permutations Sample.images2 Sample.labels2 Sample.weights2
        Sample.alpha 2 Sample.script2
  = Some ([ [[[19 # 10]]]; [[[11 # 10]]] ]%Q, [[1 # 10]; [9 # 10]]%Q,
          Sample.weights2,
          {| beta_draws := []; perm_draws := [] |}) /\
  mixup Sample.images2 Sample.labels2 Sample.weights2 Sample.alpha 2
        Sample.script2
  <> mixup_two_permutations Sample.images2 Sample.labels2 Sample.weights2
        Sample.alpha 2 Sample.script2.
Proof.
  split; [reflexivity|]. split; [reflexivity|].
  vm_compute. discriminate.
Qed.

(** ** mixup over exact arithmetic *)

Lemma tf_gather_identity {A : Type} (l : list A) :
  tf_gather l (seq 0 (length l)) = Some l.
Proof.
  destruct l as [|d l0] eqn:E; [reflexivity|]. rewrite <- E. clear E l0.
  rewrite (tf_gather_nth d).
  - now rewrite map_nth_seq.
  - apply Forall_forall. intros j Hj. apply in_seq in Hj. lia.
Qed.

(** Over the reals the convex combination of a tensor with itself is the
    tensor. *)
Lemma mix_self r (l : R) : forall x : tensor R r, mix r l x x = x.
Proof.
  unfold mix. induction r as [|r IH]; intros x; simpl.
  - ring.
  - rewrite combine_same_map, map_map. simpl.
    transitivity (map (fun y : tensor R r => y) x); [|apply map_id].
    apply map_ext. intros y. apply IH.
Qed.

Lemma interpolate_self r (a : tensor R (S r)) :
  forall lam : list R, length lam = length a -> interpolate r lam a a = a.
Proof.
  unfold interpolate.
  induction a as [|x a IH]; intros [|l lam] Hl; simpl in *;
    try discriminate; [reflexivity|].
  rewrite mix_self. f_equal. apply IH. lia.
Qed.

Section MixupExact.
Context {G : Type} {RS : RandomSource R G}.

(** C6.  Over exact arithmetic, when the permutation drawn is the identity
    the images and labels [mixup] returns are the ones it was given, for
    every vector of coefficients; and on a batch of one example [mixup]
    always returns the images and labels it was given. *)
Theorem mixup_identity_permutation :
  (forall (images : tensor R 4) (labels l_weights : tensor R 2)
          (alpha : R) (g : G) (dims : list nat) (C : nat),
      let N := length images in
      let draw2 := random_permutation N (snd (random_beta alpha alpha N g)) in
      has_shape 4 (N :: dims) images ->
      has_shape 2 [N; C] labels ->
      length l_weights = N ->
      fst draw2 = seq 0 N ->
      mixup images labels l_weights alpha N g
      = Some (images, labels, l_weights, snd draw2)) /\
  (forall (images : tensor R 4) (labels l_weights : tensor R 2)
          (alpha : R) (g : G) (dims : list nat) (C : nat),
      let draw2 := random_permutation 1 (snd (random_beta alpha alpha 1 g)) in
      has_shape 4 (1 :: dims) images ->
      has_shape 2 [1; C] labels ->
      length l_weights = 1 ->
      mixup images labels l_weights alpha 1 g
      = Some (images, labels, l_weights, snd draw2)).
Proof.
  assert (Main : forall (images : tensor R 4) (labels l_weights : tensor R 2)
          (alpha : R) (g : G) (dims : list nat) (C : nat),
      let N := length images in
      let draw2 := random_permutation N (snd (random_beta alpha alpha N g)) in
      has_shape 4 (N :: dims) images ->
      has_shape 2 [N; C] labels ->
      length l_weights = N ->
      fst draw2 = seq 0 N ->
      mixup images labels l_weights alpha N g
      = Some (images, labels, l_weights, snd draw2)).
  { intros images labels l_weights alpha g dims C N draw2 Him Hlb Hw Hid.
    pose proof (random_beta_length alpha alpha N g) as Hlam.
    pose proof Hlb as [HlN _].
    destruct (mixup_run images labels l_weights alpha g dims C Him Hlb Hw)
      as (images_new & labels_new & Egi & Egl & Run).
    fold N draw2 in Egi, Egl, Run. rewrite Run.
    rewrite Hid in Egi, Egl.
    unfold N in Egi. rewrite tf_gather_identity in Egi.
    rewrite <- HlN in Egl. rewrite tf_gather_identity in Egl.
    injection Egi as <-. injection Egl as <-.
    rewrite (interpolate_self 3 images) by exact Hlam.
    rewrite (interpolate_self 1 labels) by (rewrite HlN; exact Hlam).
    reflexivity. }
  split; [exact Main|].
  intros images labels l_weights alpha g dims C draw2 Him Hlb Hw.
  pose proof Him as [HiN _].
  destruct images as [|x [|x' images]]; simpl in HiN; try discriminate.
  apply (Main [x] labels l_weights alpha g dims C Him Hlb Hw).
  pose proof (random_permutation_perm 1 (snd (random_beta alpha alpha 1 g)))
    as Hpi.
  simpl in Hpi. apply Permutation_sym, Permutation_length_1_inv in Hpi.
  exact Hpi.
Qed.

End MixupExact.

Lemma mixup_identity_permutation_witness :
  mixup Sample.imagesR Sample.labelsR Sample.weightsR (1 / 5)%R 2
        Sample.scriptR
  = Some (Sample.imagesR, Sample.labelsR, Sample.weightsR,
          {| beta_draws := []; perm_draws := [] |}).
Proof.
  refine (proj1 mixup_identity_permutation
            Sample.imagesR Sample.labelsR Sample.weightsR (1 / 5)%R
            Sample.scriptR [1; 1; 3] 2 _ _ _ _).
  - cbn. repeat first [reflexivity | split | constructor].
  - cbn. repeat first [reflexivity | split | constructor].
  - reflexivity.
  - reflexivity.
Defined.

(** ** The network *)

(** C9.  [num_classes] defaults to 10, which is not the size of the class
    catalog (20); the model of [main] has 20 output units because [main]
    passes [len(CLASS_NAMES)]; and [compute_output_shape] reports the batch
    dimension followed by the [num_classes] the model was built with. *)
Theorem CaffeNet_num_classes :
  num_classes (CaffeNet_init None) = 10 /\
  units (dense3 (CaffeNet_init None)) = 10 /\
  length CLASS_NAMES = 20 /\
  num_classes (CaffeNet_init None) <> length CLASS_NAMES /\
  num_classes main_model = 20 /\
  units (dense3 main_model) = 20 /\
  (forall n, units (dense3 (CaffeNet_init (Some n))) = n) /\
  (forall n shape0 rest,
      compute_output_shape (CaffeNet_init (Some n)) (shape0 :: rest)
      = Some [shape0; Some n]) /\
  (forall shape0 rest,
      compute_output_shape (CaffeNet_init None) (shape0 :: rest)
      = Some [shape0; Some 10]).
Proof.
  repeat split; try reflexivity. simpl. discriminate.
Qed.

(** ** The training loop *)

Section TrainingProperties.
Context {T G : Type} {NT : Num T} {RS : RandomSource T G}.
Variable cal_grad :
  list T -> tensor T 4 -> tensor T 2 -> tensor T 2 -> T * list T.
Variable eval_dataset_map : list T -> list T * T.
Variable train_dataset : nat -> list (batch (T := T)).

Local Abbreviation batch_step := (train_batch cal_grad eval_dataset_map).
Local Abbreviation batch_loop := (train_batches cal_grad eval_dataset_map).
Local Abbreviation epoch_step :=
  (train_epoch cal_grad eval_dataset_map train_dataset).
Local Abbreviation epoch_loop :=
  (run_epochs cal_grad eval_dataset_map train_dataset).

Lemma apply_gradients_frame (st : TrainState (T := T)) grads :
  same_frame st (apply_gradients st grads) 1.
Proof.
  unfold same_frame, apply_gradients.
  destruct (apply_dense _ _ _ _ _) as [vars accs]. simpl. auto.
Qed.

Lemma train_batch_frame args acc b g acc' g' :
  batch_step args acc b g = Some (acc', g') ->
  same_frame (snd acc) (snd acc') 1.
Proof.
  destruct b as [[images labels] weights], acc as [avg st].
  unfold train_batch, bind, lift, ret.
  destruct (mixup _ _ _ _ _ g) as [[[[im lb] w] g1]|]; [|discriminate].
  destruct (cal_grad _ _ _ _) as [loss_value grads].
  pose proof (apply_gradients_frame st grads) as F.
  intros H. injection H as <- <-.
  destruct (np_mod _ (log_interval args) =? 0)%Z,
    (np_mod _ (eval_interval args) =? 0)%Z; simpl; exact F.
Qed.

Lemma train_batch_total args acc b g :
  log_interval args <> 0%Z -> eval_interval args <> 0%Z ->
  well_formed_batch b ->
  exists acc' g', batch_step args acc b g = Some (acc', g').
Proof.
  intros Hlog Hev Hb.
  destruct b as [[images labels] weights], acc as [avg st].
  destruct Hb as (dims & C & Him & Hlb & Hw).
  destruct (mixup_run images (tmap 2 of_Z labels) (tmap 2 of_Z weights)
              (ndiv (of_Z 1) (of_Z 5)) g dims C)
    as (i2 & l2 & _ & _ & Run).
  - exact Him.
  - now apply (has_shape_tmap of_Z 2).
  - simpl. now rewrite length_map.
  - unfold train_batch, bind, lift, ret. rewrite Run.
    destruct (cal_grad _ _ _ _) as [loss_value grads].
    eauto.
Qed.

Lemma train_batches_frame args batches :
  forall acc g acc' g',
    batch_loop args acc batches g = Some (acc', g') ->
    same_frame (snd acc) (snd acc') (length batches).
Proof.
  induction batches as [|b rest IH]; intros acc g acc' g' H; simpl in H.
  - injection H as <- <-. unfold same_frame. auto.
  - unfold bind in H.
    destruct (batch_step args acc b g) as [[acc1 g1]|] eqn:E;
      [|discriminate].
    apply train_batch_frame in E. apply IH in H.
    destruct E as (E1 & E2 & E3 & E4), H as (H1 & H2 & H3 & H4).
    unfold same_frame. simpl length.
    repeat split; try congruence. rewrite H1, E1. lia.
Qed.

Lemma train_batches_total args batches :
  log_interval args <> 0%Z -> eval_interval args <> 0%Z ->
  Forall well_formed_batch batches ->
  forall acc g, exists acc' g',
    batch_loop args acc batches g = Some (acc', g').
Proof.
  intros Hlog Hev Hb. induction Hb as [|b rest Hb _ IH]; intros acc g.
  - simpl. unfold ret. eauto.
  - simpl. unfold bind.
    destruct (train_batch_total args acc b g Hlog Hev Hb) as (acc1 & g1 & E).
    rewrite E. apply IH.
Qed.

(** One epoch: the batch loop, then the save when the index is even. *)
Lemma train_epoch_inv args st ep g st' g' :
  epoch_step args st ep g = Some (st', g') ->
  exists acc,
    batch_loop args (Mean_init, st) (train_dataset ep) g
    = Some (acc, g') /\
    st' = (if ep mod 2 =? 0 then Checkpoint_save (snd acc) else snd acc).
Proof.
  unfold train_epoch, bind, ret.
  destruct (batch_loop args _ _ g) as [[acc g1]|]; [|discriminate].
  intros H. injection H as <- <-. eauto.
Qed.

Lemma train_epoch_total args st ep g :
  log_interval args <> 0%Z -> eval_interval args <> 0%Z ->
  Forall well_formed_batch (train_dataset ep) ->
  exists st' g', epoch_step args st ep g = Some (st', g').
Proof.
  intros Hlog Hev Hb. unfold train_epoch, bind, ret.
  destruct (train_batches_total args _ Hlog Hev Hb (Mean_init, st) g)
    as (acc & g1 & E).
  rewrite E. eauto.
Qed.

Lemma run_epochs_app args eps1 eps2 :
  forall st g,
    epoch_loop args st (eps1 ++ eps2) g
    = match epoch_loop args st eps1 g with
      | Some (st1, g1) => epoch_loop args st1 eps2 g1
      | None => None
      end.
Proof.
  induction eps1 as [|ep eps1 IH]; intros st g; simpl; [reflexivity|].
  unfold bind. destruct (epoch_step args st ep g) as [[st1 g1]|];
    [apply IH | reflexivity].
Qed.

Lemma run_epochs_total args eps :
  log_interval args <> 0%Z -> eval_interval args <> 0%Z ->
  (forall ep, In ep eps -> Forall well_formed_batch (train_dataset ep)) ->
  forall st g, exists st' g', epoch_loop args st eps g = Some (st', g').
Proof.
  intros Hlog Hev. induction eps as [|ep eps IH]; intros Hb st g; simpl.
  - unfold ret. eauto.
  - unfold bind.
    destruct (train_epoch_total args st ep g Hlog Hev) as (st1 & g1 & E);
      [apply Hb; now left|].
    rewrite E. apply IH. intros ep' H'. apply Hb. now right.
Qed.

(** The optimizer keeps the learning rate it was built with, and the step
    counter counts the batch updates. *)
Lemma run_epochs_learning_rate args eps :
  forall st g st' g',
    epoch_loop args st eps g = Some (st', g') ->
    learning_rate (optimizer st') = learning_rate (optimizer st) /\
    global_step st'
    = fold_right (fun ep n => length (train_dataset ep) + n) 0 eps
      + global_step st.
Proof.
  induction eps as [|ep eps IH]; intros st g st' g' H; simpl in H.
  - injection H as <- <-. auto.
  - unfold bind in H.
    destruct (epoch_step args st ep g) as [[st1 g1]|] eqn:E; [|discriminate].
    apply train_epoch_inv in E. destruct E as (acc & Eb & ->).
    apply train_batches_frame in Eb. simpl in Eb.
    destruct Eb as (E1 & E2 & _).
    apply IH in H. destruct H as [H1 H2]. simpl fold_right.
    destruct (ep mod 2 =? 0); simpl in *.
    + split; [congruence|]. rewrite H2, E1. lia.
    + split; [congruence|]. rewrite H2, E1. lia.
Qed.

End TrainingProperties.

Section TrainingTheorems.
Context {T G : Type} {NT : Num T} {RS : RandomSource T G}.
Variable cal_grad :
  list T -> tensor T 4 -> tensor T 2 -> tensor T 2 -> T * list T.
Variable eval_dataset_map : list T -> list T * T.
Variable train_dataset : nat -> list (batch (T := T)).

Local Abbreviation batch_loop := (train_batches cal_grad eval_dataset_map).
Local Abbreviation epoch_loop :=
  (run_epochs cal_grad eval_dataset_map train_dataset).


(** The learning rate of the optimizer throughout a run is the value the
    schedule had when [main] built the optimizer, at step 0. *)
Lemma optimizer_learning_rate_fixed (args : Args (T := T))
    (variables0 : list T) (eps : list nat) (g : G) st g' :
  epoch_loop args (main_init args variables0) eps g = Some (st, g') ->
  learning_rate (optimizer st) = decayed_lr args 0.
Proof.
  intros H. apply run_epochs_learning_rate in H. now destruct H.
Qed.

End TrainingTheorems.

Lemma tiny_batches_well_formed (ep : nat) :
  Forall well_formed_batch (Sample.train_dataset ep).
Proof.
  apply Forall_forall. intros b Hb. apply repeat_spec in Hb. subst b.
  exists [1; 1; 1], 1. cbn. repeat first [reflexivity | split | constructor].
Qed.


(** C4, on the code.  With the default learning rate 0.001 and 250 batches
    in every epoch, the run reaches global step 5000 after 20 epochs; the
    learning rate the optimizer holds, and applies in the next update, is
    then still 0.001, the value [decayed_lr()] had when the optimizer was
    built, while the staircase schedule (the value logged as "LR") is
    0.0005 at that step. *)
Theorem learning_rate_not_decayed :
  exists st g',
    run_epochs Sample.cal_grad Sample.eval_dataset_map Sample.train_dataset
               Sample.args (main_init Sample.args [0%Q; 0%Q]) (seq 0 20)
               Sample.no_script
    = Some (st, g') /\
    global_step st = 5000 /\
    learning_rate (optimizer st) = (1 # 1000)%Q /\
    decayed_lr Sample.args (global_step st) = (1 # 2000)%Q /\
    forall grads,
      variables (apply_gradients st grads)
      = fst (apply_dense (1 # 1000)%Q (momentum (optimizer st)) grads
                         (variables st) (accumulators (optimizer st))).
Proof.
  destruct (run_epochs_total Sample.cal_grad Sample.eval_dataset_map
              Sample.train_dataset Sample.args (seq 0 20))
    with (st := main_init Sample.args [0%Q; 0%Q]) (g := Sample.no_script)
    as (st & g' & E).
  - simpl. discriminate.
  - simpl. discriminate.
  - intros ep _. apply tiny_batches_well_formed.
  - exists st, g'. split; [exact E|].
    apply run_epochs_learning_rate in E. destruct E as [Elr Estep].
    assert (Hs : global_step st = 5000) by (rewrite Estep; reflexivity).
    assert (Hl : learning_rate (optimizer st) = (1 # 1000)%Q)
      by (rewrite Elr; reflexivity).
    split; [exact Hs|]. split; [exact Hl|]. split.
    + rewrite Hs. reflexivity.
    + intros grads. unfold apply_gradients. rewrite Hl.
      now destruct (apply_dense _ _ _ _ _).
Qed.

(** ** The evaluator *)

Lemma combine_app {A B : Type} (l1 l2 : list A) (m1 m2 : list B) :
  length l1 = length m1 ->
  combine (l1 ++ l2) (m1 ++ m2) = combine l1 m1 ++ combine l2 m2.
Proof.
  revert m1. induction l1 as [|x l1 IH]; intros [|y m1] H; simpl in *;
    try discriminate; [reflexivity|].
  f_equal. apply IH. lia.
Qed.

Lemma combine_map {A B A' B' : Type} (f : A -> A') (h : B -> B') l m :
  combine (map f l) (map h m)
  = map (fun p => (f (fst p), h (snd p))) (combine l m).
Proof.
  revert m. induction l as [|x l IH]; intros [|y m]; simpl; try reflexivity.
  f_equal. apply IH.
Qed.

Lemma map_fst_combine {A B : Type} (l : list A) (m : list B) :
  length l = length m -> map fst (combine l m) = l.
Proof.
  revert m. induction l as [|x l IH]; intros [|y m] H; simpl in *;
    try discriminate; [reflexivity|].
  f_equal. apply IH. lia.
Qed.

Lemma tzip_same_shape {A B C : Type} (f : A -> B -> C) r :
  forall s (a : tensor A r) (b : tensor B r),
    has_shape r s a -> has_shape r s b ->
    tzip f r a b = Some (tmap2 r f a b).
Proof.
  induction r as [|r IH]; intros s a b Ha Hb; simpl in *; [reflexivity|].
  destruct s as [|n s]; [contradiction|].
  destruct Ha as [Hla Hfa], Hb as [Hlb Hfb].
  rewrite Hla, Hlb, Nat.eqb_refl.
  apply traverse_map_Some. intros [x y] Hp. simpl.
  rewrite Forall_forall in Hfa, Hfb.
  apply (IH s); [apply Hfa | apply Hfb].
  - eapply in_combine_l; eauto.
  - eapply in_combine_r; eauto.
Qed.

Lemma broadcast_weights_same_shape {A B : Type} r :
  forall s (w : tensor A r) (l : tensor B r),
    has_shape r s w -> has_shape r s l -> broadcast_weights r w l = Some w.
Proof.
  induction r as [|r IH]; intros s w l Hw Hl; simpl in *; [reflexivity|].
  destruct s as [|n s]; [contradiction|].
  destruct Hw as [Hlw Hfw], Hl as [Hll Hfl].
  rewrite Hlw, Hll, Nat.eqb_refl.
  rewrite (traverse_map_Some _ fst).
  - f_equal. apply map_fst_combine.
    transitivity n; [exact Hlw | symmetry; exact Hll].
  - intros [x y] Hp. simpl. rewrite Forall_forall in Hfw, Hfl.
    apply (IH s); [apply Hfw | apply Hfl].
    + eapply in_combine_l; eauto.
    + eapply in_combine_r; eauto.
Qed.

Lemma length_flatten {A : Type} r :
  forall s (a : tensor A r),
    has_shape r s a -> length (flatten r a) = fold_right Nat.mul 1 s.
Proof.
  induction r as [|r IH]; intros s a H; simpl in *.
  - now subst s.
  - destruct s as [|n s]; [contradiction|]. destruct H as [Hl Hf].
    subst n. simpl. induction Hf as [|x a Hx _ IHa]; simpl; [reflexivity|].
    rewrite length_app, (IH s x Hx), IHa. reflexivity.
Qed.

Lemma flatten_tmap {A B : Type} (f : A -> B) r :
  forall a : tensor A r, flatten r (tmap r f a) = map f (flatten r a).
Proof.
  induction r as [|r IH]; intros a; simpl; [reflexivity|].
  induction a as [|x a IHa]; simpl; [reflexivity|].
  now rewrite map_app, IH, IHa.
Qed.

Lemma flatten_tmap2 {A B C : Type} (f : A -> B -> C) r :
  forall s (a : tensor A r) (b : tensor B r),
    has_shape r s a -> has_shape r s b ->
    flatten r (tmap2 r f a b)
    = map (fun p => f (fst p) (snd p)) (combine (flatten r a) (flatten r b)).
Proof.
  induction r as [|r IH]; intros s a b Ha Hb; simpl in *; [reflexivity|].
  destruct s as [|n s]; [contradiction|].
  destruct Ha as [Hla Hfa], Hb as [Hlb Hfb].
  assert (Hl : length a = length b)
    by (transitivity n; [exact Hla | symmetry; exact Hlb]).
  clear Hla Hlb.
  revert b Hl Hfb.
  induction Hfa as [|x a Hx _ IHa]; intros [|y b] Hl Hfb; simpl in *;
    try discriminate; [reflexivity|].
  inversion Hfb as [|? ? Hy Hfb']; subst.
  rewrite combine_app, map_app.
  - f_equal; [now apply (IH s) | apply IHa; [lia | exact Hfb']].
  - now rewrite (length_flatten r s x), (length_flatten r s y).
Qed.

Lemma has_shape_concat {A : Type} r s (ts : list (tensor A (S r))) :
  Forall (fun t => exists n, has_shape (S r) (n :: s) t) ts ->
  has_shape (S r) (length (concat ts) :: s) (concat ts).
Proof.
  intros H. split; [reflexivity|].
  induction H as [|t ts [n [_ Ht]] _ IH]; simpl; [constructor|].
  apply Forall_app. split; assumption.
Qed.

(** *** Sums over the reals *)

Lemma Rsum_app (l1 l2 : list R) : Rsum (l1 ++ l2) = (Rsum l1 + Rsum l2)%R.
Proof.
  unfold Rsum. induction l1 as [|x l1 IH]; simpl; [ring|].
  rewrite IH. ring.
Qed.

Lemma fold_left_Rplus (l : list R) :
  forall a : R, fold_left Rplus l a = (a + Rsum l)%R.
Proof.
  unfold Rsum. induction l as [|x l IH]; intros a; simpl; [ring|].
  rewrite IH. ring.
Qed.

Lemma reduce_sum_Rsum r (t : tensor R (S r)) :
  reduce_sum (S r) t = Rsum (flatten (S r) t).
Proof.
  unfold reduce_sum. rewrite fold_left_Rplus. simpl. ring.
Qed.

Lemma Rsum_indicator {A : Type} (p : A -> bool) (l : list A) :
  Rsum (map (fun x => if p x then 1%R else 0%R) l)
  = INR (length (filter p l)).
Proof.
  unfold Rsum. induction l as [|x l IH]; simpl; [reflexivity|].
  rewrite IH. destruct (p x); [|ring].
  cbn [length]. rewrite S_INR. ring.
Qed.

Lemma is_zero_IZR (z : Z) : is_zero (IZR z) = (z =? 0)%Z.
Proof.
  simpl. destruct (Req_dec_T (IZR z) 0) as [E|E].
  - apply eq_IZR in E. subst. reflexivity.
  - symmetry. apply Z.eqb_neq. intros ->. now apply E.
Qed.

Lemma is_zero_INR (n : nat) : is_zero (INR n) = (n =? 0).
Proof.
  simpl. destruct (Req_dec_T (INR n) 0) as [E|E].
  - replace 0%R with (INR 0) in E by reflexivity. apply INR_eq in E.
    now subst.
  - symmetry. apply Nat.eqb_neq. intros ->. now apply E.
Qed.

(** *** The loss of a batch *)

Lemma length_filter_snd {A B C : Type} (p : B -> bool) (f : A -> C) :
  forall (X : list A) (W : list B),
    length X = length W ->
    length (filter (fun t => p (snd t))
                   (map (fun e => (f (fst e), snd e)) (combine X W)))
    = length (filter p W).
Proof.
  induction X as [|x X IH]; intros [|w W] H; simpl in *; try discriminate;
    [reflexivity|].
  destruct (p w); simpl; rewrite IH by lia; reflexivity.
Qed.

(** On labels, logits and weights of one shape the loss of TensorFlow is
    the weighted mean of the entrywise terms. *)
Lemma loss_weighted_mean (labels : tensor Z 2) (logits : tensor R 2)
    (weights : tensor Z 2) (N C : nat) :
  has_shape 2 [N; C] labels -> has_shape 2 [N; C] logits ->
  has_shape 2 [N; C] weights ->
  sigmoid_cross_entropy (tmap 2 of_Z labels) logits (tmap 2 of_Z weights)
  = Some (weighted_mean (loss_terms labels logits weights)).
Proof.
  intros Hlb Hlg Hw.
  pose proof (has_shape_tmap (of_Z (T := R)) 2 _ _ Hlb) as Hlb'.
  pose proof (has_shape_tmap (of_Z (T := R)) 2 _ _ Hw) as Hw'.
  pose proof (length_flatten 2 _ _ Hlb) as Llb.
  pose proof (length_flatten 2 _ _ Hlg) as Llg.
  pose proof (length_flatten 2 _ _ Hw) as Lw.
  unfold sigmoid_cross_entropy.
  rewrite (tzip_same_shape _ 2 [N; C]) by assumption.
  pose proof (has_shape_tmap2 sigmoid_cross_entropy_with_logits 2 _ _ _
                Hlb' Hlg) as Hls.
  rewrite (broadcast_weights_same_shape 2 [N; C]) by assumption.
  f_equal.
  assert (Epresent :
    reduce_sum 2 (tmap 2 (fun x : R => if is_zero x then nzero else nunit)
                         (tmap 2 of_Z weights))
    = INR (num_present (loss_terms labels logits weights))).
  { rewrite reduce_sum_Rsum, !flatten_tmap, map_map.
    rewrite (map_ext _ (fun w => if negb (w =? 0)%Z then 1%R else 0%R)).
    - rewrite Rsum_indicator. f_equal. unfold num_present, loss_terms.
      symmetry.
      apply (length_filter_snd (fun w => negb (w =? 0)%Z)
               (fun e : Z * R =>
                  sigmoid_cross_entropy_with_logits (IZR (fst e)) (snd e))).
      rewrite length_combine, Llb, Llg, Lw. apply Nat.min_id.
    - intros w. rewrite is_zero_IZR. now destruct (w =? 0)%Z. }
  assert (Esum :
    reduce_sum 2 (tmap2 2 nmul
                    (tmap2 2 sigmoid_cross_entropy_with_logits
                       (tmap 2 of_Z labels) logits)
                    (tmap 2 of_Z weights))
    = weighted_sum (loss_terms labels logits weights)).
  { rewrite reduce_sum_Rsum.
    rewrite (flatten_tmap2 _ 2 [N; C]) by assumption.
    rewrite (flatten_tmap2 _ 2 [N; C]) by assumption.
    rewrite !flatten_tmap. unfold weighted_sum, loss_terms. f_equal.
    rewrite map_map.
    generalize (flatten 2 labels) (flatten 2 logits) (flatten 2 weights).
    intros L. induction L as [|z L IH]; intros [|x X] [|w W]; simpl;
      try reflexivity.
    f_equal. apply IH. }
  rewrite Epresent, Esum, is_zero_INR. unfold weighted_mean.
  now destruct (num_present _ =? 0).
Qed.

Lemma batch_loss_weighted_mean (model : tensor R 4 -> bool -> tensor R 2)
    (C : nat) (b : batch (T := R)) :
  evaluable model C b ->
  batch_loss model b = Some (weighted_mean (batch_terms model b)).
Proof.
  intros (N & Hlb & Hw & Hlg). unfold batch_loss, batch_terms.
  now apply loss_weighted_mean with N C.
Qed.

(** *** The binarised prediction *)

Lemma sigmoid_times (x : R) : (sigmoid x * (1 + exp (- x)) = 1)%R.
Proof. simpl. pose proof (exp_pos (- x)). field. lra. Qed.

Lemma sigmoid_bounds (x : R) : (0 < sigmoid x < 1)%R.
Proof.
  pose proof (exp_pos (- x)) as He.
  pose proof (sigmoid_times x) as Hs.
  assert (H0 : (0 < sigmoid x)%R) by (simpl; apply Rdiv_lt_0_compat; lra).
  split; [exact H0|].
  pose proof (Rmult_lt_0_compat _ _ H0 He). lra.
Qed.

Lemma sigmoid_above_half (x : R) : (1 / 2 < sigmoid x <-> 0 < x)%R.
Proof.
  pose proof (exp_pos (- x)) as He.
  pose proof (sigmoid_times x) as Hs.
  pose proof (sigmoid_bounds x) as [H0 H1].
  assert (E : (1 / 2 < sigmoid x <-> exp (- x) < 1)%R).
  { split; intros H.
    - destruct (Rlt_dec (exp (- x)) 1) as [L|L]; [exact L|]. exfalso. nra.
    - nra. }
  rewrite E. rewrite <- exp_0. split; intros H.
  - apply exp_lt_inv in H. lra.
  - apply exp_increasing. lra.
Qed.

(** Sigmoid, then [tf.round], then the cast: 1 for a positive logit and 0
    otherwise. *)
Lemma prediction_of_logit (x : R) :
  cast_int32 (tf_round (sigmoid x)) = if Rlt_dec 0 x then 1%Z else 0%Z.
Proof.
  pose proof (sigmoid_bounds x) as [H0 H1].
  pose proof (sigmoid_above_half x) as Hh.
  assert (Ef : Zfloor (sigmoid x) = 0%Z) by (apply Zfloor_eq; lra).
  assert (Er : round_half_even (sigmoid x)
               = if Rlt_dec 0 x then 1%Z else 0%Z).
  { unfold round_half_even. rewrite Ef. simpl IZR.
    destruct (Rlt_dec (sigmoid x - 0) (1 / 2)) as [L|L].
    - destruct (Rlt_dec 0 x) as [P|P]; [|reflexivity].
      apply Hh in P. lra.
    - destruct (Rlt_dec (1 / 2) (sigmoid x - 0)) as [U|U].
      + destruct (Rlt_dec 0 x) as [P|P]; [reflexivity|].
        exfalso. apply P, Hh. lra.
      + destruct (Rlt_dec 0 x) as [P|P]; [|reflexivity].
        apply Hh in P. lra. }
  change (cast_int32 (tf_round (sigmoid x)))
    with (if Rle_dec 0 (IZR (round_half_even (sigmoid x)))
          then Zfloor (IZR (round_half_even (sigmoid x)))
          else Zceil (IZR (round_half_even (sigmoid x)))).
  rewrite Er.
  destruct (Rlt_dec 0 x); (destruct (Rle_dec 0 _) as [Hle|Hle];
    [apply ZfloorZ | exfalso; apply Hle; lra]).
Qed.

(** *** The loop of [test] *)

Lemma test_batch_R (model : tensor R 4 -> bool -> tensor R 2) (C : nat)
    (b : batch (T := R)) (m1 m2 : Mean (T := R)) :
  evaluable model C b ->
  exists l,
    batch_loss model b = Some l /\
    test_batch model (m1, m2) b
    = Some ({| numer := numer m1 + l; denom := denom m1 + 1 |},
            {| numer := numer m2 + INR (batch_matches model b);
               denom := denom m2 + INR (batch_entries b) |})%R.
Proof.
  intros Hb. pose proof (batch_loss_weighted_mean model C b Hb) as El.
  destruct Hb as (N & Hlb & Hw & Hlg).
  exists (weighted_mean (batch_terms model b)). split; [exact El|].
  destruct b as [[images labels] weights].
  unfold batch_loss, batch_logits in *. simpl fst in *. simpl snd in *.
  unfold test_batch. rewrite El. unfold Accuracy_call.
  assert (Hp : has_shape 2 [N; C]
                 (tmap 2 cast_int32
                    (tmap 2 tf_round (tmap 2 sigmoid (model images false)))))
    by (repeat apply has_shape_tmap; exact Hlg).
  rewrite (tzip_same_shape _ 2 [N; C]) by assumption.
  unfold Mean_call, tf_size. simpl numer. simpl denom.
  rewrite reduce_sum_Rsum.
  rewrite (flatten_tmap2 _ 2 [N; C]) by assumption.
  rewrite length_map, length_combine.
  rewrite (length_flatten 2 _ _ Hp), (length_flatten 2 _ _ Hlb), Nat.min_id.
  rewrite (Rsum_indicator (fun p : Z * Z => (fst p =? snd p)%Z)).
  unfold batch_matches, batch_entries, batch_prediction, batch_logits.
  simpl fst. simpl snd.
  rewrite (length_flatten 2 _ _ Hlb).
  rewrite (INR_IZR_INZ (fold_right Nat.mul 1 [N; C])). reflexivity.
Qed.

Lemma test_loop_R (model : tensor R 4 -> bool -> tensor R 2) (C : nat)
    (dataset : list (batch (T := R))) :
  Forall (evaluable model C) dataset ->
  forall m1 m2 : Mean (T := R),
  exists losses,
    Forall2 (fun b l => batch_loss model b = Some l) dataset losses /\
    test_loop model (m1, m2) dataset
    = Some ({| numer := numer m1 + Rsum losses;
               denom := denom m1 + INR (length dataset) |},
            {| numer := numer m2
                        + INR (list_sum (map (batch_matches model) dataset));
               denom := denom m2
                        + INR (list_sum (map batch_entries dataset)) |})%R.
Proof.
  intros H. induction H as [|b rest Hb _ IH]; intros m1 m2.
  - exists []. split; [constructor|]. simpl.
    destruct m1, m2. simpl. now rewrite !Rplus_0_r.
  - destruct (test_batch_R model C b m1 m2 Hb) as (l & El & Eb).
    destruct (IH {| numer := numer m1 + l; denom := denom m1 + 1 |}%R
                 {| numer := numer m2 + INR (batch_matches model b);
                    denom := denom m2 + INR (batch_entries b) |}%R)
      as (losses & Fl & Er).
    exists (l :: losses). split; [now constructor|].
    cbn [test_loop]. rewrite Eb, Er. cbn [numer denom map length].
    unfold list_sum, Rsum. cbn [fold_right].
    rewrite S_INR, !plus_INR.
    f_equal. f_equal; f_equal; ring.
Qed.

(** What [test] returns: the mean of the batch losses and the share of
    matching entries. *)
Lemma test_result (model : tensor R 4 -> bool -> tensor R 2) (C : nat)
    (dataset : list (batch (T := R))) :
  Forall (evaluable model C) dataset ->
  exists losses,
    Forall2 (fun b l => batch_loss model b = Some l) dataset losses /\
    test model dataset
    = Some (Rsum losses / INR (length dataset),
            INR (list_sum (map (batch_matches model) dataset))
            / INR (list_sum (map batch_entries dataset)))%R.
Proof.
  intros H.
  destruct (test_loop_R model C dataset H Mean_init Mean_init)
    as (losses & Fl & E).
  exists losses. split; [exact Fl|].
  unfold test. rewrite E. unfold Mean_result. simpl.
  now rewrite !Rplus_0_l.
Qed.

Lemma batch_losses_weighted_means
    (model : tensor R 4 -> bool -> tensor R 2) (C : nat)
    (dataset : list (batch (T := R))) (losses : list R) :
  Forall (evaluable model C) dataset ->
  Forall2 (fun b l => batch_loss model b = Some l) dataset losses ->
  losses = map (fun b => weighted_mean (batch_terms model b)) dataset.
Proof.
  intros H F. induction F as [|b l ds ls E _ IH]; [reflexivity|].
  inversion H as [|? ? Hb Hrest]; subst.
  rewrite (batch_loss_weighted_mean model C b Hb) in E. injection E as <-.
  simpl. f_equal. now apply IH.
Qed.

(** The entrywise loss is the cross-entropy of the label against the
    sigmoid of the logit. *)
Lemma xent_cross_entropy (z x : R) :
  sigmoid_cross_entropy_with_logits z x
  = (- (z * ln (sigmoid x)) - (1 - z) * ln (1 - sigmoid x))%R.
Proof.
  pose proof (exp_pos (- x)) as He.
  assert (P : (0 < 1 + exp (- x))%R) by lra.
  assert (Es : ln (sigmoid x) = (- ln (1 + exp (- x)))%R).
  { simpl. unfold Rdiv. rewrite Rmult_1_l. apply ln_Rinv. exact P. }
  assert (Ec : ln (1 - sigmoid x) = (- x - ln (1 + exp (- x)))%R).
  { replace (1 - sigmoid x)%R with (exp (- x) / (1 + exp (- x)))%R
      by (simpl; field; lra).
    unfold Rdiv. rewrite ln_mult by (try apply Rinv_0_lt_compat; assumption).
    rewrite ln_Rinv by assumption. rewrite ln_exp. ring. }
  rewrite Es, Ec.
  change (sigmoid_cross_entropy_with_logits z x)
    with (Rmax x 0 - x * z + ln (1 + exp (- Rabs x)))%R.
  destruct (Rle_dec 0 x) as [Hx|Hx].
  - rewrite Rmax_left by exact Hx. rewrite Rabs_right by lra. ring.
  - assert (Hn : (x < 0)%R) by lra.
    rewrite Rmax_right by lra. rewrite Rabs_left by exact Hn.
    rewrite Ropp_involutive.
    assert (El : ln (1 + exp x) = (x + ln (1 + exp (- x)))%R).
    { replace (1 + exp x)%R with (exp x * (1 + exp (- x)))%R.
      - rewrite ln_mult by (try apply exp_pos; assumption).
        now rewrite ln_exp.
      - rewrite Rmult_plus_distr_l, Rmult_1_r, <- exp_plus.
        replace (x + - x)%R with 0%R by ring. rewrite exp_0. ring. }
    rewrite El. ring.
Qed.

(** C3.  On a dataset with at least one label entry (on one with none
    the code returns nan), [test] runs the model on every batch with
    [training=False] and takes the loss
    [tf.losses.sigmoid_cross_entropy(labels, logits, weights)]: the sum,
    over the entries of the batch, of the weight times the cross-entropy of
    the label against the sigmoid of the logit, over the number of entries
    with a weight that is not zero.  It predicts by sigmoid followed by
    rounding, which yields the one of 0 and 1 nearest to the sigmoid; and
    it returns the mean of the batch losses and the share of label entries,
    over all examples and classes of all batches, that the prediction
    agrees with. *)
Theorem test_returns_mean_loss_and_accuracy
    (model : tensor R 4 -> bool -> tensor R 2) (C : nat)
    (dataset : list (batch (T := R))) :
  Forall (evaluable model C) dataset ->
  0 < list_sum (map batch_entries dataset) ->
  exists losses,
    Forall2 (fun b l =>
               sigmoid_cross_entropy (tmap 2 of_Z (snd (fst b)))
                                     (model (fst (fst b)) false)
                                     (tmap 2 of_Z (snd b)) = Some l)
            dataset losses /\
    Forall2 (fun b l =>
               l = weighted_mean
                     (loss_terms (snd (fst b)) (model (fst (fst b)) false)
                                 (snd b)))
            dataset losses /\
    (forall z x : R,
        sigmoid_cross_entropy_with_logits z x
        = (- (z * ln (sigmoid x)) - (1 - z) * ln (1 - sigmoid x))%R) /\
    0 < length dataset /\
    test model dataset
    = Some (Rsum losses / INR (length dataset),
            INR (list_sum (map (batch_matches model) dataset))
            / INR (list_sum (map batch_entries dataset)))%R /\
    (forall b,
        batch_prediction model b
        = tmap 2 (fun x => cast_int32 (tf_round (sigmoid x)))
               (model (fst (fst b)) false)) /\
    (forall x : R,
        let p := cast_int32 (tf_round (sigmoid x)) in
        (p = 0 \/ p = 1)%Z /\
        (Rabs (IZR p - sigmoid x) <= Rabs (0 - sigmoid x))%R /\
        (Rabs (IZR p - sigmoid x) <= Rabs (1 - sigmoid x))%R).
Proof.
  intros H Hentries.
  destruct (test_result model C dataset H) as (losses & Fl & E).
  exists losses. split; [exact Fl|]. split; [|split; [|split; [|split; [|split]]]].
  - rewrite (batch_losses_weighted_means model C dataset losses H Fl).
    clear. induction dataset; simpl; constructor; auto.
  - exact xent_cross_entropy.
  - destruct dataset; [inversion Hentries | simpl; apply Nat.lt_0_succ].
  - exact E.
  - intros b. unfold batch_prediction, batch_logits.
    generalize (model (fst (fst b)) false). intros t.
    simpl. rewrite !map_map. apply map_ext. intros row.
    rewrite !map_map. reflexivity.
  - intros x p. subst p. rewrite prediction_of_logit.
    pose proof (sigmoid_bounds x) as [H0 H1].
    pose proof (sigmoid_above_half x) as Hh.
    destruct (Rlt_dec 0 x) as [P|P].
    + apply Hh in P. split; [now right|].
      split.
      * unfold Rabs. repeat destruct (Rcase_abs _); lra.
      * lra.
    + assert (sigmoid x <= 1 / 2)%R
        by (destruct (Rle_dec (sigmoid x) (1 / 2)) as [L|L];
            [exact L | exfalso; apply P, Hh; lra]).
      split; [now left|]. split.
      * lra.
      * unfold Rabs. repeat destruct (Rcase_abs _); lra.
Qed.

Lemma even_dataset_evaluable :
  Forall (evaluable Sample.pixel_model 1) Sample.even_dataset.
Proof.
  repeat constructor; exists 2; cbn;
    repeat first [reflexivity | split | constructor].
Qed.

Lemma test_returns_mean_loss_and_accuracy_witness :
  exists losses,
    Forall2 (fun b l =>
               l = weighted_mean
                     (loss_terms (snd (fst b))
                                 (Sample.pixel_model (fst (fst b)) false)
                                 (snd b)))
            Sample.even_dataset losses /\
    test Sample.pixel_model Sample.even_dataset
    = Some (Rsum losses / INR 2,
            INR (list_sum (map (batch_matches Sample.pixel_model)
                               Sample.even_dataset))
            / INR (list_sum (map batch_entries Sample.even_dataset)))%R.
Proof.
  destruct (test_returns_mean_loss_and_accuracy
              Sample.pixel_model 1 Sample.even_dataset
              even_dataset_evaluable)
    as (losses & _ & Hl & _ & _ & E & _).
  - vm_compute. repeat constructor.
  - exists losses. split; [exact Hl | exact E].
Defined.

(** *** The mean of the batch losses and the loss of the whole set *)

Lemma weighted_sum_app (l1 l2 : list (R * Z)) :
  weighted_sum (l1 ++ l2) = (weighted_sum l1 + weighted_sum l2)%R.
Proof. unfold weighted_sum. now rewrite map_app, Rsum_app. Qed.

Lemma num_present_app (l1 l2 : list (R * Z)) :
  num_present (l1 ++ l2) = num_present l1 + num_present l2.
Proof. unfold num_present. now rewrite filter_app, length_app. Qed.

Lemma loss_terms_app (l1 l2 : tensor Z 2) (x1 x2 : tensor R 2)
    (w1 w2 : tensor Z 2) (N C : nat) :
  has_shape 2 [N; C] l1 -> has_shape 2 [N; C] x1 -> has_shape 2 [N; C] w1 ->
  loss_terms (l1 ++ l2) (x1 ++ x2) (w1 ++ w2)
  = loss_terms l1 x1 w1 ++ loss_terms l2 x2 w2.
Proof.
  intros Hl Hx Hw. unfold loss_terms.
  pose proof (length_flatten 2 _ _ Hl) as Ll.
  pose proof (length_flatten 2 _ _ Hx) as Lx.
  pose proof (length_flatten 2 _ _ Hw) as Lw.
  change (flatten 2 (l1 ++ l2)) with (flat_map (flatten 1) (l1 ++ l2)).
  change (flatten 2 (x1 ++ x2)) with (flat_map (flatten 1) (x1 ++ x2)).
  change (flatten 2 (w1 ++ w2)) with (flat_map (flatten 1) (w1 ++ w2)).
  rewrite !flat_map_app.
  change (flat_map (flatten 1) l1) with (flatten 2 l1).
  change (flat_map (flatten 1) x1) with (flatten 2 x1).
  change (flat_map (flatten 1) w1) with (flatten 2 w1).
  rewrite (combine_app (flatten 2 l1) _ (flatten 2 x1)) by congruence.
  rewrite combine_app, map_app; [reflexivity|].
  rewrite length_combine, Ll, Lx, Lw. apply Nat.min_id.
Qed.

(** The stacked dataset has one shape, and its loss terms are those of
    the batches, one batch after the other. *)
Lemma stacked_dataset (model : tensor R 4 -> bool -> tensor R 2) (C : nat)
    (dataset : list (batch (T := R))) :
  Forall (evaluable model C) dataset ->
  exists N,
    has_shape 2 [N; C] (concat (map (fun b => snd (fst b)) dataset)) /\
    has_shape 2 [N; C] (concat (map (batch_logits model) dataset)) /\
    has_shape 2 [N; C] (concat (map (fun b => snd b) dataset)) /\
    loss_terms (concat (map (fun b => snd (fst b)) dataset))
               (concat (map (batch_logits model) dataset))
               (concat (map (fun b => snd b) dataset))
    = flat_map (batch_terms model) dataset.
Proof.
  intros H. induction H as [|b rest Hb _ IH].
  - exists 0. simpl. repeat split; constructor.
  - destruct IH as (N & Hl & Hx & Hw & Et).
    destruct Hb as (Nb & Hlb & Hwb & Hxb).
    exists (Nb + N). cbn [map concat flat_map].
    assert (App : forall (A : Type) (t1 t2 : tensor A 2),
               has_shape 2 [Nb; C] t1 -> has_shape 2 [N; C] t2 ->
               has_shape 2 [Nb + N; C] (t1 ++ t2)).
    { intros A t1 t2 [L1 F1] [L2 F2]. split.
      - rewrite length_app. now rewrite L1, L2.
      - apply Forall_app. now split. }
    split; [apply App; assumption|].
    split; [apply App; assumption|].
    split; [apply App; assumption|].
    rewrite (loss_terms_app _ _ _ _ _ _ Nb C) by assumption.
    now rewrite Et.
Qed.

Lemma pooled_loss_weighted_mean (model : tensor R 4 -> bool -> tensor R 2)
    (C : nat) (dataset : list (batch (T := R))) :
  Forall (evaluable model C) dataset ->
  pooled_loss model dataset
  = Some (weighted_mean (flat_map (batch_terms model) dataset)).
Proof.
  intros H. destruct (stacked_dataset model C dataset H)
    as (N & Hl & Hx & Hw & Et).
  unfold pooled_loss. rewrite (loss_weighted_mean _ _ _ N C) by assumption.
  now rewrite Et.
Qed.

(** What [test] returns as its loss, in closed form. *)
Lemma test_loss_closed_form (model : tensor R 4 -> bool -> tensor R 2)
    (C : nat) (dataset : list (batch (T := R))) :
  Forall (evaluable model C) dataset ->
  exists acc,
    test model dataset
    = Some (Rsum (map (fun b => weighted_mean (batch_terms model b)) dataset)
            / INR (length dataset), acc)%R.
Proof.
  intros H.
  destruct (test_result model C dataset H) as (losses & Fl & E).
  rewrite (batch_losses_weighted_means model C dataset losses H Fl) in E.
  eauto.
Qed.

Lemma equal_presence_sums (model : tensor R 4 -> bool -> tensor R 2)
    (k : nat) (dataset : list (batch (T := R))) :
  0 < k ->
  (forall b, In b dataset -> num_present (batch_terms model b) = k) ->
  Rsum (map (fun b => weighted_mean (batch_terms model b)) dataset)
  = (weighted_sum (flat_map (batch_terms model) dataset) / INR k)%R /\
  num_present (flat_map (batch_terms model) dataset) = length dataset * k.
Proof.
  intros Hk Hp.
  assert (Hk' : INR k <> 0%R) by (apply not_0_INR; lia).
  induction dataset as [|b rest IH]; simpl.
  - split; [|reflexivity]. unfold weighted_sum, Rsum. simpl. field. exact Hk'.
  - destruct IH as [IH1 IH2]; [intros b' Hb'; apply Hp; now right|].
    rewrite weighted_sum_app, num_present_app, IH2, (Hp b) by now left.
    split; [|reflexivity].
    unfold Rsum in *. cbn [fold_right]. rewrite IH1.
    unfold weighted_mean. rewrite (Hp b) by now left.
    destruct (k =? 0) eqn:E; [apply Nat.eqb_eq in E; lia|].
    field. exact Hk'.
Qed.

Lemma xent_unequal :
  (sigmoid_cross_entropy_with_logits 1 1
   < sigmoid_cross_entropy_with_logits 0 0)%R.
Proof.
  simpl. rewrite Rmax_left by lra. rewrite Rmax_left by lra.
  rewrite Rabs_R1, Rabs_R0.
  assert (ln (1 + exp (- (1))) < ln (1 + exp (- 0)))%R; [|lra].
  pose proof (exp_pos (- (1))).
  apply ln_increasing; [lra|].
  apply Rplus_lt_compat_l, exp_increasing. lra.
Qed.

Lemma ragged_dataset_evaluable :
  Forall (evaluable Sample.pixel_model 1) Sample.ragged_dataset.
Proof.
  constructor; [exists 2|constructor; [exists 1|constructor]]; cbn;
    repeat first [reflexivity | split | constructor].
Qed.

Lemma masked_dataset_evaluable :
  Forall (evaluable Sample.pixel_model 2) Sample.masked_dataset.
Proof.
  repeat constructor; exists 2; cbn;
    repeat first [reflexivity | split | constructor].
Qed.

Lemma unbatched_masked_dataset_evaluable :
  Forall (evaluable Sample.pixel_model 2) (unbatch Sample.masked_dataset).
Proof.
  repeat constructor; exists 1; cbn;
    repeat first [reflexivity | split | constructor].
Qed.

(** With no weight equal to zero, every entry of a batch is present. *)
Lemma num_present_all (labels : tensor Z 2) (logits : tensor R 2)
    (weights : tensor Z 2) (N C : nat) :
  has_shape 2 [N; C] labels -> has_shape 2 [N; C] logits ->
  has_shape 2 [N; C] weights ->
  Forall (fun w => w <> 0%Z) (flatten 2 weights) ->
  num_present (loss_terms labels logits weights) = N * (C * 1).
Proof.
  intros Hl Hx Hw Hnz. unfold num_present, loss_terms.
  rewrite (length_filter_snd (fun w => negb (w =? 0)%Z)
             (fun e : Z * R =>
                sigmoid_cross_entropy_with_logits (IZR (fst e)) (snd e))).
  - change (N * (C * 1)) with (fold_right Nat.mul 1 [N; C]).
    rewrite <- (length_flatten 2 _ _ Hw). f_equal.
    induction Hnz as [|w ws Hw0 _ IH]; simpl; [reflexivity|].
    apply Z.eqb_neq in Hw0. rewrite Hw0. simpl. now rewrite IH.
  - rewrite length_combine, (length_flatten 2 _ _ Hl),
      (length_flatten 2 _ _ Hx), (length_flatten 2 _ _ Hw).
    apply Nat.min_id.
Qed.

(** C10, as the code has it.  The loss [test] returns is the arithmetic
    mean of the batch losses, every batch counting once; a batch loss is
    the weighted sum of its entry losses over the number of its entries
    with a weight that is not zero.  With a last batch smaller than the
    others it differs, in general, from the loss of the whole set taken as
    one batch (three examples in batches of two and one).  The two coincide
    when every batch has the same, positive, number of entries with a
    weight that is not zero: in particular when all batches have one size
    and no weight is zero. *)
Theorem test_loss_is_mean_of_batch_losses :
  (forall (model : tensor R 4 -> bool -> tensor R 2) (C : nat)
          (dataset : list (batch (T := R))),
      Forall (evaluable model C) dataset ->
      exists losses acc,
        Forall2 (fun b l => batch_loss model b = Some l) dataset losses /\
        Forall2 (fun b l => l = weighted_mean (batch_terms model b))
                dataset losses /\
        test model dataset
        = Some (Rsum losses / INR (length dataset), acc)%R) /\
  (exists L acc L',
      map (fun b : batch (T := R) => length (fst (fst b)))
          Sample.ragged_dataset = [2; 1] /\
      test Sample.pixel_model Sample.ragged_dataset = Some (L, acc) /\
      pooled_loss Sample.pixel_model Sample.ragged_dataset = Some L' /\
      L <> L') /\
  (forall (model : tensor R 4 -> bool -> tensor R 2) (C k : nat)
          (dataset : list (batch (T := R))),
      Forall (evaluable model C) dataset ->
      dataset <> [] -> 0 < k ->
      (forall b, In b dataset -> num_present (batch_terms model b) = k) ->
      exists L acc,
        test model dataset = Some (L, acc) /\
        pooled_loss model dataset = Some L) /\
  (forall (model : tensor R 4 -> bool -> tensor R 2) (C N : nat)
          (dataset : list (batch (T := R))),
      dataset <> [] -> 0 < N -> 0 < C ->
      (forall b, In b dataset ->
                 has_shape 2 [N; C] (snd (fst b)) /\
                 has_shape 2 [N; C] (snd b) /\
                 has_shape 2 [N; C] (batch_logits model b) /\
                 Forall (fun w => w <> 0%Z) (flatten 2 (snd b))) ->
      exists L acc,
        test model dataset = Some (L, acc) /\
        pooled_loss model dataset = Some L).
Proof.
  assert (Equal : forall (model : tensor R 4 -> bool -> tensor R 2)
            (C k : nat) (dataset : list (batch (T := R))),
      Forall (evaluable model C) dataset ->
      dataset <> [] -> 0 < k ->
      (forall b, In b dataset -> num_present (batch_terms model b) = k) ->
      exists L acc,
        test model dataset = Some (L, acc) /\
        pooled_loss model dataset = Some L).
  { intros model C k dataset Hev Hne Hk Hp.
    destruct (test_loss_closed_form model C dataset Hev) as (acc & E).
    rewrite E, (pooled_loss_weighted_mean model C dataset Hev).
    do 2 eexists. split; [reflexivity|]. f_equal.
    destruct (equal_presence_sums model k dataset Hk Hp) as [Es En].
    rewrite Es. unfold weighted_mean. rewrite En.
    assert (Hn : 0 < length dataset)
      by (destruct dataset; [contradiction | simpl; lia]).
    destruct (length dataset * k =? 0) eqn:E0;
      [apply Nat.eqb_eq in E0; nia|].
    rewrite mult_INR. field.
    split; apply not_0_INR; lia. }
  split; [|split; [|split]].
  - intros model C dataset Hev.
    destruct (test_result model C dataset Hev) as (losses & Fl & E).
    exists losses. eexists. split; [exact Fl|]. split; [|exact E].
    rewrite (batch_losses_weighted_means model C dataset losses Hev Fl).
    clear. induction dataset; simpl; constructor; auto.
  - destruct (test_loss_closed_form _ _ _ ragged_dataset_evaluable)
      as (acc & E).
    pose proof (pooled_loss_weighted_mean _ _ _ ragged_dataset_evaluable)
      as Ep.
    do 3 eexists. split; [reflexivity|].
    split; [exact E|]. split; [exact Ep|].
    pose proof xent_unequal as Hx.
    cbv [Sample.ragged_dataset map flat_map batch_terms loss_terms app
         batch_logits Sample.pixel_model fst snd hd flatten combine
         weighted_mean num_present filter Z.eqb negb length Nat.eqb
         weighted_sum Rsum fold_right INR].
    lra.
  - exact Equal.
  - intros model C N dataset Hne HN HC Hb.
    apply (Equal model C (N * (C * 1))); auto.
    + apply Forall_forall. intros b Hin.
      destruct (Hb b Hin) as (Hl & Hw & Hx & _). exists N. auto.
    + nia.
    + intros b Hin. destruct (Hb b Hin) as (Hl & Hw & Hx & Hnz).
      now apply num_present_all.
Qed.

Lemma test_loss_is_mean_of_batch_losses_witness :
  exists L acc,
    test Sample.pixel_model Sample.even_dataset = Some (L, acc) /\
    pooled_loss Sample.pixel_model Sample.even_dataset = Some L.
Proof.
  refine (proj1 (proj2 (proj2 test_loss_is_mean_of_batch_losses))
            Sample.pixel_model 1 2 Sample.even_dataset
            even_dataset_evaluable _ _ _).
  - discriminate.
  - lia.
  - intros b [<-|[<-|[]]]; reflexivity.
Defined.

(** C10, as stated, fails.  Two batches of two examples each, one entry of
    the first with weight 0: the loss [test] returns is neither the loss of
    the four examples taken as one batch nor the mean of the losses of the
    four examples taken one by one. *)
Lemma equal_batches_unequal_losses :
  Forall (fun b : batch (T := R) => length (fst (fst b)) = 2)
         Sample.masked_dataset /\
  exists L acc L' L'' acc'',
    test Sample.pixel_model Sample.masked_dataset = Some (L, acc) /\
    pooled_loss Sample.pixel_model Sample.masked_dataset = Some L' /\
    test Sample.pixel_model (unbatch Sample.masked_dataset)
    = Some (L'', acc'') /\
    L <> L' /\ L <> L''.
Proof.
  split; [repeat constructor|].
  destruct (test_loss_closed_form _ _ _ masked_dataset_evaluable)
    as (acc & E).
  pose proof (pooled_loss_weighted_mean _ _ _ masked_dataset_evaluable) as Ep.
  destruct (test_loss_closed_form _ _ _ unbatched_masked_dataset_evaluable)
    as (acc'' & E'').
  do 5 eexists. split; [exact E|]. split; [exact Ep|]. split; [exact E''|].
  pose proof xent_unequal as Hx.
  cbv [Sample.masked_dataset unbatch map flat_map batch_terms loss_terms app
       batch_logits Sample.pixel_model fst snd hd flatten combine
       weighted_mean num_present filter Z.eqb negb length Nat.eqb
       weighted_sum Rsum fold_right INR].
  split; lra.
Qed.

(** ** Average precision of the ground truth *)

Module APFacts.
Import AP.

Local Abbreviation pos := (1%Q, 1%Z).
Local Abbreviation neg := (0%Q, 0%Z).

Lemma rank_insert_pos (l : list example) :
  Forall (fun e => e = pos \/ e = neg) l -> rank_insert pos l = pos :: l.
Proof.
  intros H. destruct H as [|e l [-> | ->] _]; reflexivity.
Qed.

Lemma rank_insert_neg (p n : nat) :
  rank_insert neg (repeat pos p ++ repeat neg n)
  = repeat pos p ++ repeat neg (S n).
Proof.
  induction p as [|p IH]; simpl.
  - destruct n; reflexivity.
  - now rewrite IH.
Qed.

(** Ranked by their own labels, the positives come first. *)
Lemma rank_binary (l : list example) :
  Forall (fun e => e = pos \/ e = neg) l ->
  exists n,
    rank l
    = repeat pos (length (filter is_positive l)) ++ repeat neg n.
Proof.
  intros H. induction H as [|e l He Hl [n IH]].
  - exists 0. reflexivity.
  - simpl rank. rewrite IH. destruct He as [-> | ->]; simpl.
    + exists n. rewrite rank_insert_pos; [reflexivity|].
      apply Forall_app. split.
      * apply Forall_forall. intros x Hx. apply repeat_spec in Hx. now left.
      * apply Forall_forall. intros x Hx. apply repeat_spec in Hx. now right.
    + exists (S n). apply rank_insert_neg.
Qed.

Lemma pr_sweep_neg_neg (rest : list example) (tp fp : nat) :
  pr_sweep (neg :: neg :: rest) tp fp = pr_sweep (neg :: rest) tp (S fp).
Proof. reflexivity. Qed.

Lemma pr_sweep_pos_pos (rest : list example) (tp fp : nat) :
  pr_sweep (pos :: pos :: rest) tp fp = pr_sweep (pos :: rest) (S tp) fp.
Proof. reflexivity. Qed.

Lemma pr_sweep_pos_neg (rest : list example) (tp fp : nat) :
  pr_sweep (pos :: neg :: rest) tp fp
  = (S tp, fp) :: pr_sweep (neg :: rest) (S tp) fp.
Proof. reflexivity. Qed.

Lemma pr_sweep_negatives (n tp fp : nat) :
  pr_sweep (neg :: repeat neg n) tp fp = [(tp, fp + S n)].
Proof.
  revert fp. induction n as [|n IH]; intros fp.
  - simpl. now rewrite Nat.add_1_r.
  - cbn [repeat]. rewrite pr_sweep_neg_neg, IH.
    f_equal. f_equal. lia.
Qed.

Lemma pr_sweep_binary (p n tp fp : nat) :
  pr_sweep (pos :: repeat pos p ++ repeat neg n) tp fp
  = (tp + S p, fp)
      :: (if n =? 0 then [] else [(tp + S p, fp + n)]).
Proof.
  revert tp. induction p as [|p IH]; intros tp.
  - cbn [repeat app]. destruct n as [|n].
    + simpl. now rewrite Nat.add_1_r.
    + cbn [repeat]. rewrite pr_sweep_pos_neg, pr_sweep_negatives.
      cbn [Nat.eqb]. now rewrite Nat.add_1_r.
  - cbn [repeat app]. rewrite pr_sweep_pos_pos, IH.
    replace (S tp + S p) with (tp + S (S p)) by lia. reflexivity.
Qed.

Lemma QofN_nonzero (n : nat) : 0 < n -> ~ (QofN n == 0)%Q.
Proof.
  intros H E. unfold QofN, Qeq in E. simpl in E. lia.
Qed.

(** The area under the curve of a perfect ranking. *)
Lemma pr_area_perfect (P n : nat) :
  0 < P ->
  (pr_area P 0%nat ((P, 0%nat) :: (if (n =? 0)%nat then [] else [(P, n)]))
   == 1)%Q.
Proof.
  intros HP. pose proof (QofN_nonzero P HP) as Hq.
  assert (E0 : (recall P 0 == 0)%Q) by (unfold recall, QofN; simpl; field; exact Hq).
  assert (E1 : (recall P P == 1)%Q) by (unfold recall; field; exact Hq).
  assert (E2 : (precision P 0 == 1)%Q)
    by (unfold precision; rewrite Nat.add_0_r; field; exact Hq).
  destruct (n =? 0); cbn [pr_area]; rewrite ?E0, ?E1, ?E2; ring.
Qed.

(** A class whose scores are its labels, with a positive among them. *)
Lemma average_precision_of_labels (l : list example) :
  Forall (fun e => e = pos \/ e = neg) l ->
  (exists e, In e l /\ is_positive e = true) ->
  (average_precision l == 1)%Q.
Proof.
  intros Hb (e & Hin & Hpos). unfold average_precision.
  destruct (rank_binary l Hb) as [n Er]. rewrite Er.
  assert (HP : 0 < length (filter is_positive l)).
  { assert (Hf : In e (filter is_positive l))
      by (apply filter_In; now split).
    destruct (filter is_positive l); [contradiction | simpl; lia]. }
  destruct (length (filter is_positive l)) as [|p] eqn:EP; [lia|].
  cbn [repeat app]. rewrite pr_sweep_binary. cbn [Nat.add].
  apply pr_area_perfect. lia.
Qed.

Lemma class_examples_of_labels (cid : nat) (gt valid : list (list Z)) :
  Forall (Forall (fun y => y = 0 \/ y = 1)%Z) gt ->
  Forall (fun e => e = pos \/ e = neg)
         (class_examples cid gt (map (map inject_Z) gt) valid).
Proof.
  intros Hb. unfold class_examples.
  apply Forall_map, Forall_forall. intros [[y q] v] Hin.
  apply filter_In in Hin. destruct Hin as [Hin _].
  apply in_combine_l in Hin. unfold column in Hin.
  rewrite map_map in Hin.
  rewrite (map_ext _ (fun row => inject_Z (nth cid row 0%Z))) in Hin
    by (intros row; apply (map_nth inject_Z row 0%Z cid)).
  rewrite <- (map_map (fun row => nth cid row 0%Z) inject_Z) in Hin.
  rewrite <- (map_id (map (fun row => nth cid row 0%Z) gt)) in Hin at 1.
  rewrite combine_map in Hin. apply in_map_iff in Hin.
  destruct Hin as ([y1 y2] & E & Hin). simpl in E. injection E as <- <-.
  assert (y1 = y2).
  { clear - Hin. induction (map (fun row => nth cid row 0%Z) gt) as [|a m IH];
      simpl in Hin; [contradiction|].
    destruct Hin as [E|Hin]; [injection E; congruence | now apply IH]. }
  subst y2. apply in_combine_l in Hin. apply in_map_iff in Hin.
  destruct Hin as (row & <- & Hrow). simpl.
  rewrite Forall_forall in Hb. specialize (Hb row Hrow).
  destruct (nth_in_or_default cid row 0%Z) as [Hn|Hn].
  - rewrite Forall_forall in Hb. destruct (Hb _ Hn) as [-> | ->]; auto.
  - rewrite Hn. now right.
Qed.

End APFacts.

(** The scenario of the specification: scores 0.9, 0.4, 0.7, 0.2 with the
    labels 1, 0, 1, 0 rank perfectly. *)
Example average_precision_scenario :
  (AP.average_precision
     [(9 # 10, 1%Z); (4 # 10, 0%Z); (7 # 10, 1%Z); (2 # 10, 0%Z)] == 1)%Q.
Proof. vm_compute. reflexivity. Qed.

(** C8.  For labels in {0, 1} and every class with a positive example
    among those whose weight for the class is not zero, the average
    precision of the ground-truth labels used as the scores is 1. *)
Theorem gt_AP_is_one (test_labels test_weights : list (list Z)) (cid : nat) :
  Forall (Forall (fun y => y = 0 \/ y = 1)%Z) test_labels ->
  cid < length (hd [] test_labels) ->
  (exists e,
      In e (AP.class_examples cid test_labels
              (map (map inject_Z) test_labels) test_weights) /\
      AP.is_positive e = true) ->
  (nth cid (AP.gt_AP test_labels test_weights) 0 == 1)%Q.
Proof.
  intros Hb Hc Hp. unfold AP.gt_AP, AP.compute_ap.
  set (f := fun cid0 =>
              AP.average_precision
                (AP.class_examples cid0 test_labels
                   (map (map inject_Z) test_labels) test_weights)).
  rewrite (nth_indep _ 0%Q (f 0)) by now rewrite length_map, length_seq.
  rewrite map_nth, seq_nth by exact Hc. simpl. unfold f.
  apply APFacts.average_precision_of_labels; [|exact Hp].
  now apply APFacts.class_examples_of_labels.
Qed.

Lemma gt_AP_is_one_witness :
  (nth 0 (AP.gt_AP Sample.test_labels Sample.test_weights) 0 == 1)%Q.
Proof.
  refine (gt_AP_is_one Sample.test_labels Sample.test_weights 0 _ _ _).
  - repeat (apply Forall_cons || apply Forall_nil);
      first [left; reflexivity | right; reflexivity].
  - simpl. lia.
  - exists (1%Q, 1%Z). split; [cbn; auto | reflexivity].
Defined.

(** * Further properties *)

From Stdlib Require Import ZifyNat.
Ltac Zify.zify_post_hook ::= Z.to_euclidean_division_equations.

(** ** mixup: a batch size that disagrees with the batch *)

Lemma bcast2_singleton_l {A B C : Type} (f : A -> B -> C) r (x : tensor A r)
    (b : tensor B (S r)) :
  bcast2 f (S r) [x] b = traverse (fun y => bcast2 f r x y) b.
Proof.
  simpl. destruct b as [|y [|z b]]; reflexivity.
Qed.

Lemma bcast2_singleton_r {A B C : Type} (f : A -> B -> C) r
    (a : tensor A (S r)) (y : tensor B r) :
  bcast2 f (S r) a [y] = traverse (fun x => bcast2 f r x y) a.
Proof.
  simpl. destruct a as [|x [|z a]]; reflexivity.
Qed.

Lemma bcast2_length_mismatch {A B C : Type} (f : A -> B -> C) r
    (a : tensor A (S r)) (b : tensor B (S r)) :
  length a <> length b -> length a <> 1 -> length b <> 1 ->
  bcast2 f (S r) a b = None.
Proof.
  intros Hab Ha Hb. simpl.
  destruct (length a =? length b) eqn:E;
    [apply Nat.eqb_eq in E; contradiction|].
  destruct a as [|x [|x' a]]; simpl in Ha; try contradiction;
    destruct b as [|y [|y' b]]; simpl in Hb; try contradiction;
    reflexivity.
Qed.

Section MixupEdges.
Context {T G : Type} {NT : Num T} {RS : RandomSource T G}.

(** X1.  A [batch_size] that is not the number of images is a shape error
    unless one of the two is 1, where broadcasting applies: [mixup] returns
    nothing, whatever the labels, the weights and the draws. *)
Theorem mixup_batch_size_mismatch_fails
    (images : tensor T 4) (labels l_weights : tensor T 2)
    (alpha : T) (batch_size : nat) (g : G) :
  batch_size <> length images ->
  batch_size <> 1 ->
  length images <> 1 ->
  mixup images labels l_weights alpha batch_size g = None.
Proof.
  intros Hne H1 HN.
  pose proof (random_beta_length alpha alpha batch_size g) as Hlam.
  unfold mixup, bind, draw, lift, ret, reshape_col.
  destruct (random_beta alpha alpha batch_size g) as [lam g1].
  simpl in Hlam. rewrite Hlam, Nat.eqb_refl.
  destruct (random_permutation batch_size g1) as [pi g2].
  destruct (tf_gather images pi); [|reflexivity].
  destruct (tf_gather labels pi); [|reflexivity].
  destruct (tf_gather l_weights pi); [|reflexivity].
  rewrite bcast2_length_mismatch; [reflexivity| | |exact HN];
    rewrite length_map, Hlam; assumption.
Qed.

End MixupEdges.

Lemma mixup_batch_size_mismatch_fails_witness :
  mixup Sample.images Sample.labels Sample.weights Sample.alpha 3
        Sample.script = None.
Proof.
  refine (mixup_batch_size_mismatch_fails
            Sample.images Sample.labels Sample.weights Sample.alpha 3
            Sample.script _ _ _); simpl; lia.
Defined.

Section MixupBroadcast.
Context {T G : Type} {NT : Num T} {RS : RandomSource T G}.

Lemma scale_rows_by_one r (dims : list nat) (l : T)
    (a : tensor T (S r)) (x0 : tensor T r) :
  Forall (has_shape r dims) a -> has_shape r dims x0 ->
  exists l_ r_,
    bcast2 nmul (S r) (map (single r) [l]) a = Some l_ /\
    bcast2 nmul (S r) (tmap (S r) (nsub nunit) (map (single r) [l])) [x0]
    = Some r_ /\
    bcast2 nadd (S r) l_ r_ = Some (map (fun x => mix r l x x0) a).
Proof.
  intros Ha H0.
  exists (map (tmap r (nmul l)) a), [tmap r (nmul (nsub nunit l)) x0].
  split; [|split].
  - cbn [map]. rewrite bcast2_singleton_l.
    apply traverse_map_Some. intros y _. apply bcast2_single.
  - change (tmap (S r) (nsub nunit) (map (single r) [l]))
      with [tmap r (nsub nunit) (single r l)].
    rewrite tmap_single, bcast2_singleton_l.
    unfold traverse. cbn [map sequence]. now rewrite bcast2_single.
  - rewrite bcast2_singleton_r.
    rewrite (traverse_map_Some _
               (fun x => tmap2 r nadd x (tmap r (nmul (nsub nunit l)) x0))).
    + now rewrite map_map.
    + intros x Hx. apply in_map_iff in Hx. destruct Hx as (y & <- & Hy).
      rewrite Forall_forall in Ha.
      apply (bcast2_same_shape nadd r dims); apply has_shape_tmap; auto.
Qed.

(** X2.  With [batch_size = 1] on a batch of any size [mixup] does not
    fail: the one coefficient and the one permutation [0] broadcast, and
    every example is mixed with example 0 using the same coefficient. *)
Theorem mixup_batch_size_one_broadcasts
    (images : tensor T 4) (labels l_weights : tensor T 2)
    (alpha : T) (g : G) (N C : nat) (dims : list nat) :
  has_shape 4 (N :: dims) images ->
  has_shape 2 [N; C] labels ->
  0 < N -> 0 < length l_weights ->
  exists l x0 y0,
    fst (random_beta alpha alpha 1 g) = [l] /\
    nth_error images 0 = Some x0 /\
    nth_error labels 0 = Some y0 /\
    mixup images labels l_weights alpha 1 g
    = Some (map (fun x => mix 3 l x x0) images,
            map (fun y => mix 1 l y y0) labels,
            l_weights,
            snd (random_permutation 1 (snd (random_beta alpha alpha 1 g)))).
Proof.
  intros [HiN Hif] [HlN Hlf] HN Hw.
  pose proof (random_beta_length alpha alpha 1 g) as Hlam.
  pose proof (random_permutation_perm 1
                (snd (random_beta alpha alpha 1 g))) as Hpi.
  simpl in Hpi. apply Permutation_sym, Permutation_length_1_inv in Hpi.
  destruct (random_beta alpha alpha 1 g) as [lam g1] eqn:E1. simpl in *.
  destruct lam as [|l [|l' lam]]; simpl in Hlam; try discriminate.
  destruct images as [|x0 images]; [simpl in HiN; lia|].
  destruct labels as [|y0 labels]; [simpl in HlN; lia|].
  destruct l_weights as [|w0 l_weights]; [simpl in Hw; lia|].
  exists l, x0, y0. repeat split.
  destruct (scale_rows_by_one 3 dims l (x0 :: images) x0 Hif)
    as (il & ir & Eil & Eir & Ei); [now inversion Hif|].
  destruct (scale_rows_by_one 1 [C] l (y0 :: labels) y0 Hlf)
    as (ll & lr_ & Ell & Elr & El); [now inversion Hlf|].
  unfold mixup, bind, draw, lift, ret, reshape_col. rewrite E1.
  cbn [length Nat.eqb].
  destruct (random_permutation 1 g1) as [pi g2]. simpl in Hpi. subst pi.
  assert (Egi : tf_gather (x0 :: images) [0]
                = Some (@cons (tensor T 3) x0 nil)) by reflexivity.
  assert (Egl : tf_gather (y0 :: labels) [0]
                = Some (@cons (tensor T 1) y0 nil)) by reflexivity.
  assert (Egw : tf_gather (w0 :: l_weights) [0]
                = Some (@cons (tensor T 1) w0 nil)) by reflexivity.
  simpl fst. simpl snd. rewrite Egi, Egl, Egw.
  now rewrite Eil, Eir, Ei, Ell, Elr, El.
Qed.

End MixupBroadcast.

Lemma mixup_batch_size_one_broadcasts_witness :
  exists l x0 y0,
    fst (random_beta Sample.alpha Sample.alpha 1 Sample.script) = [l] /\
    nth_error Sample.images 0 = Some x0 /\
    nth_error Sample.labels 0 = Some y0 /\
    mixup Sample.images Sample.labels Sample.weights Sample.alpha 1
          Sample.script
    = Some (map (fun x => mix 3 l x x0) Sample.images,
            map (fun y => mix 1 l y y0) Sample.labels,
            Sample.weights,
            snd (random_permutation 1
                   (snd (random_beta Sample.alpha Sample.alpha 1
                           Sample.script)))).
Proof.
  refine (mixup_batch_size_one_broadcasts
            Sample.images Sample.labels Sample.weights Sample.alpha
            Sample.script 4 2 [1; 1; 3] _ _ _ _).
  - cbn. repeat first [reflexivity | split | constructor].
  - cbn. repeat first [reflexivity | split | constructor].
  - lia.
  - simpl. lia.
Defined.

(** ** mixup: what the convex combination keeps *)

Lemma gather_nth_error {A : Type} (l l' : list A) (ord : list nat) :
  Forall2 (fun j x => nth_error l j = Some x) ord l' ->
  forall i j, nth_error ord i = Some j -> nth_error l' i = nth_error l j.
Proof.
  intros F. induction F as [|j0 x0 ord l' H0 _ IH]; intros [|i] j Ej;
    simpl in *; try discriminate.
  - injection Ej as <-. now rewrite H0.
  - now apply IH.
Qed.

Lemma mix_S {T : Type} {NT : Num T} r (l : T) (x y : tensor T (S r)) :
  mix (S r) l x y = map (fun p => mix r l (fst p) (snd p)) (combine x y).
Proof.
  unfold mix. simpl. rewrite combine_map, map_map. reflexivity.
Qed.

Lemma map_snd_combine {A B : Type} (l : list A) (m : list B) :
  length l = length m -> map snd (combine l m) = m.
Proof.
  revert m. induction l as [|x l IH]; intros [|y m] H; simpl in *;
    try discriminate; [reflexivity|].
  f_equal. apply IH. lia.
Qed.

Lemma mix_in_range r (lo hi l : R) :
  (0 <= l <= 1)%R ->
  forall x y : tensor R r,
    tensor_Forall r (fun v => lo <= v <= hi)%R x ->
    tensor_Forall r (fun v => lo <= v <= hi)%R y ->
    tensor_Forall r (fun v => lo <= v <= hi)%R (mix r l x y).
Proof.
  intros Hl. induction r as [|r IH]; intros x y Hx Hy.
  - unfold mix. simpl in *. nra.
  - rewrite mix_S. simpl in *. apply Forall_map, Forall_forall.
    intros [a b] Hp. simpl. rewrite Forall_forall in Hx, Hy.
    apply IH; [apply Hx | apply Hy].
    + eapply in_combine_l; eauto.
    + eapply in_combine_r; eauto.
Qed.

Lemma mix_one r : forall s (x y : tensor R r),
  has_shape r s x -> has_shape r s y -> mix r 1%R x y = x.
Proof.
  induction r as [|r IH]; intros s x y Hx Hy.
  - unfold mix. simpl. ring.
  - rewrite mix_S. simpl in Hx, Hy. destruct s as [|n s]; [contradiction|].
    destruct Hx as [Lx Fx], Hy as [Ly Fy].
    rewrite <- (map_fst_combine x y) at 2
      by (transitivity n; [exact Lx | symmetry; exact Ly]).
    apply map_ext_in. intros [a b] Hp. simpl.
    rewrite Forall_forall in Fx, Fy. apply (IH s); [apply Fx | apply Fy].
    + eapply in_combine_l; eauto.
    + eapply in_combine_r; eauto.
Qed.

Lemma mix_zero r : forall s (x y : tensor R r),
  has_shape r s x -> has_shape r s y -> mix r 0%R x y = y.
Proof.
  induction r as [|r IH]; intros s x y Hx Hy.
  - unfold mix. simpl. ring.
  - rewrite mix_S. simpl in Hx, Hy. destruct s as [|n s]; [contradiction|].
    destruct Hx as [Lx Fx], Hy as [Ly Fy].
    rewrite <- (map_snd_combine x y) at 2
      by (transitivity n; [exact Lx | symmetry; exact Ly]).
    apply map_ext_in. intros [a b] Hp. simpl.
    rewrite Forall_forall in Fx, Fy. apply (IH s); [apply Fx | apply Fy].
    + eapply in_combine_l; eauto.
    + eapply in_combine_r; eauto.
Qed.

Lemma interpolate_constant r (s : list nat) (c : R) (pick : bool) :
  (forall x y : tensor R r,
      has_shape r s x -> has_shape r s y ->
      mix r c x y = if pick then x else y) ->
  forall (lam : list R) (a b : tensor R (S r)),
    Forall (fun l => l = c) lam ->
    length lam = length a -> length a = length b ->
    Forall (has_shape r s) a -> Forall (has_shape r s) b ->
    interpolate r lam a b = if pick then a else b.
Proof.
  intros Hmix. unfold interpolate.
  induction lam as [|l lam IH]; intros [|x a] [|y b] Hc Hl Hab Fa Fb;
    simpl in *; try discriminate; [now destruct pick|].
  inversion Hc as [|? ? -> Hc']; subst.
  inversion Fa as [|? ? Hx Fa']; subst.
  inversion Fb as [|? ? Hy Fb']; subst.
  rewrite (Hmix x y Hx Hy), (IH a b Hc') by (auto; lia).
  now destruct pick.
Qed.

Section MixupReal.
Context {G : Type} {RS : RandomSource R G}.

(** X3.  Over exact arithmetic an example that the permutation sends to
    itself comes back unchanged, image and label, whatever its
    coefficient. *)
Theorem mixup_fixed_point_unchanged
    (images : tensor R 4) (labels l_weights : tensor R 2)
    (alpha : R) (g : G) (dims : list nat) (C i : nat) :
  let N := length images in
  let pi := fst (random_permutation N (snd (random_beta alpha alpha N g))) in
  has_shape 4 (N :: dims) images ->
  has_shape 2 [N; C] labels ->
  length l_weights = N ->
  nth_error pi i = Some i ->
  exists images' labels' weights' g',
    mixup images labels l_weights alpha N g
    = Some (images', labels', weights', g') /\
    nth_error images' i = nth_error images i /\
    nth_error labels' i = nth_error labels i.
Proof.
  intros N pi Him Hlb Hw Hfix.
  pose proof (random_beta_length alpha alpha N g) as Hlam.
  pose proof (random_permutation_perm N
                (snd (random_beta alpha alpha N g))) as Hpi.
  fold pi in Hpi. pose proof Hlb as [HlN _].
  destruct (mixup_run images labels l_weights alpha g dims C Him Hlb Hw)
    as (images_new & labels_new & Egi & Egl & Run).
  fold N pi in Egi, Egl, Run.
  destruct (tf_gather_permutation images pi Hpi) as (i2 & Egi' & _ & _ & Fi).
  destruct (tf_gather_permutation labels pi)
    as (l2 & Egl' & _ & _ & Fl); [now rewrite HlN|].
  rewrite Egi in Egi'. injection Egi' as <-.
  rewrite Egl in Egl'. injection Egl' as <-.
  pose proof (gather_nth_error _ _ _ Fi i i Hfix) as Ei.
  pose proof (gather_nth_error _ _ _ Fl i i Hfix) as El.
  assert (Hi : i < N).
  { apply permutation_in_range in Hpi. rewrite Forall_forall in Hpi.
    apply Hpi. eapply nth_error_In; eauto. }
  destruct (nth_error (fst (random_beta alpha alpha N g)) i) as [l|] eqn:Elam;
    [|apply nth_error_None in Elam; lia].
  destruct (nth_error images i) as [x|] eqn:Ex;
    [|apply nth_error_None in Ex; fold N in Ex; lia].
  destruct (nth_error labels i) as [y|] eqn:Ey;
    [|apply nth_error_None in Ey; rewrite HlN in Ey; lia].
  do 4 eexists. split; [exact Run|]. split.
  - rewrite (nth_error_interpolate 3 _ _ _ i l x x Elam Ex Ei).
    now rewrite mix_self.
  - rewrite (nth_error_interpolate 1 _ _ _ i l y y Elam Ey El).
    now rewrite mix_self.
Qed.

(** X4.  Over exact arithmetic, with coefficients in [0, 1] the mixed
    batch stays within the range of the batch: if every pixel and every
    label entry lies between [lo] and [hi], so does every mixed pixel and
    every mixed label entry (binary labels give mixed labels in the unit
    interval).  In floating point the two products are rounded one by one
    and a mixed entry can leave the range by a rounding error. *)
Theorem mixup_stays_in_range
    (images : tensor R 4) (labels l_weights : tensor R 2)
    (alpha : R) (g : G) (dims : list nat) (C : nat) (lo hi lo' hi' : R) :
  let N := length images in
  has_shape 4 (N :: dims) images ->
  has_shape 2 [N; C] labels ->
  length l_weights = N ->
  Forall (fun l => 0 <= l <= 1)%R (fst (random_beta alpha alpha N g)) ->
  tensor_Forall 4 (fun v => lo <= v <= hi)%R images ->
  tensor_Forall 2 (fun v => lo' <= v <= hi')%R labels ->
  exists images' labels' weights' g',
    mixup images labels l_weights alpha N g
    = Some (images', labels', weights', g') /\
    tensor_Forall 4 (fun v => lo <= v <= hi)%R images' /\
    tensor_Forall 2 (fun v => lo' <= v <= hi')%R labels'.
Proof.
  intros N Him Hlb Hw Hlam Hri Hrl.
  pose proof (random_permutation_perm N
                (snd (random_beta alpha alpha N g))) as Hpi.
  pose proof Hlb as [HlN _].
  destruct (mixup_run images labels l_weights alpha g dims C Him Hlb Hw)
    as (images_new & labels_new & Egi & Egl & Run).
  fold N in Egi, Egl, Run.
  destruct (tf_gather_permutation images _ Hpi) as (i2 & Egi' & Pi & _).
  destruct (tf_gather_permutation labels
              (fst (random_permutation N (snd (random_beta alpha alpha N g)))))
    as (l2 & Egl' & Pl & _); [now rewrite HlN|].
  fold N in Egi'.
  rewrite Egi in Egi'. injection Egi' as <-.
  rewrite Egl in Egl'. injection Egl' as <-.
  assert (Key : forall r (P : R -> Prop) (a b : tensor R (S r)),
             (forall l x y, (0 <= l <= 1)%R ->
                            tensor_Forall r P x -> tensor_Forall r P y ->
                            tensor_Forall r P (mix r l x y)) ->
             tensor_Forall (S r) P a -> Permutation b a ->
             tensor_Forall (S r) P
               (interpolate r (fst (random_beta alpha alpha N g)) a b)).
  { intros r P a b Hmix Ha Pb. simpl. unfold interpolate.
    apply Forall_map, Forall_forall. intros [l [x y]] Hp. simpl.
    simpl in Ha. rewrite Forall_forall in Ha, Hlam.
    pose proof (in_combine_r _ _ _ _ Hp) as Hxy.
    apply Hmix.
    - apply Hlam. eapply in_combine_l; eauto.
    - apply Ha. eapply in_combine_l; eauto.
    - apply Ha. apply (Permutation_in _ Pb). eapply in_combine_r; eauto. }
  do 4 eexists. split; [exact Run|]. split.
  - apply Key; auto. intros l x y Hl. now apply mix_in_range.
  - apply Key; auto. intros l x y Hl. now apply mix_in_range.
Qed.

(** X5.  Over exact arithmetic the two ends of the coefficient range
    select: with every coefficient 1 [mixup] returns the batch it was
    given, with every coefficient 0 it returns the batch gathered along the
    permutation. *)
Theorem mixup_extreme_coefficients
    (images : tensor R 4) (labels l_weights : tensor R 2)
    (alpha : R) (g : G) (dims : list nat) (C : nat) :
  let N := length images in
  let draw1 := random_beta alpha alpha N g in
  let draw2 := random_permutation N (snd draw1) in
  has_shape 4 (N :: dims) images ->
  has_shape 2 [N; C] labels ->
  length l_weights = N ->
  (Forall (fun l => l = 1%R) (fst draw1) ->
   mixup images labels l_weights alpha N g
   = Some (images, labels, l_weights, snd draw2)) /\
  (Forall (fun l => l = 0%R) (fst draw1) ->
   exists images_new labels_new,
     tf_gather images (fst draw2) = Some images_new /\
     tf_gather labels (fst draw2) = Some labels_new /\
     mixup images labels l_weights alpha N g
     = Some (images_new, labels_new, l_weights, snd draw2)).
Proof.
  intros N draw1 draw2 Him Hlb Hw.
  pose proof (random_beta_length alpha alpha N g) as Hlam.
  pose proof (random_permutation_perm N (snd draw1)) as Hpi.
  fold draw1 in Hlam. fold draw2 in Hpi.
  pose proof Him as [HiN Fi]. pose proof Hlb as [HlN Fl].
  destruct (mixup_run images labels l_weights alpha g dims C Him Hlb Hw)
    as (images_new & labels_new & Egi & Egl & Run).
  fold N draw1 draw2 in Egi, Egl, Run.
  destruct (tf_gather_permutation images (fst draw2) Hpi)
    as (i2 & Egi' & Pi & Li & _).
  destruct (tf_gather_permutation labels (fst draw2))
    as (l2 & Egl' & Pl & Ll & _); [now rewrite HlN|].
  rewrite Egi in Egi'. injection Egi' as <-.
  rewrite Egl in Egl'. injection Egl' as <-.
  assert (Fi' : Forall (has_shape 3 dims) images_new)
    by (eapply Permutation_Forall; [symmetry; exact Pi | exact Fi]).
  assert (Fl' : Forall (has_shape 1 [C]) labels_new)
    by (eapply Permutation_Forall; [symmetry; exact Pl | exact Fl]).
  split; intros Hc.
  - rewrite Run.
    rewrite (interpolate_constant 3 dims 1%R true (mix_one 3 dims)
               (fst draw1) images images_new Hc)
      by (auto; congruence).
    rewrite (interpolate_constant 1 [C] 1%R true (mix_one 1 [C])
               (fst draw1) labels labels_new Hc)
      by (auto; congruence).
    reflexivity.
  - exists images_new, labels_new. split; [exact Egi|]. split; [exact Egl|].
    rewrite Run.
    rewrite (interpolate_constant 3 dims 0%R false (mix_zero 3 dims)
               (fst draw1) images images_new Hc)
      by (auto; congruence).
    rewrite (interpolate_constant 1 [C] 0%R false (mix_zero 1 [C])
               (fst draw1) labels labels_new Hc)
      by (auto; congruence).
    reflexivity.
Qed.

End MixupReal.

Lemma mixup_fixed_point_unchanged_witness :
  exists images' labels' weights' g',
    mixup Sample.imagesR Sample.labelsR Sample.weightsR (1 / 5)%R 2
          Sample.scriptR
    = Some (images', labels', weights', g') /\
    nth_error images' 0 = nth_error Sample.imagesR 0 /\
    nth_error labels' 0 = nth_error Sample.labelsR 0.
Proof.
  refine (mixup_fixed_point_unchanged
            Sample.imagesR Sample.labelsR Sample.weightsR (1 / 5)%R
            Sample.scriptR [1; 1; 3] 2 0 _ _ _ _).
  - cbn. repeat first [reflexivity | split | constructor].
  - cbn. repeat first [reflexivity | split | constructor].
  - reflexivity.
  - reflexivity.
Defined.

Lemma mixup_stays_in_range_witness :
  exists images' labels' weights' g',
    mixup Sample.imagesR Sample.labelsR Sample.weightsR (1 / 5)%R 2
          Sample2.script_swap
    = Some (images', labels', weights', g') /\
    tensor_Forall 4 (fun v => 1 <= v <= 6)%R images' /\
    tensor_Forall 2 (fun v => 0 <= v <= 1)%R labels'.
Proof.
  refine (mixup_stays_in_range
            Sample.imagesR Sample.labelsR Sample.weightsR (1 / 5)%R
            Sample2.script_swap [1; 1; 3] 2 1 6 0 1 _ _ _ _ _ _).
  - cbn. repeat first [reflexivity | split | constructor].
  - cbn. repeat first [reflexivity | split | constructor].
  - reflexivity.
  - cbn. repeat constructor; lra.
  - cbn. repeat constructor; lra.
  - cbn. repeat constructor; lra.
Defined.

Lemma mixup_extreme_coefficients_witness :
  mixup Sample.imagesR Sample.labelsR Sample.weightsR (1 / 5)%R 2
        Sample2.script_ones
  = Some (Sample.imagesR, Sample.labelsR, Sample.weightsR,
          {| beta_draws := []; perm_draws := [] |}).
Proof.
  refine (proj1 (mixup_extreme_coefficients
                   Sample.imagesR Sample.labelsR Sample.weightsR (1 / 5)%R
                   Sample2.script_ones [1; 1; 3] 2 _ _ _) _).
  - cbn. repeat first [reflexivity | split | constructor].
  - cbn. repeat first [reflexivity | split | constructor].
  - reflexivity.
  - cbn. repeat constructor.
Defined.

(** ** The evaluator: failures, bounds and order *)

Lemma tzip_length_mismatch {A B C : Type} (f : A -> B -> C) r
    (a : tensor A (S r)) (b : tensor B (S r)) :
  length a <> length b -> tzip f (S r) a b = None.
Proof.
  intros H. simpl.
  destruct (length a =? length b) eqn:E;
    [apply Nat.eqb_eq in E; contradiction | reflexivity].
Qed.

Section EvaluatorEdges.
Context {T : Type} {NT : Num T} {ET : Elementary T}.

Lemma test_loop_fails (model : tensor T 4 -> bool -> tensor T 2)
    (b : batch (T := T)) (dataset : list (batch (T := T))) :
  (forall acc, test_batch model acc b = None) ->
  In b dataset ->
  forall acc, test_loop model acc dataset = None.
Proof.
  intros Hb. induction dataset as [|b' rest IH]; intros Hin acc;
    [contradiction|].
  simpl. destruct Hin as [-> | Hin].
  - now rewrite Hb.
  - destruct (test_batch model acc b'); [now apply IH | reflexivity].
Qed.

(** X6.  When, in some batch, the model returns logits for another number
    of examples than the labels have, [test] raises: it returns nothing,
    wherever in the dataset that batch is and for every dtype. *)
Theorem test_fails_on_batch_mismatch
    (model : tensor T 4 -> bool -> tensor T 2)
    (dataset : list (batch (T := T))) (b : batch (T := T)) :
  In b dataset ->
  length (snd (fst b)) <> length (model (fst (fst b)) false) ->
  test model dataset = None.
Proof.
  intros Hin Hne. unfold test.
  rewrite (test_loop_fails model b dataset); [reflexivity| |exact Hin].
  intros [m1 m2]. destruct b as [[images labels] weights].
  simpl in Hne. unfold test_batch, sigmoid_cross_entropy.
  rewrite tzip_length_mismatch; [reflexivity|].
  change (tmap 2 of_Z labels) with (map (tmap 1 (of_Z (T := T))) labels).
  now rewrite length_map.
Qed.

End EvaluatorEdges.

Lemma test_fails_on_batch_mismatch_witness :
  test (fun (images : tensor R 4) (_ : bool) => ([] : tensor R 2))
       Sample.even_dataset = None.
Proof.
  refine (test_fails_on_batch_mismatch
            (fun (images : tensor R 4) (_ : bool) => ([] : tensor R 2))
            Sample.even_dataset
            ([ [[[0]]]; [[[1]]] ]%R, [[0]; [1]]%Z, [[1]; [1]]%Z) _ _).
  - left. reflexivity.
  - simpl. discriminate.
Defined.

Lemma Rsum_permutation (l l' : list R) :
  Permutation l l' -> Rsum l = Rsum l'.
Proof.
  unfold Rsum. intros P. induction P; simpl; try lra.
Qed.

Lemma list_sum_permutation (l l' : list nat) :
  Permutation l l' -> list_sum l = list_sum l'.
Proof.
  intros P. induction P; simpl; lia.
Qed.

Lemma batch_matches_le_entries (model : tensor R 4 -> bool -> tensor R 2)
    (b : batch (T := R)) :
  batch_matches model b <= batch_entries b.
Proof.
  unfold batch_matches, batch_entries.
  etransitivity; [apply filter_length_le|].
  rewrite length_combine. apply Nat.le_min_r.
Qed.

Lemma list_sum_le {A : Type} (f h : A -> nat) (l : list A) :
  (forall x, f x <= h x) -> list_sum (map f l) <= list_sum (map h l).
Proof.
  intros H. induction l as [|x l IH]; simpl; [lia|].
  specialize (H x). lia.
Qed.

(** X7.  The accuracy [test] returns is a share: with at least one label
    entry in the dataset it lies between 0 and 1. *)
Theorem test_accuracy_in_unit_interval
    (model : tensor R 4 -> bool -> tensor R 2) (C : nat)
    (dataset : list (batch (T := R))) :
  Forall (evaluable model C) dataset ->
  0 < list_sum (map batch_entries dataset) ->
  exists loss acc,
    test model dataset = Some (loss, acc) /\ (0 <= acc <= 1)%R.
Proof.
  intros Hev Hpos.
  destruct (test_result model C dataset Hev) as (losses & _ & E).
  do 2 eexists. split; [exact E|].
  pose proof (list_sum_le (batch_matches model) batch_entries dataset
                (batch_matches_le_entries model)) as Hle.
  apply le_INR in Hle. apply lt_INR in Hpos. simpl in Hpos.
  pose proof (pos_INR (list_sum (map (batch_matches model) dataset))) as H0.
  split.
  - apply Rmult_le_pos; [exact H0|]. left. now apply Rinv_0_lt_compat.
  - apply (Rmult_le_reg_r (INR (list_sum (map batch_entries dataset))));
      [exact Hpos|].
    unfold Rdiv. rewrite Rmult_assoc, Rinv_l by lra. lra.
Qed.

Lemma test_accuracy_in_unit_interval_witness :
  exists loss acc,
    test Sample.pixel_model Sample.even_dataset = Some (loss, acc) /\
    (0 <= acc <= 1)%R.
Proof.
  refine (test_accuracy_in_unit_interval
            Sample.pixel_model 1 Sample.even_dataset
            even_dataset_evaluable _).
  cbn. lia.
Defined.

(** X8.  The result of [test] does not depend on the order in which the
    dataset yields its batches (over exact arithmetic). *)
Theorem test_batch_order_irrelevant
    (model : tensor R 4 -> bool -> tensor R 2) (C : nat)
    (dataset dataset' : list (batch (T := R))) :
  Forall (evaluable model C) dataset ->
  Permutation dataset dataset' ->
  test model dataset' = test model dataset.
Proof.
  intros Hev P.
  assert (Hev' : Forall (evaluable model C) dataset')
    by (eapply Permutation_Forall; eauto).
  destruct (test_result model C dataset Hev) as (losses & Fl & E).
  destruct (test_result model C dataset' Hev') as (losses' & Fl' & E').
  rewrite E, E'.
  rewrite (batch_losses_weighted_means model C dataset losses Hev Fl).
  rewrite (batch_losses_weighted_means model C dataset' losses' Hev' Fl').
  rewrite (Rsum_permutation _ _
             (Permutation_map
                (fun b => weighted_mean (batch_terms model b)) P)).
  rewrite (Permutation_length P).
  rewrite (list_sum_permutation _ _
             (Permutation_map (batch_matches model) P)).
  rewrite (list_sum_permutation _ _ (Permutation_map batch_entries P)).
  reflexivity.
Qed.

Lemma test_batch_order_irrelevant_witness :
  test Sample.pixel_model (rev Sample.even_dataset)
  = test Sample.pixel_model Sample.even_dataset.
Proof.
  refine (test_batch_order_irrelevant
            Sample.pixel_model 1 Sample.even_dataset
            (rev Sample.even_dataset) even_dataset_evaluable _).
  apply Permutation_rev.
Defined.

(** ** The evaluator: the sign of the loss and the decision threshold *)

Lemma xent_nonneg (z x : R) :
  (0 <= z <= 1)%R -> (0 <= sigmoid_cross_entropy_with_logits z x)%R.
Proof.
  intros Hz. simpl.
  assert (Hln : (0 < ln (1 + exp (- Rabs x)))%R).
  { rewrite <- ln_1. apply ln_increasing; [lra|].
    pose proof (exp_pos (- Rabs x)). lra. }
  assert (Hm : (0 <= Rmax x 0 - x * z)%R).
  { destruct (Rle_dec 0 x) as [Hx|Hx].
    - rewrite Rmax_left by exact Hx. nra.
    - rewrite Rmax_right by lra. nra. }
  lra.
Qed.

Lemma tensor_Forall_flatten {A : Type} (P : A -> Prop) r :
  forall t : tensor A r, tensor_Forall r P t -> Forall P (flatten r t).
Proof.
  induction r as [|r IH]; intros t H; simpl in *.
  - now constructor.
  - induction H as [|x t Hx _ IHt]; simpl; [constructor|].
    apply Forall_app. split; [now apply IH | exact IHt].
Qed.

Lemma weighted_mean_nonneg (terms : list (R * Z)) :
  Forall (fun t => (0 <= fst t)%R /\ (0 <= snd t)%Z) terms ->
  (0 <= weighted_mean terms)%R.
Proof.
  intros H.
  assert (Hs : (0 <= weighted_sum terms)%R).
  { unfold weighted_sum, Rsum. induction H as [|t ts [H1 H2] _ IH]; simpl;
      [lra|].
    apply IZR_le in H2. nra. }
  unfold weighted_mean.
  destruct (num_present terms =? 0) eqn:E; [lra|].
  apply Nat.eqb_neq in E.
  apply Rmult_le_pos; [exact Hs|].
  left. apply Rinv_0_lt_compat. apply lt_0_INR. lia.
Qed.

Lemma Rsum_nonneg (l : list R) :
  Forall (fun v => 0 <= v)%R l -> (0 <= Rsum l)%R.
Proof.
  unfold Rsum. intros H. induction H; simpl; lra.
Qed.

(** X9.  With labels in {0, 1} and weights that are not negative, the loss
    [test] returns on a dataset that is not empty is not negative. *)
Theorem test_loss_nonnegative
    (model : tensor R 4 -> bool -> tensor R 2) (C : nat)
    (dataset : list (batch (T := R))) :
  Forall (evaluable model C) dataset ->
  dataset <> [] ->
  (forall b, In b dataset ->
             tensor_Forall 2 (fun z => 0 <= z <= 1)%Z (snd (fst b)) /\
             tensor_Forall 2 (fun w => 0 <= w)%Z (snd b)) ->
  exists loss acc,
    test model dataset = Some (loss, acc) /\ (0 <= loss)%R.
Proof.
  intros Hev Hne Hb.
  destruct (test_loss_closed_form model C dataset Hev) as (acc & E).
  do 2 eexists. split; [exact E|].
  apply Rmult_le_pos.
  - apply Rsum_nonneg, Forall_map, Forall_forall. intros b Hin.
    apply weighted_mean_nonneg.
    destruct (Hb b Hin) as [Hl Hw].
    apply tensor_Forall_flatten in Hl. apply tensor_Forall_flatten in Hw.
    rewrite Forall_forall in Hl, Hw.
    unfold batch_terms, loss_terms. apply Forall_map, Forall_forall.
    intros [[z x] w] Hp. simpl. split.
    + apply in_combine_l, in_combine_l in Hp. specialize (Hl z Hp).
      apply xent_nonneg. split; [apply (IZR_le 0) | apply (IZR_le z 1)]; lia.
    + apply in_combine_r in Hp. now apply Hw.
  - left. apply Rinv_0_lt_compat. apply lt_0_INR.
    destruct dataset; [contradiction | simpl; lia].
Qed.

Lemma test_loss_nonnegative_witness :
  exists loss acc,
    test Sample.pixel_model Sample.masked_dataset = Some (loss, acc) /\
    (0 <= loss)%R.
Proof.
  refine (test_loss_nonnegative
            Sample.pixel_model 2 Sample.masked_dataset
            masked_dataset_evaluable _ _).
  - discriminate.
  - intros b [<-|[<-|[]]]; cbn; repeat constructor; lia.
Defined.

(** [tf.round] and the cast on a value of the unit interval: 1 above
    1/2, and 0 up to 1/2, the tie included. *)
Lemma round_unit_interval (s : R) :
  (0 <= s <= 1)%R ->
  cast_int32 (tf_round s) = if Rlt_dec (1 / 2) s then 1%Z else 0%Z.
Proof.
  intros [H0 H1].
  assert (Er : round_half_even s = if Rlt_dec (1 / 2) s then 1%Z else 0%Z).
  { unfold round_half_even.
    destruct (Req_dec s 1) as [->|Hne].
    - replace (Zfloor 1) with 1%Z by (symmetry; apply Zfloor_eq; simpl; lra).
      simpl IZR.
      destruct (Rlt_dec (1 - 1) (1 / 2)) as [_|L]; [|exfalso; lra].
      destruct (Rlt_dec (1 / 2) 1) as [_|L]; [reflexivity | exfalso; lra].
    - replace (Zfloor s) with 0%Z by (symmetry; apply Zfloor_eq; simpl; lra).
      simpl IZR.
      destruct (Rlt_dec (s - 0) (1 / 2)) as [L|L].
      + destruct (Rlt_dec (1 / 2) s) as [U|_]; [exfalso; lra | reflexivity].
      + destruct (Rlt_dec (1 / 2) (s - 0)) as [U|U].
        * destruct (Rlt_dec (1 / 2) s) as [_|V];
            [reflexivity | exfalso; lra].
        * destruct (Rlt_dec (1 / 2) s) as [V|_];
            [exfalso; lra | reflexivity]. }
  change (cast_int32 (tf_round s))
    with (if Rle_dec 0 (IZR (round_half_even s))
          then Zfloor (IZR (round_half_even s))
          else Zceil (IZR (round_half_even s))).
  rewrite Er.
  destruct (Rlt_dec (1 / 2) s); (destruct (Rle_dec 0 _) as [Hle|Hle];
    [apply ZfloorZ | exfalso; apply Hle; lra]).
Qed.

Lemma batch_prediction_of_logits
    (model : tensor R 4 -> bool -> tensor R 2) (b : batch (T := R)) :
  batch_prediction model b
  = tmap 2 (fun x => if Rlt_dec 0 x then 1%Z else 0%Z)
         (batch_logits model b).
Proof.
  unfold batch_prediction. generalize (batch_logits model b). intros t.
  simpl. rewrite !map_map. apply map_ext. intros row.
  rewrite !map_map. apply map_ext. intros x. apply prediction_of_logit.
Qed.

(** X10.  The prediction of [test] is 1 exactly where the sigmoid of the
    logit is above 1/2: [tf.round] and the cast send a value of the unit
    interval above 1/2 to 1 and every other, the tie at 1/2 included (half
    to even), to 0.  Over exact arithmetic the sigmoid is above 1/2
    exactly for a positive logit, and the threshold is the logit 0; a
    sigmoid kernel that rounds, as the float32 one, can return 1/2 itself
    for a small positive logit, which is predicted 0. *)
Theorem prediction_threshold
    (model : tensor R 4 -> bool -> tensor R 2) (b : batch (T := R)) :
  (forall s : R,
      (0 <= s <= 1)%R ->
      cast_int32 (tf_round s) = if Rlt_dec (1 / 2) s then 1%Z else 0%Z) /\
  batch_prediction model b
  = tmap 2 (fun x => if Rlt_dec (1 / 2) (sigmoid x) then 1%Z else 0%Z)
         (batch_logits model b) /\
  batch_prediction model b
  = tmap 2 (fun x => if Rlt_dec 0 x then 1%Z else 0%Z)
         (batch_logits model b).
Proof.
  split; [exact round_unit_interval|]. split.
  - unfold batch_prediction. generalize (batch_logits model b). intros t.
    simpl. rewrite !map_map. apply map_ext. intros row.
    rewrite !map_map. apply map_ext. intros x.
    apply round_unit_interval.
    destruct (sigmoid_bounds x) as [L U]. split; apply Rlt_le; assumption.
  - apply batch_prediction_of_logits.
Qed.

Lemma prediction_threshold_witness :
  cast_int32 (tf_round (1 / 2)%R) = 0%Z /\
  cast_int32 (tf_round (3 / 4)%R) = 1%Z.
Proof.
  split.
  - rewrite (proj1 (prediction_threshold (fun _ _ => []) ([], [], []))
               (1 / 2)%R) by lra.
    destruct (Rlt_dec (1 / 2) (1 / 2)) as [H|_]; [lra | reflexivity].
  - rewrite (proj1 (prediction_threshold (fun _ _ => []) ([], [], []))
               (3 / 4)%R) by lra.
    destruct (Rlt_dec (1 / 2) (3 / 4)) as [_|H]; [reflexivity | lra].
Defined.

(** X11.  When in every batch the labels are what [test] itself predicts
    from the logits, the accuracy it returns is 1. *)
Theorem test_accuracy_of_perfect_model
    (model : tensor R 4 -> bool -> tensor R 2) (C : nat)
    (dataset : list (batch (T := R))) :
  Forall (evaluable model C) dataset ->
  0 < list_sum (map batch_entries dataset) ->
  (forall b, In b dataset -> snd (fst b) = batch_prediction model b) ->
  exists loss, test model dataset = Some (loss, 1%R).
Proof.
  intros Hev Hpos Hb.
  destruct (test_result model C dataset Hev) as (losses & _ & E).
  eexists. rewrite E. f_equal. f_equal.
  assert (Em : map (batch_matches model) dataset = map batch_entries dataset).
  { apply map_ext_in. intros b Hin. unfold batch_matches, batch_entries.
    rewrite <- (Hb b Hin). generalize (flatten 2 (snd (fst b))). intros l.
    induction l as [|z l IH]; simpl; [reflexivity|].
    rewrite Z.eqb_refl. simpl. now rewrite IH. }
  rewrite Em. apply lt_INR in Hpos. simpl in Hpos.
  field. lra.
Qed.

Lemma test_accuracy_of_perfect_model_witness :
  exists loss,
    test Sample.pixel_model Sample2.perfect_dataset = Some (loss, 1%R).
Proof.
  refine (test_accuracy_of_perfect_model
            Sample.pixel_model 1 Sample2.perfect_dataset _ _ _).
  - repeat constructor; exists 2; cbn;
      repeat first [reflexivity | split | constructor].
  - cbn. lia.
  - intros b [<-|[]]. rewrite batch_prediction_of_logits. cbn.
    destruct (Rlt_dec 0 0) as [H|_]; [lra|].
    destruct (Rlt_dec 0 1) as [_|H]; [reflexivity | lra].
Defined.

(** ** The schedule *)

Lemma npow_half_le (k k' : nat) :
  k <= k' -> (npow (1 / 2)%R k' <= npow (1 / 2)%R k)%R.
Proof.
  assert (Hpos : forall n, (0 < npow (1 / 2)%R n)%R)
    by (induction n; simpl; lra).
  induction 1 as [|k' _ IH]; [lra|].
  simpl. specialize (Hpos k'). lra.
Qed.

(** X12.  The schedule that [main] logs as "LR", over exact arithmetic: it
    is the initial rate for the first 5000 steps, it halves from one step
    to the step 5000 later, and for a rate that is not negative it never
    grows. *)
Theorem decayed_lr_staircase (args : Args (T := R)) :
  (forall s, s < 5000 -> decayed_lr args s = lr args) /\
  (forall s, decayed_lr args (s + 5000) = (decayed_lr args s / 2)%R) /\
  (forall s s', (0 <= lr args)%R -> s <= s' ->
                (decayed_lr args s' <= decayed_lr args s)%R).
Proof.
  unfold decayed_lr, exponential_decay. split; [|split].
  - intros s Hs. rewrite Nat.div_small by exact Hs. simpl. ring.
  - intros s. replace (s + 5000) with (s + 1 * 5000) by lia.
    rewrite Nat.div_add by lia. rewrite Nat.add_1_r. simpl. field.
  - intros s s' Hlr Hs.
    apply (Rmult_le_compat_l (lr args)); [exact Hlr|].
    apply (npow_half_le (s / 5000) (s' / 5000)).
    apply Nat.Div0.div_le_mono. exact Hs.
Qed.

Lemma decayed_lr_staircase_witness :
  (decayed_lr {| batch_size := 20; epochs := 60; lr := (1 / 1000)%R;
                 seed := 1; log_interval := 50; eval_interval := 250 |}
              200
   <= decayed_lr {| batch_size := 20; epochs := 60; lr := (1 / 1000)%R;
                    seed := 1; log_interval := 50; eval_interval := 250 |}
                 100)%R.
Proof.
  refine (proj2 (proj2 (decayed_lr_staircase _)) 100 200 _ _).
  - simpl. lra.
  - lia.
Defined.

(** ** The training loop: what a run leaves behind *)

Section RunProperties.
Context {T G : Type} {NT : Num T} {RS : RandomSource T G}.
Variable cal_grad :
  list T -> tensor T 4 -> tensor T 2 -> tensor T 2 -> T * list T.
Variable eval_dataset_map : list T -> list T * T.
Variable train_dataset : nat -> list (batch (T := T)).

Local Abbreviation batch_step := (train_batch cal_grad eval_dataset_map).
Local Abbreviation batch_loop := (train_batches cal_grad eval_dataset_map).
Local Abbreviation epoch_step :=
  (train_epoch cal_grad eval_dataset_map train_dataset).
Local Abbreviation epoch_loop :=
  (run_epochs cal_grad eval_dataset_map train_dataset).

Lemma train_batch_summaries args acc b g acc' g' :
  log_interval args <> 0%Z -> eval_interval args <> 0%Z ->
  batch_step args acc b g = Some (acc', g') ->
  Forall (summary_ok args) (summaries (snd acc)) ->
  Forall (summary_ok args) (summaries (snd acc')).
Proof.
  intros Hlog Hev.
  destruct b as [[images labels] weights], acc as [avg st].
  unfold train_batch, bind, lift, ret.
  destruct (mixup _ _ _ _ _ g) as [[[[im lb] w] g1]|]; [|discriminate].
  destruct (cal_grad _ _ _ _) as [loss_value grads].
  assert (Es : summaries (apply_gradients st grads) = summaries st)
    by (unfold apply_gradients; now destruct (apply_dense _ _ _ _ _)).
  unfold np_mod.
  destruct (log_interval args =? 0)%Z eqn:Z1;
    [apply Z.eqb_eq in Z1; contradiction|].
  destruct (eval_interval args =? 0)%Z eqn:Z2;
    [apply Z.eqb_eq in Z2; contradiction|].
  intros H Hok. injection H as <- <-. simpl snd in *.
  destruct (_ mod log_interval args =? 0)%Z eqn:E1;
    destruct (_ mod eval_interval args =? 0)%Z eqn:E2;
    simpl; rewrite ?Es;
    repeat (apply Forall_cons; [simpl; auto using Z.eqb_eq|]);
    try exact Hok.
  all: try (apply Z.eqb_eq; assumption).
  all: try (split; [apply Z.eqb_eq; assumption | reflexivity]).
Qed.

Lemma train_batches_summaries args batches :
  log_interval args <> 0%Z -> eval_interval args <> 0%Z ->
  forall acc g acc' g',
    batch_loop args acc batches g = Some (acc', g') ->
    Forall (summary_ok args) (summaries (snd acc)) ->
    Forall (summary_ok args) (summaries (snd acc')).
Proof.
  intros Hlog Hev.
  induction batches as [|b rest IH]; intros acc g acc' g' H Hok; simpl in H.
  - now injection H as <- <-.
  - unfold bind in H.
    destruct (batch_step args acc b g) as [[acc1 g1]|] eqn:E; [|discriminate].
    eapply IH; [exact H|]. eapply train_batch_summaries; eauto.
Qed.

Lemma train_epoch_summaries args st ep g st' g' :
  log_interval args <> 0%Z -> eval_interval args <> 0%Z ->
  epoch_step args st ep g = Some (st', g') ->
  Forall (summary_ok args) (summaries st) ->
  Forall (summary_ok args) (summaries st').
Proof.
  intros Hlog Hev H Hok.
  apply train_epoch_inv in H. destruct H as (acc & Eb & ->).
  apply train_batches_summaries in Eb; [|exact Hlog|exact Hev|exact Hok].
  now destruct (ep mod 2 =? 0).
Qed.

Lemma run_epochs_summaries args eps :
  log_interval args <> 0%Z -> eval_interval args <> 0%Z ->
  forall st g st' g',
    epoch_loop args st eps g = Some (st', g') ->
    Forall (summary_ok args) (summaries st) ->
    Forall (summary_ok args) (summaries st').
Proof.
  intros Hlog Hev.
  induction eps as [|ep eps IH]; intros st g st' g' H Hok; simpl in H.
  - now injection H as <- <-.
  - unfold bind in H.
    destruct (epoch_step args st ep g) as [[st1 g1]|] eqn:E; [|discriminate].
    eapply IH; [exact H|]. eapply train_epoch_summaries; eauto.
Qed.

(** X14.  Whatever a training run has written to the summaries is on the
    grid of the intervals: the entries "Training Loss" and "LR" carry steps
    that [log_interval] divides, the entries "Test mAP" steps that
    [eval_interval] divides, and every "LR" entry holds the value of the
    staircase schedule at its step. *)
Theorem summaries_follow_intervals (args : Args (T := T))
    (variables0 : list T) (g : G) :
  log_interval args <> 0%Z -> eval_interval args <> 0%Z ->
  (forall ep, Forall well_formed_batch (train_dataset ep)) ->
  exists st g',
    main_loop cal_grad eval_dataset_map train_dataset args variables0 g
    = Some (st, g') /\
    Forall (summary_ok args) (summaries st).
Proof.
  intros Hlog Hev Hwf.
  destruct (run_epochs_total cal_grad eval_dataset_map train_dataset args
              (seq 0 (Z.to_nat (epochs args))) Hlog Hev (fun e _ => Hwf e)
              (main_init args variables0) g) as (st & g' & E).
  exists st, g'. split; [exact E|].
  eapply run_epochs_summaries; [exact Hlog|exact Hev|exact E|]. constructor.
Qed.

Lemma run_prefix_checkpoints args variables0 g (n : nat) :
  forall st g',
    epoch_loop args (main_init args variables0) (seq 0 n) g = Some (st, g') ->
    save_counter st = (n + 1) / 2 /\
    map (fun c => ckpt_number c) (checkpoints st)
    = rev (seq 1 ((n + 1) / 2)).
Proof.
  induction n as [|n IH]; intros st g' H.
  - simpl in H. injection H as <- <-. split; reflexivity.
  - rewrite seq_S, run_epochs_app in H. simpl in H.
    destruct (epoch_loop args (main_init args variables0) (seq 0 n) g)
      as [[st1 g1]|] eqn:E1; [|discriminate].
    destruct (IH st1 g1 eq_refl) as [Hc Hk].
    unfold bind, ret in H.
    destruct (epoch_step args st1 n g1) as [[st2 g2]|] eqn:E2;
      [|discriminate].
    injection H as <- <-.
    apply train_epoch_inv in E2. destruct E2 as (acc & Eb & ->).
    apply train_batches_frame in Eb. simpl in Eb.
    destruct Eb as (_ & _ & Eck & Esc).
    destruct (n mod 2 =? 0) eqn:Em.
    + apply Nat.eqb_eq in Em.
      assert (Hd : (S n + 1) / 2 = S ((n + 1) / 2)) by lia.
      rewrite Hd. unfold Checkpoint_save.
      cbn [save_counter checkpoints map ckpt_number].
      rewrite Esc, Eck, Hc, Hk. split; [reflexivity|].
      rewrite seq_S, rev_app_distr. reflexivity.
    + apply Nat.eqb_neq in Em.
      assert (Hd : (S n + 1) / 2 = (n + 1) / 2) by lia.
      rewrite Hd, Esc, Eck. auto.
Qed.

(** X15.  A completed run of [E] epochs has written [(E + 1) / 2]
    checkpoints, one for every second epoch from the first, and they are
    numbered 1, 2, ... in the order of writing. *)
Theorem checkpoints_are_numbered (args : Args (T := T))
    (variables0 : list T) (g : G) :
  log_interval args <> 0%Z -> eval_interval args <> 0%Z ->
  (forall ep, Forall well_formed_batch (train_dataset ep)) ->
  exists st g',
    main_loop cal_grad eval_dataset_map train_dataset args variables0 g
    = Some (st, g') /\
    save_counter st = (Z.to_nat (epochs args) + 1) / 2 /\
    length (checkpoints st) = (Z.to_nat (epochs args) + 1) / 2 /\
    map (fun c => ckpt_number c) (checkpoints st)
    = rev (seq 1 ((Z.to_nat (epochs args) + 1) / 2)).
Proof.
  intros Hlog Hev Hwf.
  destruct (run_epochs_total cal_grad eval_dataset_map train_dataset args
              (seq 0 (Z.to_nat (epochs args))) Hlog Hev (fun e _ => Hwf e)
              (main_init args variables0) g) as (st & g' & E).
  exists st, g'. split; [exact E|].
  destruct (run_prefix_checkpoints args variables0 g _ st g' E) as [Hc Hk].
  split; [exact Hc|]. split; [|exact Hk].
  rewrite <- (length_map (fun c => ckpt_number c)), Hk.
  now rewrite length_rev, length_seq.
Qed.

(** X16.  At the end of a completed run the global step is the number of
    batches of all its epochs together. *)
Theorem global_step_counts_batches (args : Args (T := T))
    (variables0 : list T) (g : G) :
  log_interval args <> 0%Z -> eval_interval args <> 0%Z ->
  (forall ep, Forall well_formed_batch (train_dataset ep)) ->
  exists st g',
    main_loop cal_grad eval_dataset_map train_dataset args variables0 g
    = Some (st, g') /\
    global_step st
    = list_sum (map (fun ep => length (train_dataset ep))
                    (seq 0 (Z.to_nat (epochs args)))).
Proof.
  intros Hlog Hev Hwf.
  destruct (run_epochs_total cal_grad eval_dataset_map train_dataset args
              (seq 0 (Z.to_nat (epochs args))) Hlog Hev (fun e _ => Hwf e)
              (main_init args variables0) g) as (st & g' & E).
  exists st, g'. split; [exact E|].
  apply run_epochs_learning_rate in E. destruct E as [_ E].
  rewrite E. simpl global_step. rewrite Nat.add_0_r.
  generalize (seq 0 (Z.to_nat (epochs args))). intros l.
  induction l as [|ep l IH]; simpl; [reflexivity|]. now rewrite IH.
Qed.

End RunProperties.

Lemma summaries_follow_intervals_witness :
  exists st g',
    main_loop Sample.cal_grad Sample.eval_dataset_map Sample.train_dataset
              Sample.args [0%Q; 0%Q] Sample.no_script
    = Some (st, g') /\
    Forall (summary_ok Sample.args) (summaries st).
Proof.
  refine (summaries_follow_intervals
            Sample.cal_grad Sample.eval_dataset_map Sample.train_dataset
            Sample.args [0%Q; 0%Q] Sample.no_script _ _ _).
  - simpl. discriminate.
  - simpl. discriminate.
  - exact tiny_batches_well_formed.
Defined.

Lemma checkpoints_are_numbered_witness :
  exists st g',
    main_loop Sample.cal_grad Sample.eval_dataset_map Sample.train_dataset
              Sample.args [0%Q; 0%Q] Sample.no_script
    = Some (st, g') /\
    save_counter st = 30 /\
    length (checkpoints st) = 30 /\
    map (fun c => ckpt_number c) (checkpoints st) = rev (seq 1 30).
Proof.
  refine (checkpoints_are_numbered
            Sample.cal_grad Sample.eval_dataset_map Sample.train_dataset
            Sample.args [0%Q; 0%Q] Sample.no_script _ _ _).
  - simpl. discriminate.
  - simpl. discriminate.
  - exact tiny_batches_well_formed.
Defined.

Lemma global_step_counts_batches_witness :
  exists st g',
    main_loop Sample.cal_grad Sample.eval_dataset_map Sample.train_dataset
              Sample.args [0%Q; 0%Q] Sample.no_script
    = Some (st, g') /\
    global_step st
    = list_sum (map (fun ep => length (Sample.train_dataset ep)) (seq 0 60)).
Proof.
  refine (global_step_counts_batches
            Sample.cal_grad Sample.eval_dataset_map Sample.train_dataset
            Sample.args [0%Q; 0%Q] Sample.no_script _ _ _).
  - simpl. discriminate.
  - simpl. discriminate.
  - exact tiny_batches_well_formed.
Defined.

(** ** The input pipeline: batching *)

Lemma batch_elements_concat {A : Type} (size : nat) (l : list A) :
  forall cur, concat (batch_elements size cur l) = rev cur ++ l.
Proof.
  induction l as [|x l IH]; intros cur.
  - destruct cur as [|c cur]; simpl; now rewrite ?app_nil_r.
  - cbn [batch_elements]. destruct (length (x :: cur) =? size).
    + cbn [concat]. rewrite IH. simpl. now rewrite <- app_assoc.
    + rewrite IH. simpl. now rewrite <- app_assoc.
Qed.

Lemma batch_elements_sizes {A : Type} (size : nat) (l : list A) :
  forall cur,
    length cur < size ->
    Forall (fun b => 1 <= length b <= size) (batch_elements size cur l).
Proof.
  induction l as [|x l IH]; intros cur Hc.
  - destruct cur as [|c cur]; simpl; constructor; [|constructor].
    rewrite length_app, length_rev. simpl in *. lia.
  - cbn [batch_elements]. destruct (length (x :: cur) =? size) eqn:E.
    + apply Nat.eqb_eq in E. constructor.
      * rewrite length_rev. lia.
      * apply IH. simpl. lia.
    + apply Nat.eqb_neq in E. apply IH. simpl in *. lia.
Qed.

Lemma batch_elements_full {A : Type} (size : nat) (l : list A) :
  forall cur i,
    S i < length (batch_elements size cur l) ->
    length (nth i (batch_elements size cur l) []) = size.
Proof.
  induction l as [|x l IH]; intros cur i Hi.
  - destruct cur; simpl in Hi; lia.
  - cbn [batch_elements] in *. destruct (length (x :: cur) =? size) eqn:E.
    + apply Nat.eqb_eq in E. destruct i as [|i].
      * cbn [nth]. now rewrite length_rev.
      * cbn [nth]. apply IH. cbn [length] in Hi. lia.
    + now apply IH.
Qed.

(** X17.  [Dataset.batch(batch_size)] refuses a batch size that is not
    positive.  For a positive one the batches, one after the other, are the
    elements of the dataset in their order, none lost and none twice; no
    batch is empty or larger than [batch_size]; and every batch but the
    last is full. *)
Theorem dataset_batch_partitions {A : Type} (batch_size : Z) (l : list A) :
  ((batch_size <= 0)%Z -> dataset_batch batch_size l = None) /\
  ((0 < batch_size)%Z ->
   exists batches,
     dataset_batch batch_size l = Some batches /\
     concat batches = l /\
     Forall (fun b => 1 <= length b <= Z.to_nat batch_size) batches /\
     forall i, S i < length batches ->
               length (nth i batches []) = Z.to_nat batch_size).
Proof.
  unfold dataset_batch. split; intros H.
  - apply Z.leb_le in H. now rewrite H.
  - destruct (batch_size <=? 0)%Z eqn:E; [apply Z.leb_le in E; lia|].
    eexists. split; [reflexivity|]. split; [|split].
    + apply batch_elements_concat.
    + apply batch_elements_sizes. simpl. lia.
    + intros i. apply batch_elements_full.
Qed.

Lemma dataset_batch_partitions_witness :
  exists batches,
    dataset_batch 3 [1; 2; 3; 4; 5; 6; 7] = Some batches /\
    concat batches = [1; 2; 3; 4; 5; 6; 7] /\
    Forall (fun b => 1 <= length b <= 3) batches /\
    forall i, S i < length batches -> length (nth i batches []) = 3.
Proof.
  refine (proj2 (dataset_batch_partitions 3 [1; 2; 3; 4; 5; 6; 7]) _).
  lia.
Defined.

(** ** The input pipeline: the two crops *)

Lemma In_firstn_skipn {A : Type} (o n : nat) (l : list A) (x : A) :
  In x (firstn n (skipn o l)) -> In x l.
Proof.
  intros H. rewrite <- (firstn_skipn o l). apply in_or_app. right.
  rewrite <- (firstn_skipn n (skipn o l)). apply in_or_app. now left.
Qed.

Lemma Forall_firstn_skipn {A : Type} (P : A -> Prop) (o n : nat) (l : list A) :
  Forall P l -> Forall P (firstn n (skipn o l)).
Proof.
  intros H. apply Forall_forall. intros x Hx.
  rewrite Forall_forall in H. apply H.
  exact (In_firstn_skipn o n l x Hx).
Qed.

Lemma length_firstn_skipn {A : Type} (o n : nat) (l : list A) :
  o + n <= length l -> length (firstn n (skipn o l)) = n.
Proof.
  intros H. rewrite length_firstn, length_skipn. lia.
Qed.

Lemma nth_error_firstn_skipn {A : Type} (o n i : nat) (l : list A) :
  i < n -> nth_error (firstn n (skipn o l)) i = nth_error l (o + i).
Proof.
  intros H. rewrite nth_error_firstn.
  destruct (Nat.ltb_spec i n) as [_|Hn]; [|lia].
  apply nth_error_skipn.
Qed.

Lemma slice3_rows {A : Type} (f : tensor A 1 -> tensor A 1)
    (image : tensor A 3) (H W C o_h o_w o_c s_h s_w : nat)
    (s_c : option nat) :
  has_shape 3 [H; W; C] image ->
  o_h + s_h <= H -> o_w + s_w <= W ->
  (forall px : tensor A 1,
      length px = C -> tf_slice o_c s_c px = Some (f px)) ->
  slice3 image (o_h, o_w, o_c) (Some s_h, Some s_w, s_c)
  = Some (window f image o_h o_w s_h s_w).
Proof.
  intros [HH Hrows] Hh Hw Hf. unfold slice3, tf_slice at 1.
  destruct (Nat.leb_spec (o_h + s_h) (length image)) as [_|Hn];
    [|rewrite HH in Hn; lia].
  unfold window. apply traverse_map_Some. intros row Hrow.
  apply In_firstn_skipn in Hrow.
  rewrite Forall_forall in Hrows. destruct (Hrows row Hrow) as [HW Hpx].
  unfold tf_slice at 1.
  destruct (Nat.leb_spec (o_w + s_w) (length row)) as [_|Hn];
    [|rewrite HW in Hn; lia].
  apply traverse_map_Some. intros px Hin.
  apply In_firstn_skipn in Hin.
  rewrite Forall_forall in Hpx. destruct (Hpx px Hin) as [HC _].
  now apply Hf.
Qed.

Lemma has_shape_window {A : Type} (f : tensor A 1 -> tensor A 1)
    (image : tensor A 3) (H W C C' o_h o_w s_h s_w : nat) :
  has_shape 3 [H; W; C] image ->
  o_h + s_h <= H -> o_w + s_w <= W ->
  (forall px : tensor A 1, length px = C -> length (f px) = C') ->
  has_shape 3 [s_h; s_w; C'] (window f image o_h o_w s_h s_w).
Proof.
  intros [HH Hrows] Hh Hw Hf. unfold window. split.
  - rewrite length_map. apply length_firstn_skipn.
    eapply Nat.le_trans; [exact Hh|].
    apply Nat.eq_le_incl. symmetry. exact HH.
  - apply Forall_map. apply Forall_firstn_skipn.
    eapply Forall_impl; [|exact Hrows]. intros row [HW Hpx]. split.
    + rewrite length_map. apply length_firstn_skipn.
      eapply Nat.le_trans; [exact Hw|].
      apply Nat.eq_le_incl. symmetry. exact HW.
    + apply Forall_map. apply Forall_firstn_skipn.
      eapply Forall_impl; [|exact Hpx]. intros px [HC _].
      split; [now apply Hf | ].
      apply Forall_forall. intros. reflexivity.
Qed.

Lemma pixel_window {A : Type} (f : tensor A 1 -> tensor A 1)
    (image : tensor A 3) (o_h o_w s_h s_w i j : nat) :
  i < s_h -> j < s_w ->
  pixel (window f image o_h o_w s_h s_w) i j
  = option_map f (pixel image (o_h + i) (o_w + j)).
Proof.
  intros Hi Hj. unfold pixel, window.
  rewrite nth_error_map, nth_error_firstn_skipn by exact Hi.
  cbn [tensor] in *.
  destruct (nth_error image (o_h + i)) as [row|]; cbn [option_map];
    [|reflexivity].
  rewrite nth_error_map, nth_error_firstn_skipn by exact Hj.
  reflexivity.
Qed.

Lemma shape3_of_shape {A : Type} (image : tensor A 3) (H W C : nat) :
  has_shape 3 [H; W; C] image ->
  exists w c, shape3 image = (H, w, c) /\
              (0 < H -> w = W) /\ (0 < H -> 0 < W -> c = C) /\
              w <= W /\ c <= C.
Proof.
  intros [HH Hrows]. unfold shape3. rewrite HH.
  destruct image as [|row image]; simpl in *.
  - exists 0, 0. repeat split; lia.
  - inversion Hrows as [|? ? [HW Hpx] _]; subst.
    destruct row as [|px row]; simpl in *.
    + exists 0, 0. repeat split; lia.
    + inversion Hpx as [|? ? [HC _] _]; subst.
      eexists _, _. repeat split; lia.
Qed.

Lemma margin_seven_eighths (n : nat) :
  Z.to_nat (Qfloor ((inject_Z (Z.of_nat n)
                     - inject_Z (Z.of_nat n) * (7 # 8)) / 2))
  = n / 16.
Proof.
  assert (E : ((inject_Z (Z.of_nat n) - inject_Z (Z.of_nat n) * (7 # 8)) / 2
               == Z.of_nat n # 16)%Q).
  { generalize (Z.of_nat n). intros z. unfold Qeq. simpl. lia. }
  rewrite E. unfold Qfloor.
  change (Z.pos 16) with (Z.of_nat 16).
  now rewrite <- Nat2Z.inj_div, Nat2Z.id.
Qed.

Lemma has_shape_grid {A : Type} (f : nat -> nat -> tensor A 1) (H W C : nat) :
  (forall i j, length (f i j) = C) ->
  has_shape 3 [H; W; C] (map (fun i => map (f i) (seq 0 W)) (seq 0 H)).
Proof.
  intros Hf. cbn [has_shape]. split; [now rewrite length_map, length_seq|].
  apply Forall_forall. intros row Hrow.
  apply in_map_iff in Hrow. destruct Hrow as (i & <- & _).
  split; [now rewrite length_map, length_seq|].
  apply Forall_forall. intros px Hpx.
  apply in_map_iff in Hpx. destruct Hpx as (j & <- & _).
  split; [apply Hf|]. apply Forall_forall. intros a _. reflexivity.
Qed.

Lemma has_shape_flip {A : Type} (image : tensor A 3) (s : list nat) :
  has_shape 3 s image -> has_shape 3 s (map (@rev (tensor A 1)) image).
Proof.
  destruct s as [|n s]; [intros []|]. intros [Hl Hrows]. split.
  - rewrite length_map. exact Hl.
  - apply Forall_map. revert Hrows. apply Forall_impl. intros row.
    destruct s as [|m s]; [intros []|]. intros [Hr Hpx]. split.
    + rewrite length_rev. exact Hr.
    + apply Forall_rev. exact Hpx.
Qed.

(** X18.  [center_crop_test_data] on an image of [H] rows and [W] columns
    cuts a margin of [H / 16] rows above and below and of [W / 16] columns
    left and right: the result has [H - 2 * (H / 16)] rows and
    [W - 2 * (W / 16)] columns (224 by 224 for 256 by 256), all channels,
    its pixel [(i, j)] is the pixel [(H / 16 + i, W / 16 + j)] of the
    image, and the labels and weights pass through. *)
Theorem center_crop_test_data_window {A B C' : Type}
    (x : tensor A 3) (y : B) (z : C') (H W C : nat) :
  has_shape 3 [H; W; C] x -> 0 < H ->
  let x' := window (fun px => px) x (H / 16) (W / 16)
                   (H - H / 16 * 2) (W - W / 16 * 2) in
  center_crop_test_data x y z = Some (x', y, z) /\
  has_shape 3 [H - H / 16 * 2; W - W / 16 * 2; C] x' /\
  forall i j, i < H - H / 16 * 2 -> j < W - W / 16 * 2 ->
              pixel x' i j = pixel x (H / 16 + i) (W / 16 + j).
Proof.
  intros Hs HH x'.
  destruct (shape3_of_shape x H W C Hs) as (w & c & Es & Ew & _).
  specialize (Ew HH). subst w.
  assert (Hh : H / 16 + (H - H / 16 * 2) <= H) by lia.
  assert (Hw : W / 16 + (W - W / 16 * 2) <= W) by lia.
  split; [|split].
  - unfold center_crop_test_data, central_crop.
    change (Qle_bool (7 # 8) 0) with false.
    change (Qle_bool (7 # 8) 1) with true.
    change (Qeq_bool (7 # 8) 1) with false.
    cbn [orb negb]. rewrite Es. rewrite !margin_seven_eighths.
    rewrite (slice3_rows (fun px => px) x H W C) by (auto; reflexivity).
    reflexivity.
  - apply (has_shape_window (fun px => px) x H W C C); auto.
  - intros i j Hi Hj. unfold x'. rewrite pixel_window by assumption.
    now destruct (pixel x (H / 16 + i) (W / 16 + j)).
Qed.

Lemma center_crop_test_data_window_witness :
  center_crop_test_data
    (map (fun i => map (fun j => [i; j]) (seq 0 32)) (seq 0 32)) 1 2
  = Some (window (fun px => px)
                 (map (fun i => map (fun j => [i; j]) (seq 0 32)) (seq 0 32))
                 2 2 28 28, 1, 2).
Proof.
  refine (proj1 (center_crop_test_data_window
                   (map (fun i => map (fun j => [i; j]) (seq 0 32))
                        (seq 0 32)) 1 2 32 32 2 _ _)).
  - apply (has_shape_grid (fun i j => [i; j])). reflexivity.
  - lia.
Defined.

Section AugmentationProperties.
Context {A G : Type} {TR : TFRandom G}.

Lemma mod_offset_fits (u n s : nat) : s <= n -> u mod (n - s + 1) + s <= n.
Proof.
  intros Hs. pose proof (Nat.mod_upper_bound u (n - s + 1)) as Hb. lia.
Qed.

Lemma random_crop_window (value : tensor A 3) (s_h s_w s_c H W C : nat)
    (g : G) :
  has_shape 3 [H; W; C] value ->
  0 < s_h -> 0 < s_w -> s_h <= H -> s_w <= W -> s_c <= C ->
  let d1 := random_uniform_int g in
  let d2 := random_uniform_int (snd d1) in
  let d3 := random_uniform_int (snd d2) in
  let o_h := fst d1 mod (H - s_h + 1) in
  let o_w := fst d2 mod (W - s_w + 1) in
  let o_c := fst d3 mod (C - s_c + 1) in
  let crop := window (fun px => firstn s_c (skipn o_c px)) value
                     o_h o_w s_h s_w in
  o_h + s_h <= H /\ o_w + s_w <= W /\ o_c + s_c <= C /\
  has_shape 3 [s_h; s_w; s_c] crop /\
  random_crop value (s_h, s_w, s_c) g = Some (crop, snd d3).
Proof.
  intros Hs Ph Pw HH HW HC.
  destruct (shape3_of_shape value H W C Hs) as (w & c & Es & Ew & Ec & _).
  specialize (Ew (Nat.lt_le_trans _ _ _ Ph HH)).
  specialize (Ec (Nat.lt_le_trans _ _ _ Ph HH) (Nat.lt_le_trans _ _ _ Pw HW)).
  subst w c.
  intros d1 d2 d3 o_h o_w o_c crop.
  assert (Lh : o_h + s_h <= H) by (apply mod_offset_fits; exact HH).
  assert (Lw : o_w + s_w <= W) by (apply mod_offset_fits; exact HW).
  assert (Lc : o_c + s_c <= C) by (apply mod_offset_fits; exact HC).
  assert (Hf : forall px : tensor A 1,
             length px = C ->
             tf_slice o_c (Some s_c) px = Some (firstn s_c (skipn o_c px))).
  { intros px Hpx. unfold tf_slice.
    destruct (Nat.leb_spec (o_c + s_c) (length px)) as [_|Hn];
      [reflexivity | rewrite Hpx in Hn].
    exact (False_ind _ (Nat.lt_irrefl _ (Nat.lt_le_trans _ _ _ Hn Lc))). }
  split; [exact Lh|]. split; [exact Lw|]. split; [exact Lc|]. split.
  - apply (has_shape_window _ value H W C s_c); auto.
    intros px Hpx. apply length_firstn_skipn. now rewrite Hpx.
  - unfold random_crop, bind, draw, lift.
    rewrite Es.
    rewrite (proj2 (Nat.leb_le s_h H) HH), (proj2 (Nat.leb_le s_w W) HW),
      (proj2 (Nat.leb_le s_c C) HC).
    cbn [andb].
    fold d1. destruct d1 as [u_h g1] eqn:E1. cbn [fst snd] in *.
    fold d2. destruct d2 as [u_w g2] eqn:E2. cbn [fst snd] in *.
    fold d3. destruct d3 as [u_c g3] eqn:E3. cbn [fst snd] in *.
    fold o_h o_w o_c.
    rewrite (slice3_rows (fun px => firstn s_c (skipn o_c px)) value H W C)
      by auto.
    reflexivity.
Qed.

Lemma random_crop_too_small (value : tensor A 3) (s_h s_w s_c H W C : nat)
    (g : G) :
  has_shape 3 [H; W; C] value ->
  H < s_h \/ W < s_w \/ C < s_c ->
  random_crop value (s_h, s_w, s_c) g = None.
Proof.
  intros Hs Hsmall.
  destruct (shape3_of_shape value H W C Hs)
    as (w & c & Es & _ & _ & Lw & Lc).
  unfold random_crop, lift. rewrite Es.
  destruct (Nat.leb_spec s_h H) as [Hh|_]; [|reflexivity].
  destruct (Nat.leb_spec s_w w) as [Hw|_]; [|reflexivity].
  destruct (Nat.leb_spec s_c c) as [Hc|_]; [|reflexivity].
  lia.
Qed.

(** X19.  [augment_train_data] on an image of at least 224 rows, 224
    columns and 3 channels returns an image of exactly 224 by 224 by 3:
    a window that lies inside the image, at the offsets drawn (each taken
    modulo the room left), reversed along its width when the flip is
    drawn; the labels and weights are as given. *)
Theorem augment_train_data_window {B C' : Type}
    (x : tensor A 3) (y : B) (z : C') (H W C : nat) (g : G) :
  has_shape 3 [H; W; C] x ->
  224 <= H -> 224 <= W -> 3 <= C ->
  let d1 := random_uniform_int g in
  let d2 := random_uniform_int (snd d1) in
  let d3 := random_uniform_int (snd d2) in
  let d4 := random_uniform_less_half (snd d3) in
  let o_h := fst d1 mod (H - 224 + 1) in
  let o_w := fst d2 mod (W - 224 + 1) in
  let o_c := fst d3 mod (C - 3 + 1) in
  let crop := window (fun px => firstn 3 (skipn o_c px)) x o_h o_w 224 224 in
  let x' := if fst d4 then map (@rev (tensor A 1)) crop else crop in
  o_h + 224 <= H /\ o_w + 224 <= W /\ o_c + 3 <= C /\
  has_shape 3 [224; 224; 3] x' /\
  augment_train_data x y z g = Some (x', y, z, snd d4).
Proof.
  intros Hs HH HW HC d1 d2 d3 d4 o_h o_w o_c crop x'.
  destruct (random_crop_window x 224 224 3 H W C g Hs
              (Nat.lt_0_succ _) (Nat.lt_0_succ _) HH HW HC)
    as (Lh & Lw & Lc & Hshape & Erun).
  split; [exact Lh|]. split; [exact Lw|]. split; [exact Lc|]. split.
  - unfold x'. destruct (fst d4); [apply has_shape_flip|]; exact Hshape.
  - unfold augment_train_data, bind. rewrite Erun.
    unfold random_flip_left_right, bind, draw, ret.
    subst x' crop o_h o_w o_c d4 d3 d2 d1.
    destruct (random_uniform_less_half _) as [flip g4]. reflexivity.
Qed.

(** X20.  [augment_train_data] fails on an image with fewer than 224
    rows, fewer than 224 columns or fewer than 3 channels. *)
Theorem augment_train_data_too_small {B C' : Type}
    (x : tensor A 3) (y : B) (z : C') (H W C : nat) (g : G) :
  has_shape 3 [H; W; C] x ->
  H < 224 \/ W < 224 \/ C < 3 ->
  augment_train_data x y z g = None.
Proof.
  intros Hs Hsmall. unfold augment_train_data, bind.
  now rewrite (random_crop_too_small x 224 224 3 H W C g Hs Hsmall).
Qed.

End AugmentationProperties.

Lemma augment_train_data_window_witness :
  exists x' : tensor nat 3,
    has_shape 3 [224; 224; 3] x' /\
    augment_train_data
      (map (fun i => map (fun j => [i; j; 0; 1]) (seq 0 230)) (seq 0 226))
      1 2 {| int_draws := [500; 3; 7]; flip_draws := [true] |}
    = Some (x', 1, 2, {| int_draws := []; flip_draws := [] |}).
Proof.
  destruct (augment_train_data_window
              (map (fun i => map (fun j => [i; j; 0; 1]) (seq 0 230))
                   (seq 0 226))
              1 2 226 230 4
              {| int_draws := [500; 3; 7]; flip_draws := [true] |})
    as (_ & _ & _ & Hshape & Erun).
  - apply (has_shape_grid (fun i j => [i; j; 0; 1])). reflexivity.
  - apply Nat.leb_le. reflexivity.
  - apply Nat.leb_le. reflexivity.
  - apply Nat.leb_le. reflexivity.
  - eexists. split; [exact Hshape | exact Erun].
Defined.

Lemma augment_train_data_too_small_witness :
  augment_train_data
    (map (fun i => map (fun j => [i; j; 0]) (seq 0 256)) (seq 0 200))
    1 2 {| int_draws := [5; 3; 7]; flip_draws := [true] |}
  = None.
Proof.
  refine (augment_train_data_too_small
            (map (fun i => map (fun j => [i; j; 0]) (seq 0 256)) (seq 0 200))
            1 2 200 256 3 _ _ _).
  - apply (has_shape_grid (fun i j => [i; j; 0])). reflexivity.
  - left. apply Nat.ltb_lt. reflexivity.
Defined.

(** ** The shapes through the layers of [call] *)

Lemma window_output_length_valid (input k stride : nat) :
  k <= input ->
  window_output_length input k stride valid
  = Some ((input - k) / stride + 1).
Proof.
  intros Hk. unfold window_output_length.
  destruct (Nat.ltb_spec input k) as [Hn|_]; [|reflexivity].
  exact (False_ind _ (Nat.lt_irrefl _ (Nat.lt_le_trans _ _ _ Hn Hk))).
Qed.

Lemma Conv2D_shape_valid (f kh kw s : nat) (a : Activation)
    (n h w c : nat) :
  kh <= h -> kw <= w ->
  Conv2D_shape {| filters := f; kernel_size := (kh, kw); strides := s;
                  padding := valid; activation := a |} [n; h; w; c]
  = Some [n; (h - kh) / s + 1; (w - kw) / s + 1; f].
Proof.
  intros Hh Hw. unfold Conv2D_shape.
  cbn [filters kernel_size strides padding fst snd].
  now rewrite !window_output_length_valid.
Qed.

Lemma Conv2D_shape_same (f s : nat) (k : nat * nat) (a : Activation)
    (n h w c : nat) :
  Conv2D_shape {| filters := f; kernel_size := k; strides := s;
                  padding := same; activation := a |} [n; h; w; c]
  = Some [n; (h + s - 1) / s; (w + s - 1) / s; f].
Proof. reflexivity. Qed.

Lemma MaxPool2D_shape_fits (ph pw s n h w c : nat) :
  ph <= h -> pw <= w ->
  MaxPool2D_shape {| pool_size := (ph, pw); pool_strides := s |} [n; h; w; c]
  = Some [n; (h - ph) / s + 1; (w - pw) / s + 1; c].
Proof.
  intros Hh Hw. unfold MaxPool2D_shape. cbn [pool_size pool_strides fst snd].
  now rewrite !window_output_length_valid.
Qed.

(** The length of an axis of at least 67 after the three strided stages:
    the convolution of 11 by steps of 4 and the three poolings of 3 by
    steps of 2. *)
Lemma three_stages_length (h : nat) :
  67 <= h ->
  let h1 := (h - 11) / 4 + 1 in
  let h2 := (h1 - 3) / 2 + 1 in
  let h3 := (h2 - 3) / 2 + 1 in
  3 <= h1 /\ 3 <= h2 /\ 3 <= h3 /\ (h3 - 3) / 2 + 1 = (h - 35) / 32.
Proof. intros Hh h1 h2 h3. subst h1 h2 h3. lia. Qed.

(** X21.  On a batch of [N] images of at least 67 rows and 67 columns,
    every window of [CaffeNet.call] fits: the feature map that enters
    [flat] has [(H - 35) / 32] rows, [(W - 35) / 32] columns and 256
    channels (5 by 5 by 256 for the 224 by 224 crops), and the logits
    have the shape [compute_output_shape] announces, [N] rows of
    [num_classes] entries, whatever the image size and channel count. *)
Theorem call_shapes_of_large_images (classes N H W C : nat) :
  67 <= H -> 67 <= W ->
  call_shapes (CaffeNet_init (Some classes)) [N; H; W; C]
  = Some ([N; (H - 35) / 32; (W - 35) / 32; 256], [N; classes]) /\
  compute_output_shape (CaffeNet_init (Some classes))
                       (map Some [N; H; W; C])
  = Some (map Some [N; classes]).
Proof.
  intros HH HW. split; [|reflexivity].
  destruct (three_stages_length H HH) as (H1 & H2 & H3 & EH).
  destruct (three_stages_length W HW) as (W1 & W2 & W3 & EW).
  cbv zeta in *.
  unfold call_shapes, CaffeNet_init.
  cbn [conv1 pool1 conv2 pool2 conv3 conv4 conv5 pool3 dense1 dense2 dense3].
  rewrite Conv2D_shape_valid by (eapply Nat.le_trans; [|eassumption];
                                 apply Nat.leb_le; reflexivity).
  cbn [and_then]. rewrite MaxPool2D_shape_fits by assumption.
  cbn [and_then]. rewrite Conv2D_shape_same.
  rewrite !Nat.add_sub, !Nat.div_1_r.
  cbn [and_then]. rewrite MaxPool2D_shape_fits by assumption.
  cbn [and_then]. rewrite !Conv2D_shape_same.
  rewrite !Nat.add_sub, !Nat.div_1_r.
  cbn [and_then]. rewrite !Conv2D_shape_same.
  rewrite !Nat.add_sub, !Nat.div_1_r.
  cbn [and_then]. rewrite !Conv2D_shape_same.
  rewrite !Nat.add_sub, !Nat.div_1_r.
  cbn [and_then]. rewrite MaxPool2D_shape_fits by assumption.
  cbn [and_then Flatten_shape Dense_shape units].
  rewrite EH, EW. reflexivity.
Qed.

Lemma call_shapes_of_large_images_witness :
  call_shapes main_model [10; 224; 224; 3] = Some ([10; 5; 5; 256], [10; 20]).
Proof.
  refine (proj1 (call_shapes_of_large_images 20 10 224 224 3 _ _));
    apply Nat.leb_le; reflexivity.
Defined.
